(** * Tic-Tac-Toe with a minimax AI (alpha-beta pruning)

    A shallow embedding of [tictactoe.py] and the properties of its
    board model, its search engine and its command-line driver.

    The board is a Python list of one-character strings that the search
    mutates in place; it is modelled as the state of a small state and
    exception monad.  Scores are Python numbers: the integers [-1], [0],
    [1] and the floats [-math.inf], [math.inf].  The driver runs in a
    world of typed lines and written text, over the string and random
    functions of the library, which are parameters of the model. *)

From Stdlib Require Import ZArith Lia Bool String List DecimalString Sorted.
From stdpp Require Import base list.
Import ListNotations.
Open Scope string_scope.
Open Scope list_scope.

(** ** Numbers: integers together with the two float infinities *)

Inductive num : Type :=
| NInf
| Int (z : Z)
| PInf.

(** [a < b] on Python numbers. *)
Definition num_lt (a b : num) : bool :=
  match a, b with
  | NInf, NInf => false
  | NInf, _ => true
  | Int _, NInf => false
  | Int x, Int y => (x <? y)%Z
  | Int _, PInf => true
  | PInf, _ => false
  end.

(** [a >= b] is [num_le b a]. *)
Definition num_le (a b : num) : bool := negb (num_lt b a).

Definition num_eqb (a b : num) : bool :=
  match a, b with
  | NInf, NInf => true
  | Int x, Int y => (x =? y)%Z
  | PInf, PInf => true
  | _, _ => false
  end.

(** Python's [max(a, b)] and [min(a, b)]: the first argument is kept
    unless the second is strictly better. *)
Definition num_max (a b : num) : num := if num_lt a b then b else a.
Definition num_min (a b : num) : num := if num_lt b a then b else a.

(** ** Results, exceptions and the board monad *)

Inductive exn : Type := IndexError.

Inductive res (A : Type) : Type :=
| Ok (a : A)
| Raise (e : exn)
| OutOfFuel.
Arguments Ok {A} a.
Arguments Raise {A} e.
Arguments OutOfFuel {A}.

Abbreviation board := (list string).

(** A computation reads and writes the one shared board object. *)
Definition M (A : Type) : Type := board -> board * res A.

Definition ret {A : Type} (a : A) : M A := fun b => (b, Ok a).

Definition bind {A B : Type} (c : M A) (k : A -> M B) : M B :=
  fun b =>
    match c b with
    | (b', Ok a) => k a b'
    | (b', Raise e) => (b', Raise e)
    | (b', OutOfFuel) => (b', OutOfFuel)
    end.

Notation "'let*' x ':=' c 'in' k" := (bind c (fun x => k))
  (at level 10, x name, c at level 100, k at level 200).

(** A read-only operation on the board. *)
Definition reading {A : Type} (f : board -> res A) : M A :=
  fun b => (b, f b).

(** [board[i]]: raises [IndexError] out of range. *)
Definition getitem (b : board) (i : nat) : res string :=
  match b !! i with
  | Some v => Ok v
  | None => Raise IndexError
  end.

(** [board[i] = v]: raises [IndexError] out of range. *)
Definition setitem (i : nat) (v : string) : M unit :=
  fun b =>
    if (i <? length b)%nat then (<[i:=v]> b, Ok tt) else (b, Raise IndexError).

(** ** Board model *)

Definition WIN_LINES : list (nat * nat * nat) :=
  [ (0, 1, 2); (3, 4, 5); (6, 7, 8);
    (0, 3, 6); (1, 4, 7); (2, 5, 8);
    (0, 4, 8); (2, 4, 6) ]%nat.

Definition fresh_board : board := repeat " " 9.

(** The condition
    [board[a] != " " and board[a] == board[b] == board[c]],
    with Python's left-to-right evaluation and short-circuiting: a cell
    is only read when the evaluation reaches it. *)
Definition line_test (b : board) (line : nat * nat * nat) : res bool :=
  let '(i, j, k) := line in
  match getitem b i with
  | Ok x =>
      if String.eqb x " " then Ok false
      else
        match getitem b i with
        | Ok x' =>
            match getitem b j with
            | Ok y =>
                if String.eqb x' y then
                  match getitem b k with
                  | Ok z => Ok (String.eqb y z)
                  | Raise e => Raise e
                  | OutOfFuel => OutOfFuel
                  end
                else Ok false
            | Raise e => Raise e
            | OutOfFuel => OutOfFuel
            end
        | Raise e => Raise e
        | OutOfFuel => OutOfFuel
        end
  | Raise e => Raise e
  | OutOfFuel => OutOfFuel
  end.

(** [" " in board] *)
Definition has_empty (b : board) : bool := existsb (String.eqb " ") b.

(** The [for a, b, c in WIN_LINES] loop of [check_winner] followed by
    the draw test. *)
Fixpoint check_lines (b : board) (lines : list (nat * nat * nat))
  : res (option string) :=
  match lines with
  | [] => if has_empty b then Ok None else Ok (Some "D")
  | line :: rest =>
      match line_test b line with
      | Ok true =>
          match getitem b (fst (fst line)) with
          | Ok w => Ok (Some w)
          | Raise e => Raise e
          | OutOfFuel => OutOfFuel
          end
      | Ok false => check_lines b rest
      | Raise e => Raise e
      | OutOfFuel => OutOfFuel
      end
  end.

(** Returns ['X'] or ['O'] for a winner, ['D'] for a draw, [None] while
    the game goes on. *)
Definition check_winner (b : board) : res (option string) :=
  check_lines b WIN_LINES.

Fixpoint enumerate_from {A : Type} (i : nat) (l : list A) : list (nat * A) :=
  match l with
  | [] => []
  | x :: l' => (i, x) :: enumerate_from (S i) l'
  end.

Definition enumerate {A : Type} (l : list A) : list (nat * A) :=
  enumerate_from 0 l.

(** [[i for i, v in enumerate(board) if v == " "]] *)
Definition available_moves (b : board) : list nat :=
  map fst (List.filter (fun iv => String.eqb (snd iv) " ") (enumerate b)).

Definition other (player : string) : string :=
  if String.eqb player "X" then "O" else "X".

(** ** Search engine *)

Definition answer : Type := (num * option nat)%type.

Section Loops.

(** The recursive call [minimax(board, other(player), maximizing_player,
    alpha, beta)] made from inside the loops. *)
Variable recur : num -> num -> M answer.
Variable player : string.

(** The loop of the maximizing branch; [break] leaves the loop for
    the [return value, best_move] that follows it. *)
Fixpoint max_loop (moves : list nat) (value : num) (best_move : option nat)
    (alpha beta : num) : M answer :=
  match moves with
  | [] => ret (value, best_move)
  | m :: rest =>
      let* _ := setitem m player in
      let* r := recur alpha beta in
      let* _ := setitem m " " in
      let score := fst r in
      let value' := if num_lt value score then score else value in
      let best_move' := if num_lt value score then Some m else best_move in
      let alpha' := num_max alpha value' in
      if num_le beta alpha' then ret (value', best_move')
      else max_loop rest value' best_move' alpha' beta
  end.

(** The loop of the minimizing branch. *)
Fixpoint min_loop (moves : list nat) (value : num) (best_move : option nat)
    (alpha beta : num) : M answer :=
  match moves with
  | [] => ret (value, best_move)
  | m :: rest =>
      let* _ := setitem m player in
      let* r := recur alpha beta in
      let* _ := setitem m " " in
      let score := fst r in
      let value' := if num_lt score value then score else value in
      let best_move' := if num_lt score value then Some m else best_move in
      let beta' := num_min beta value' in
      if num_le beta' alpha then ret (value', best_move')
      else min_loop rest value' best_move' alpha beta'
  end.

End Loops.

(** The score of a finished game, from the maximizing player's side. *)
Definition terminal_answer (winner maximizing_player : string) : answer :=
  if String.eqb winner "D" then (Int 0, None)
  else ((if String.eqb winner maximizing_player then Int 1 else Int (-1)), None).

(** [minimax] with a bound [fuel] on the depth of the recursion below
    the current call. *)
Fixpoint minimax_fuel (fuel : nat) (player maximizing_player : string)
    (alpha beta : num) : M answer :=
  fun b =>
    match check_winner b with
    | Ok (Some winner) => (b, Ok (terminal_answer winner maximizing_player))
    | Ok None =>
        match fuel with
        | O => (b, OutOfFuel)
        | S fuel' =>
            let moves := available_moves b in
            if String.eqb player maximizing_player then
              max_loop
                (minimax_fuel fuel' (other player) maximizing_player)
                player moves NInf None alpha beta b
            else
              min_loop
                (minimax_fuel fuel' (other player) maximizing_player)
                player moves PInf None alpha beta b
        end
    | Raise e => (b, Raise e)
    | OutOfFuel => (b, OutOfFuel)
    end.

(** The number of Empty cells. *)
Definition count_empty (b : board) : nat := length (available_moves b).

(** [minimax(board, player, maximizing_player, alpha, beta)], for a
    player other than the Empty mark (the program passes X or O only):
    the depth of the recursion then never exceeds the number of Empty
    cells, and more fuel changes nothing ([minimax_fuel_stable]). *)
Definition minimax (b : board) (player maximizing_player : string)
    (alpha beta : num) : board * res answer :=
  minimax_fuel (count_empty b) player maximizing_player alpha beta b.

(** The loop of [best_move_for_ai]; every candidate is searched with
    the default window [(-inf, +inf)]. *)
Fixpoint best_loop (ai_symbol : string) (moves : list nat) (best_score : num)
    (best_moves : list nat) : M (list nat) :=
  match moves with
  | [] => ret best_moves
  | m :: rest =>
      let* _ := setitem m ai_symbol in
      let* r := (fun b => minimax b (other ai_symbol) ai_symbol NInf PInf) in
      let* _ := setitem m " " in
      let score := fst r in
      if num_lt best_score score then best_loop ai_symbol rest score [m]
      else if num_eqb score best_score then
        best_loop ai_symbol rest best_score (best_moves ++ [m])
      else best_loop ai_symbol rest best_score best_moves
  end.

(** The list [best_moves] that [best_move_for_ai] hands to
    [random.choice]. *)
Definition best_moves_for_ai (b : board) (ai_symbol : string)
  : board * res (list nat) :=
  best_loop ai_symbol (available_moves b) NInf [] b.

(** [random.choice(seq)]: [seq[k]] where [k] is the index drawn by the
    generator from [range(len(seq))]; an empty sequence raises
    [IndexError]. *)
Definition random_choice (k : nat) (seq : list nat) : res nat :=
  match seq with
  | [] => Raise IndexError
  | _ => match seq !! k with
         | Some m => Ok m
         | None => Raise IndexError
         end
  end.

(** [best_move_for_ai(board, ai_symbol)], given the generator's draw. *)
Definition best_move_for_ai (k : nat) (b : board) (ai_symbol : string)
  : board * res nat :=
  (let* best_moves := (fun b0 => best_moves_for_ai b0 ai_symbol) in
   reading (fun _ => random_choice k best_moves)) b.

(** * Notions for the specification and the proofs *)

(** ** Cells and win lines *)

Definition cell_empty (b : board) (i : nat) : bool :=
  match b !! i with
  | Some v => String.eqb v " "
  | None => false
  end.

(** The line test without the exceptions: all three cells exist, are
    equal and are not Empty. *)
Definition line_filled (b : board) (line : nat * nat * nat) : bool :=
  match b !! line.1.1, b !! line.1.2, b !! line.2 with
  | Some x, Some y, Some z =>
      negb (String.eqb x " ") && String.eqb x y && String.eqb y z
  | _, _, _ => false
  end.

(** All three cells of the line hold the non-Empty symbol [s]. *)
Definition filled_with (b : board) (s : string) (line : nat * nat * nat) : Prop :=
  s <> " " /\ b !! line.1.1 = Some s /\ b !! line.1.2 = Some s
  /\ b !! line.2 = Some s.

Definition in_range (b : board) (line : nat * nat * nat) : Prop :=
  (line.1.1 < length b /\ line.1.2 < length b /\ line.2 < length b)%nat.

(** The winner that [check_winner] reports when no cell lookup fails:
    the symbol on the first filled line of [lines], else the draw test. *)
Definition verdict (b : board) (lines : list (nat * nat * nat)) : option string :=
  match List.find (line_filled b) lines with
  | Some line => b !! line.1.1
  | None => if has_empty b then None else Some "D"
  end.

(** No win line is filled by any symbol. *)
Definition no_line_won (b : board) : Prop :=
  forall line s, In line WIN_LINES -> ~ filled_with b s line.

(** [s] fills the first filled line of [WIN_LINES], in declared order. *)
Definition first_filled_with (b : board) (s : string) : Prop :=
  exists pre line post,
    WIN_LINES = pre ++ line :: post /\ filled_with b s line
    /\ (forall l s', In l pre -> ~ filled_with b s' l).

(** ** Backtracking *)

(** A recursive call that returns normally leaves the board as it
    found it. *)
Definition restoring {A : Type} (c : M A) : Prop :=
  forall b b' r, c b = (b', Ok r) -> b' = b.

(** One trial of a move [m], with the rest of the iteration as the
    continuation [k]. *)
Definition trial {A B : Type} (m : nat) (p : string) (c : M A) (k : A -> M B)
  : M B :=
  let* _ := setitem m p in
  let* r := c in
  let* _ := setitem m " " in
  k r.

(** ** The loops without their effects *)

(** When every recursive call returns normally, a loop computes a
    function of the scores [sc m alpha beta] that the calls return. *)
Section PureLoops.

Variable sc : nat -> num -> num -> num.

Fixpoint max_pure (moves : list nat) (value : num) (best_move : option nat)
    (alpha beta : num) : answer :=
  match moves with
  | [] => (value, best_move)
  | m :: rest =>
      let score := sc m alpha beta in
      let value' := if num_lt value score then score else value in
      let best_move' := if num_lt value score then Some m else best_move in
      let alpha' := num_max alpha value' in
      if num_le beta alpha' then (value', best_move')
      else max_pure rest value' best_move' alpha' beta
  end.

Fixpoint min_pure (moves : list nat) (value : num) (best_move : option nat)
    (alpha beta : num) : answer :=
  match moves with
  | [] => (value, best_move)
  | m :: rest =>
      let score := sc m alpha beta in
      let value' := if num_lt score value then score else value in
      let best_move' := if num_lt score value then Some m else best_move in
      let beta' := num_min beta value' in
      if num_le beta' alpha then (value', best_move')
      else min_pure rest value' best_move' alpha beta'
  end.

End PureLoops.

(** The recursive call on the board with [m] played returns the score
    [sc m alpha beta] and the board it was given. *)
Definition returns_scores (recur : num -> num -> M answer) (p : string)
    (b : board) (sc : nat -> num -> num -> num) (moves : list nat) : Prop :=
  forall m, In m moves -> forall alpha beta,
    exists mv, recur alpha beta (<[m:=p]> b) = (<[m:=p]> b, Ok (sc m alpha beta, mv)).

(** *** Scores and moves that the loops return *)

Definition is_score (v : num) : Prop := exists s, v = Int s /\ (-1 <= s <= 1)%Z.

Definition scores_in_range (sc : nat -> num -> num -> num) (moves : list nat)
  : Prop :=
  forall m, In m moves -> forall alpha beta, is_score (sc m alpha beta).

(** A finite score together with a move out of [cells]. *)
Definition settled (cells : list nat) (a : answer) : Prop :=
  is_score (fst a) /\ exists m, snd a = Some m /\ In m cells.

(** The score a call returned ([-inf] stands in when it did not). *)
Definition score_of (r : board * res answer) : num :=
  match r with
  | (_, Ok a) => fst a
  | _ => NInf
  end.

(** The score of the recursive call that tries move [m]. *)
Definition child_score (fuel : nat) (p mp : string) (b : board)
    (m : nat) (alpha beta : num) : num :=
  score_of (minimax_fuel fuel (other p) mp alpha beta (<[m:=p]> b)).

(** What a call of [minimax] on [b] returns: the board itself, a score
    in range, and a move exactly when the game goes on. *)
Definition good_answer (b : board) (r : board * res answer) : Prop :=
  exists a, r = (b, Ok a) /\ is_score (fst a)
    /\ match verdict b WIN_LINES with
       | None => exists m, snd a = Some m /\ b !! m = Some " "
       | Some _ => snd a = None
       end.

(** ** Alpha-beta pruning *)

(** Scores are [-1], [0] or [1], and a window bound is a score or an
    infinity; on such numbers the order is that of their ranks. *)
Definition rank (a : num) : Z :=
  match a with
  | NInf => -2
  | Int z => z
  | PInf => 2
  end.

Definition bounded (a : num) : Prop :=
  match a with
  | Int z => (-1 <= z <= 1)%Z
  | _ => True
  end.

(** What a search with window [(a, b)] promises about its result [r]
    when the true value is [v]: exact inside the window, and on the
    right side of the window outside it. *)
Definition bounds (v a b r : Z) : Prop :=
  ((v <= a -> r <= a) /\ (a < v < b -> r = v) /\ (b <= v -> b <= r))%Z.

Definition exact_in_window (sc : nat -> num -> num -> num) (V : nat -> Z)
    (moves : list nat) : Prop :=
  forall m, In m moves -> forall a b0,
    bounded a -> bounded b0 -> (rank a < rank b0)%Z ->
    exists s, sc m a b0 = Int s /\ (-1 <= s <= 1)%Z
              /\ bounds (V m) (rank a) (rank b0) s.

Definition max_values (V : nat -> Z) (moves : list nat) (acc : Z) : Z :=
  fold_left (fun a m => Z.max a (V m)) moves acc.

Definition min_values (V : nat -> Z) (moves : list nat) (acc : Z) : Z :=
  fold_left (fun a m => Z.min a (V m)) moves acc.

(** ** The game and its value *)

Definition symbol (s : string) : Prop := s = "X" \/ s = "O".

(** A 9-cell board over Empty, X and O. *)
Definition valid_board (b : board) : Prop :=
  length b = 9%nat /\ Forall (fun c => c = " " \/ c = "X" \/ c = "O") b.

Definition line_has (b : board) (s : string) (line : nat * nat * nat) : bool :=
  match b !! line.1.1, b !! line.1.2, b !! line.2 with
  | Some x, Some y, Some z => String.eqb x s && String.eqb y s && String.eqb z s
  | _, _, _ => false
  end.

(** [s] has three in a row. *)
Definition wins (b : board) (s : string) : bool :=
  existsb (line_has b s) WIN_LINES.

(** The indices of the Empty cells, in ascending order. *)
Definition empty_cells (b : board) : list nat :=
  List.filter (cell_empty b) (seq 0 (length b)).

(** The best of a non-empty list of values. *)
Definition best_of (pick : Z -> Z -> Z) (vs : list Z) : Z :=
  match vs with
  | [] => 0%Z
  | v :: vs' => fold_left pick vs' v
  end.

(** The game-theoretic value of a position for the player [me], with
    [to_move] to play and both sides playing perfectly from here on:
    [1] if [me] has three in a row, [-1] if the opponent has, [0] on a
    full board; otherwise the best value among the positions one move
    away, the largest if [me] moves and the smallest if the opponent
    does.  [depth] bounds the number of moves looked ahead. *)
Fixpoint game_value (depth : nat) (b : board) (to_move me : string) : Z :=
  if wins b me then 1%Z
  else if wins b (other me) then (-1)%Z
  else
    match empty_cells b, depth with
    | [], _ => 0%Z
    | _, O => 0%Z
    | cells, S d =>
        let vs := map (fun m => game_value d (<[m:=to_move]> b) (other to_move) me)
                      cells in
        if String.eqb to_move me then best_of Z.max vs else best_of Z.min vs
    end.

(** The value of a position: every game is over once the Empty cells
    are used up. *)
Definition position_value (b : board) (to_move me : string) : Z :=
  game_value (length (empty_cells b)) b to_move me.

(** At most one of the two players has three in a row. *)
Definition one_winner (b : board) : Prop :=
  wins b "X" = false \/ wins b "O" = false.

(** ** The driver: candidates with the best score *)

(** The loop of [best_move_for_ai] without its effects, over the
    scores [sc m] of the candidate moves. *)
Fixpoint best_pure (sc : nat -> num) (moves : list nat) (best_score : num)
    (best_moves : list nat) : list nat :=
  match moves with
  | [] => best_moves
  | m :: rest =>
      let score := sc m in
      if num_lt best_score score then best_pure sc rest score [m]
      else if num_eqb score best_score then
        best_pure sc rest best_score (best_moves ++ [m])
      else best_pure sc rest best_score best_moves
  end.

(** The score [minimax(board, other(ai_symbol), ai_symbol)] of the move
    [m], searched on the board with [m] played. *)
Definition move_score (b : board) (ai_symbol : string) (m : nat) : num :=
  score_of (minimax (<[m:=ai_symbol]> b) (other ai_symbol) ai_symbol NInf PInf).

(** The largest score among the moves ([-inf] when there is none). *)
Definition top_score (sc : nat -> num) (moves : list nat) : num :=
  fold_left (fun a m => num_max a (sc m)) moves NInf.

(** The largest of [acc] and the scores of the moves. *)
Definition fold_top (sc : nat -> num) (moves : list nat) (acc : num) : num :=
  fold_left (fun a m => num_max a (sc m)) moves acc.

(** ** Playing the game *)

(** Who moves for a symbol: the AI through [best_move_for_ai], or a
    human, who may enter any Empty cell. *)
Inductive player_type : Type := human | ai.

(** Human vs AI mode: the AI plays every symbol but the human's. *)
Definition against (human_symbol : string) (current : string) : player_type :=
  if String.eqb current human_symbol then human else ai.

(** Self-play, as the scenario of the specification simulates it: the
    loop of [play] with both symbols played by the AI. *)
Definition self_play (current : string) : player_type := ai.

(** One turn of the loop of [play]: [human_turn] writes the symbol into
    an Empty cell of the human's choice out of [range(9)], the AI into
    the cell that [best_move_for_ai] returns for some draw [k] of the
    generator.  The AI plays the symbol whose turn it is: in [play] its
    symbol is the one of every turn that is not the human's. *)
Inductive turn (types : string -> player_type) (b : board) (current : string)
  : board -> Prop :=
| turn_human (m : nat) :
    types current = human -> (m < 9)%nat -> b !! m = Some " " ->
    turn types b current (<[m:=current]> b)
| turn_ai (k m : nat) (b' : board) :
    types current = ai -> best_move_for_ai k b current = (b', Ok m) ->
    turn types b current (<[m:=current]> b').

(** [if winner:] *)
Definition truthy (winner : option string) : bool :=
  match winner with
  | Some w => negb (String.eqb w "")
  | None => false
  end.

(** The loop of [play] from the board [b] with [current] to move, until
    [check_winner] reports the result [w]. *)
Inductive play (types : string -> player_type) : board -> string -> string -> Prop :=
| play_over (b b' : board) (current w : string) :
    turn types b current b' ->
    check_winner b' = Ok (Some w) -> truthy (Some w) = true ->
    play types b current w
| play_on (b b' : board) (current w : string) (winner : option string) :
    turn types b current b' ->
    check_winner b' = Ok winner -> truthy winner = false ->
    play types b' (other current) w ->
    play types b current w.

(** ** Boards of the scenarios *)

Definition scenario_1_board : board :=
  ["X"; "O"; "O"; "X"; "X"; "O"; " "; " "; " "].

Definition scenario_2_board : board :=
  ["X"; "X"; " "; "O"; "O"; " "; " "; " "; " "].

Definition scenario_4_board : board :=
  ["X"; "O"; "X"; "O"; "X"; "O"; "O"; "X"; "O"].

(** A board on which both symbols fill a line; no game reaches it. *)
Definition two_lines_board : board :=
  ["X"; "X"; "X"; "O"; "O"; "O"; " "; " "; " "].


(** * The command-line driver *)

(** ** The console *)

(** The library functions that the driver calls: [str.strip],
    [str.lower], [str.upper], [int] on a string ([None] stands for
    [ValueError]), and the index that the generator draws at its [i]-th
    use for a sequence of length [n]. *)
Record pylib : Type := Pylib {
  py_strip : string -> string;
  py_lower : string -> string;
  py_upper : string -> string;
  py_int : string -> option Z;
  py_randbelow : nat -> nat -> nat
}.

(** What the driver runs in: the board object, the lines still to be
    typed, the chunks written to the terminal so far, and how often the
    generator has been used. *)
Record world : Type := World {
  w_board : list string;
  w_keys : list string;
  w_out : list string;
  w_rolls : nat
}.

(** What stops the driver short of a normal return: [exit(code)], the
    end of the input, or an exception of the core that nothing catches. *)
Inductive stop : Type :=
| SystemExit (code : Z)
| EOFError
| Uncaught (e : exn).

Inductive outcome (A : Type) : Type :=
| Done (a : A)
| Stopped (s : stop)
| Starved.
Arguments Done {A} a.
Arguments Stopped {A} s.
Arguments Starved {A}.

Definition IO (A : Type) : Type := world -> world * outcome A.

Definition io_ret {A : Type} (a : A) : IO A := fun w => (w, Done a).

Definition io_bind {A B : Type} (c : IO A) (k : A -> IO B) : IO B :=
  fun w =>
    match c w with
    | (w', Done a) => k a w'
    | (w', Stopped s) => (w', Stopped s)
    | (w', Starved) => (w', Starved)
    end.

Notation "'io*' x ':=' c 'in' k" := (io_bind c (fun x => k))
  (at level 10, x name, c at level 100, k at level 200).

Definition nl : string := String (Ascii.ascii_of_nat 10) "".

Definition write (chunk : string) (w : world) : world :=
  World (w_board w) (w_keys w) (w_out w ++ [chunk]) (w_rolls w).

(** [print(text)] *)
Definition print (text : string) : IO unit :=
  fun w => (write (String.append text nl) w, Done tt).

(** [input(prompt)]: the prompt is written, then a line is read. *)
Definition input (prompt : string) : IO string :=
  fun w =>
    match w_keys w with
    | [] => (write prompt w, Stopped EOFError)
    | line :: rest =>
        (World (w_board w) rest (w_out w ++ [prompt]) (w_rolls w), Done line)
    end.

(** [exit(code)] *)
Definition exit (code : Z) : IO unit := fun w => (w, Stopped (SystemExit code)).

(** An operation of the core, run on the board object of the driver. *)
Definition on_board {A : Type} (c : M A) : IO A :=
  fun w =>
    match c (w_board w) with
    | (b', r) =>
        (World b' (w_keys w) (w_out w) (w_rolls w),
         match r with
         | Ok a => Done a
         | Raise e => Stopped (Uncaught e)
         | OutOfFuel => Starved
         end)
    end.

(** [s in words], for a tuple of strings. *)
Definition in_words (s : string) (words : list string) : bool :=
  existsb (String.eqb s) words.

(** [str(n)] for a natural number. *)
Definition str (n : nat) : string := NilEmpty.string_of_uint (Nat.to_uint n).

(** ** Rendering the board *)

(** [cell_repr(i)]: the symbol of the cell, or its number for an Empty
    cell. *)
Definition cell_repr (b : board) (i : nat) : res string :=
  match getitem b i with
  | Ok v =>
      if negb (String.eqb v " ") then getitem b i else Ok (str (i + 1))
  | Raise e => Raise e
  | OutOfFuel => OutOfFuel
  end.

Definition row_sep : string :=
  String.append nl (String.append "---+---+---" nl).

(** The f-string of a row, its three cells evaluated left to right. *)
Definition row_text (b : board) (idx : nat) : res string :=
  match cell_repr b idx with
  | Ok c0 =>
      match cell_repr b (idx + 1) with
      | Ok c1 =>
          match cell_repr b (idx + 2) with
          | Ok c2 =>
              Ok (String.concat ""
                    [" "; c0; " | "; c1; " | "; c2; " "])
          | Raise e => Raise e
          | OutOfFuel => OutOfFuel
          end
      | Raise e => Raise e
      | OutOfFuel => OutOfFuel
      end
  | Raise e => Raise e
  | OutOfFuel => OutOfFuel
  end.

(** The loop [for r in range(3)] that collects the rows. *)
Fixpoint rows_text (b : board) (rs : list nat) : res (list string) :=
  match rs with
  | [] => Ok []
  | r :: rest =>
      match row_text b (3 * r) with
      | Ok row =>
          match rows_text b rest with
          | Ok rows => Ok (row :: rows)
          | Raise e => Raise e
          | OutOfFuel => OutOfFuel
          end
      | Raise e => Raise e
      | OutOfFuel => OutOfFuel
      end
  end.

(** The text that [print_board] hands to [print]. *)
Definition board_text (b : board) : res string :=
  match rows_text b (seq 0 3) with
  | Ok rows =>
      Ok (String.append nl (String.append (String.concat row_sep rows) nl))
  | Raise e => Raise e
  | OutOfFuel => OutOfFuel
  end.

Definition print_board : IO unit :=
  io* text := on_board (reading board_text) in
  print text.

(** ** Prompts *)

Section Driver.

Variable py : pylib.

Definition quit_words : list string := ["q"; "quit"; "exit"].

(** The loop of [human_turn]; every iteration reads one line. *)
Fixpoint human_turn_fuel (fuel : nat) (symbol : string) : IO unit :=
  match fuel with
  | O => fun w => (w, Starved)
  | S fuel' =>
      io* line :=
        input (String.concat "" ["Player "; symbol; ", enter your move (1-9): "]) in
      let user := py_strip py line in
      if in_words (py_lower py user) quit_words then
        io* _ := print "Exiting game." in
        exit 0
      else
        match py_int py user with
        | None =>
            io* _ := print "Please enter a number 1-9 (or 'q' to quit)." in
            human_turn_fuel fuel' symbol
        | Some n =>
            let idx := (n - 1)%Z in
            if negb ((0 <=? idx)%Z && (idx <? 9)%Z) then
              io* _ := print "Invalid cell number. Choose 1-9." in
              human_turn_fuel fuel' symbol
            else
              io* v := on_board (reading (fun b => getitem b (Z.to_nat idx))) in
              if negb (String.eqb v " ") then
                io* _ := print "Cell already taken. Pick another." in
                human_turn_fuel fuel' symbol
              else on_board (setitem (Z.to_nat idx) symbol)
        end
  end.

(** [human_turn(board, symbol)]: one line is read per iteration, so
    the loop runs at most once more than there are lines. *)
Definition human_turn (symbol : string) : IO unit :=
  fun w => human_turn_fuel (S (length (w_keys w))) symbol w.

Fixpoint choose_symbol_fuel (fuel : nat) : IO (string * string) :=
  match fuel with
  | O => fun w => (w, Starved)
  | S fuel' =>
      io* line :=
        input "Choose your symbol (X/O). X goes first. [Default X]: " in
      let s := py_upper py (py_strip py line) in
      let s := if String.eqb s "" then "X" else s in
      if in_words s ["X"; "O"] then io_ret (s, other s)
      else
        io* _ := print "Invalid choice; enter X or O." in
        choose_symbol_fuel fuel'
  end.

(** [choose_symbol()]: returns [(human_symbol, ai_symbol)]. *)
Definition choose_symbol : IO (string * string) :=
  fun w => choose_symbol_fuel (S (length (w_keys w))) w.

Fixpoint choose_mode_fuel (fuel : nat) : IO string :=
  match fuel with
  | O => fun w => (w, Starved)
  | S fuel' =>
      io* _ :=
        print (String.concat ""
                 ["Select mode:"; nl; "1) Human vs AI"; nl; "2) Human vs Human"]) in
      io* line := input "Choice [1]: " in
      let ch := py_strip py line in
      if String.eqb ch "" || String.eqb ch "1" then io_ret "hva"
      else if String.eqb ch "2" then io_ret "hvh"
      else
        io* _ := print "Invalid. Enter 1 or 2." in
        choose_mode_fuel fuel'
  end.

Definition choose_mode : IO string :=
  fun w => choose_mode_fuel (S (length (w_keys w))) w.

Fixpoint choose_first_fuel (fuel : nat) (human_symbol : string) : IO string :=
  match fuel with
  | O => fun w => (w, Starved)
  | S fuel' =>
      io* line :=
        input "Who goes first? (H)uman or (A)I. [Default: whoever is X]: " in
      let ch := py_lower py (py_strip py line) in
      if String.eqb ch "" then
        io_ret (if String.eqb human_symbol "X" then "human" else "ai")
      else if in_words ch ["h"; "human"] then io_ret "human"
      else if in_words ch ["a"; "ai"] then io_ret "ai"
      else
        io* _ := print "Enter H for human or A for AI." in
        choose_first_fuel fuel' human_symbol
  end.

(** [choose_first(human_symbol)] *)
Definition choose_first (human_symbol : string) : IO string :=
  fun w => choose_first_fuel (S (length (w_keys w))) human_symbol w.

(** ** The game loops *)

(** [best_move_for_ai(board, ai_symbol)] with the index that the
    generator draws for the candidates; an empty list of candidates
    raises before anything is drawn. *)
Definition ai_move (ai_symbol : string) : IO nat :=
  fun w =>
    match best_moves_for_ai (w_board w) ai_symbol with
    | (_, Ok (m :: l)) =>
        on_board
          (fun b =>
             best_move_for_ai (py_randbelow py (w_rolls w) (length (m :: l)))
               b ai_symbol)
          (World (w_board w) (w_keys w) (w_out w) (S (w_rolls w)))
    | _ => on_board (fun b => best_move_for_ai 0 b ai_symbol) w
    end.

(** The announcement at the end of a game between two humans. *)
Definition result_hvh (winner : string) : string :=
  if String.eqb winner "D" then "It's a draw!"
  else String.concat "" ["Player "; winner; " wins!"].

(** The announcement at the end of a game against the AI. *)
Definition result_hva (ai_symbol winner : string) : string :=
  if String.eqb winner "D" then "It's a draw!"
  else String.concat ""
         [if String.eqb winner ai_symbol then "AI" else "Player";
          " ("; winner; ") wins!"].

(** The loop of the mode Human vs Human. *)
Fixpoint hvh_loop (fuel : nat) (current : string) : IO unit :=
  match fuel with
  | O => fun w => (w, Starved)
  | S fuel' =>
      io* _ := print_board in
      io* _ := human_turn current in
      io* winner := on_board (reading check_winner) in
      match winner with
      | Some w =>
          if truthy winner then
            io* _ := print_board in
            print (result_hvh w)
          else hvh_loop fuel' (other current)
      | None => hvh_loop fuel' (other current)
      end
  end.

(** The turn of the AI in the mode Human vs AI. *)
Definition ai_turn (ai_symbol : string) : IO unit :=
  io* _ := print (String.concat "" ["AI ("; ai_symbol; ") is thinking..."]) in
  io* move := ai_move ai_symbol in
  io* _ := on_board (setitem move ai_symbol) in
  print (String.concat "" ["AI played in cell "; str (move + 1); "."]).

(** The loop of the mode Human vs AI. *)
Fixpoint hva_loop (fuel : nat) (human_symbol ai_symbol current : string)
  : IO unit :=
  match fuel with
  | O => fun w => (w, Starved)
  | S fuel' =>
      io* _ := print_board in
      io* _ :=
        match against human_symbol current with
        | human => human_turn current
        | ai => ai_turn ai_symbol
        end in
      io* winner := on_board (reading check_winner) in
      match winner with
      | Some w =>
          if truthy winner then
            io* _ := print_board in
            print (result_hva ai_symbol w)
          else hva_loop fuel' human_symbol ai_symbol (other current)
      | None => hva_loop fuel' human_symbol ai_symbol (other current)
      end
  end.

(** [board = fresh_board()] *)
Definition new_board : IO unit :=
  fun w => (World fresh_board (w_keys w) (w_out w) (w_rolls w), Done tt).

(** [play()]: every turn of a loop fills a cell of the fresh board, so
    a loop runs at most nine times. *)
Definition play_game : IO unit :=
  io* _ := print "=== Tic-Tac-Toe (CLI) with Unbeatable AI ===" in
  io* mode := choose_mode in
  io* _ := new_board in
  if String.eqb mode "hvh" then hvh_loop 9 "X"
  else
    io* symbols := choose_symbol in
    io* first := choose_first (fst symbols) in
    hva_loop 9 (fst symbols) (snd symbols) "X".

End Driver.

(** ** A library for the examples *)

Definition is_space (c : Ascii.ascii) : bool :=
  let n := Ascii.nat_of_ascii c in
  (n =? 32)%nat || ((9 <=? n)%nat && (n <=? 13)%nat).

Fixpoint lstrip (s : string) : string :=
  match s with
  | String c s' => if is_space c then lstrip s' else s
  | EmptyString => EmptyString
  end.

Fixpoint string_rev (s acc : string) : string :=
  match s with
  | String c s' => string_rev s' (String c acc)
  | EmptyString => acc
  end.

Definition ascii_strip (s : string) : string :=
  string_rev (lstrip (string_rev (lstrip s) "")) "".

Definition ascii_lower_char (c : Ascii.ascii) : Ascii.ascii :=
  let n := Ascii.nat_of_ascii c in
  if (65 <=? n)%nat && (n <=? 90)%nat then Ascii.ascii_of_nat (n + 32) else c.

Definition ascii_upper_char (c : Ascii.ascii) : Ascii.ascii :=
  let n := Ascii.nat_of_ascii c in
  if (97 <=? n)%nat && (n <=? 122)%nat then Ascii.ascii_of_nat (n - 32) else c.

Fixpoint string_map (f : Ascii.ascii -> Ascii.ascii) (s : string) : string :=
  match s with
  | String c s' => String (f c) (string_map f s')
  | EmptyString => EmptyString
  end.

Fixpoint digits_value (s : string) (acc : Z) : option Z :=
  match s with
  | EmptyString => Some acc
  | String c s' =>
      let n := Ascii.nat_of_ascii c in
      if (48 <=? n)%nat && (n <=? 57)%nat then
        digits_value s' (10 * acc + Z.of_nat (n - 48))%Z
      else None
  end.

Definition ascii_int (s : string) : option Z :=
  match s with
  | EmptyString => None
  | String c s' =>
      if (Ascii.nat_of_ascii c =? 45)%nat then
        match s' with
        | EmptyString => None
        | _ => option_map Z.opp (digits_value s' 0)
        end
      else digits_value s 0
  end.

(** The library on ASCII text, with a generator that always draws the
    first index. *)
Definition ascii_lib : pylib :=
  Pylib ascii_strip (string_map ascii_lower_char) (string_map ascii_upper_char)
        ascii_int (fun _ _ => 0%nat).

Definition start (keys : list string) : world := World [] keys [] 0.

(** ** The move that [minimax] returns *)

(** The running best value and the first move that reached it, over
    the true values [V m] of the moves: the maximizing loop replaces
    both on a strictly larger value, the minimizing loop on a strictly
    smaller one. *)
Fixpoint first_max_from (V : nat -> Z) (moves : list nat) (v : Z)
    (best_move : option nat) : Z * option nat :=
  match moves with
  | [] => (v, best_move)
  | m :: rest =>
      if (v <? V m)%Z then first_max_from V rest (V m) (Some m)
      else first_max_from V rest v best_move
  end.

Fixpoint first_min_from (V : nat -> Z) (moves : list nat) (v : Z)
    (best_move : option nat) : Z * option nat :=
  match moves with
  | [] => (v, best_move)
  | m :: rest =>
      if (V m <? v)%Z then first_min_from V rest (V m) (Some m)
      else first_min_from V rest v best_move
  end.

(** The first available move that leads to a position of the same
    value as the position itself. *)
Definition first_optimal (b : board) (p me : string) : option nat :=
  List.find
    (fun m => (position_value (<[m:=p]> b) (other p) me =? position_value b p me)%Z)
    (available_moves b).

(** ** Boards after an exception *)


(** * Proofs *)

(** ** Numbers *)

Lemma num_eqb_eq (a b : num) : num_eqb a b = true <-> a = b.
Proof.
  split.
  - destruct a, b; simpl; intros H; try discriminate; try reflexivity.
    apply Z.eqb_eq in H. now subst.
  - intros ->. destruct b; simpl; try reflexivity. apply Z.eqb_refl.
Qed.

Lemma num_max_NInf_r (a : num) : num_max a NInf = a.
Proof. destruct a; reflexivity. Qed.

Lemma num_min_PInf_r (a : num) : num_min a PInf = a.
Proof. destruct a; reflexivity. Qed.

(** ** The board model *)

Lemma available_from (l : board) (k : nat) :
  map fst (List.filter (fun iv => String.eqb (snd iv) " ") (enumerate_from k l))
  = List.filter (fun i => cell_empty l (i - k)) (seq k (length l)).
Proof.
  revert k. induction l as [|x l IH]; intros k; [reflexivity|].
  simpl. unfold cell_empty at 1. rewrite Nat.sub_diag. simpl.
  assert (Htl : List.filter (fun i => cell_empty (x :: l) (i - k)) (seq (S k) (length l))
                = List.filter (fun i => cell_empty l (i - S k)) (seq (S k) (length l))).
  { apply List.filter_ext_in. intros i Hi. apply in_seq in Hi.
    replace (i - k)%nat with (S (i - S k)) by lia. reflexivity. }
  rewrite Htl, <- IH. destruct (String.eqb x " "); reflexivity.
Qed.

Lemma available_moves_seq (b : board) :
  available_moves b = List.filter (cell_empty b) (seq 0 (length b)).
Proof.
  unfold available_moves, enumerate. rewrite available_from.
  apply List.filter_ext. intros i. now rewrite Nat.sub_0_r.
Qed.

Lemma cell_empty_true (b : board) (i : nat) :
  cell_empty b i = true <-> b !! i = Some " ".
Proof.
  unfold cell_empty. destruct (b !! i) as [v|] eqn:E.
  - rewrite String.eqb_eq. split; congruence.
  - split; discriminate.
Qed.

Lemma In_available (b : board) (m : nat) :
  In m (available_moves b) <-> b !! m = Some " ".
Proof.
  rewrite available_moves_seq, List.filter_In, in_seq, cell_empty_true.
  split; [tauto|]. intros H. split; [|assumption].
  apply lookup_lt_Some in H. lia.
Qed.

Lemma NoDup_available (b : board) : List.NoDup (available_moves b).
Proof. rewrite available_moves_seq. apply List.NoDup_filter, List.seq_NoDup. Qed.

Lemma has_empty_spec (b : board) :
  has_empty b = true <-> exists m, b !! m = Some " ".
Proof.
  unfold has_empty. rewrite List.existsb_exists. split.
  - intros (x & Hin & Hx). apply String.eqb_eq in Hx. subst x.
    apply list_elem_of_In, list_elem_of_lookup in Hin. exact Hin.
  - intros (m & Hm). exists " ". split; [|apply String.eqb_refl].
    apply list_elem_of_In, list_elem_of_lookup. eauto.
Qed.

Lemma has_empty_available (b : board) :
  has_empty b = true <-> available_moves b <> [].
Proof.
  rewrite has_empty_spec. split.
  - intros (m & Hm) E. apply In_available in Hm. rewrite E in Hm. destruct Hm.
  - intros H. destruct (available_moves b) as [|m l] eqn:E; [congruence|].
    exists m. apply In_available. rewrite E. now left.
Qed.

Lemma filter_twice {A : Type} (f g : A -> bool) (l : list A) :
  List.filter f (List.filter g l) = List.filter (fun x => g x && f x) l.
Proof.
  induction l as [|x l IH]; [reflexivity|].
  simpl. destruct (g x); simpl; [destruct (f x)|]; now rewrite IH.
Qed.

Lemma available_insert (b : board) (m : nat) (p : string) :
  p <> " " ->
  available_moves (<[m:=p]> b)
  = List.filter (fun i => negb (i =? m)%nat) (available_moves b).
Proof.
  intros Hp. rewrite !available_moves_seq, length_insert.
  rewrite filter_twice. apply List.filter_ext_in. intros i Hi.
  apply in_seq in Hi. unfold cell_empty.
  destruct (Nat.eqb_spec i m) as [->|Hne].
  - rewrite list_lookup_insert_eq by lia.
    apply String.eqb_neq in Hp. rewrite Hp. now rewrite andb_false_r.
  - rewrite list_lookup_insert_ne by congruence. now rewrite andb_true_r.
Qed.

Lemma length_filter_remove (l : list nat) (m : nat) :
  List.NoDup l -> In m l ->
  S (length (List.filter (fun i => negb (i =? m)%nat) l)) = length l.
Proof.
  induction 1 as [|x l Hx Hnd IH]; intros Hin; [destruct Hin|].
  simpl. destruct (Nat.eqb_spec x m) as [->|Hne]; simpl.
  - f_equal. f_equal. rewrite List.forallb_filter_id; [reflexivity|].
    apply List.forallb_forall. intros y Hy.
    destruct (Nat.eqb_spec y m); [subst; contradiction | reflexivity].
  - f_equal. apply IH. destruct Hin; [contradiction | assumption].
Qed.

(** Writing a symbol into an Empty cell removes exactly one Empty cell. *)
Lemma count_empty_insert (b : board) (m : nat) (p : string) :
  p <> " " -> b !! m = Some " " ->
  S (count_empty (<[m:=p]> b)) = count_empty b.
Proof.
  intros Hp Hm. unfold count_empty. rewrite available_insert by assumption.
  apply length_filter_remove; [apply NoDup_available | now apply In_available].
Qed.

Lemma count_empty_le_length (b : board) : (count_empty b <= length b)%nat.
Proof.
  unfold count_empty. rewrite available_moves_seq.
  etransitivity; [apply List.filter_length_le|]. now rewrite length_seq.
Qed.

Lemma other_not_empty (p : string) : other p <> " ".
Proof. unfold other. destruct (String.eqb p "X"); discriminate. Qed.

(** *** Win lines and the verdict of [check_winner] *)

Lemma line_filled_spec (b : board) (line : nat * nat * nat) :
  line_filled b line = true <-> exists s, filled_with b s line.
Proof.
  unfold line_filled, filled_with. destruct line as [[i j] k]; simpl. split.
  - destruct (b !! i) as [x|], (b !! j) as [y|], (b !! k) as [z|];
      try discriminate.
    rewrite !andb_true_iff, negb_true_iff, !String.eqb_eq, String.eqb_neq.
    intros [[Hx ->] ->]. exists z. auto.
  - intros (s & Hs & -> & -> & ->). apply String.eqb_neq in Hs.
    now rewrite Hs, String.eqb_refl.
Qed.

Lemma getitem_in_range (b : board) (i : nat) :
  (i < length b)%nat -> exists v, b !! i = Some v /\ getitem b i = Ok v.
Proof.
  intros H. destruct (lookup_lt_is_Some_2 b i H) as [v Hv].
  exists v. unfold getitem. now rewrite Hv.
Qed.

Lemma line_test_in_range (b : board) (line : nat * nat * nat) :
  in_range b line -> line_test b line = Ok (line_filled b line).
Proof.
  destruct line as [[i j] k]. unfold in_range, line_test, line_filled. simpl.
  intros (Hi & Hj & Hk).
  destruct (getitem_in_range b i Hi) as (x & Ex & ->).
  destruct (getitem_in_range b j Hj) as (y & Ey & ->).
  destruct (getitem_in_range b k Hk) as (z & Ez & ->).
  rewrite Ex, Ey, Ez.
  destruct (String.eqb x " "); simpl; [reflexivity|].
  destruct (String.eqb x y); reflexivity.
Qed.

Lemma check_lines_verdict (b : board) (lines : list (nat * nat * nat)) :
  Forall (in_range b) lines -> check_lines b lines = Ok (verdict b lines).
Proof.
  unfold verdict. induction 1 as [|line lines Hr _ IH]; simpl.
  - destruct (has_empty b); reflexivity.
  - rewrite (line_test_in_range b line Hr).
    destruct (line_filled b line); [|exact IH].
    destruct Hr as (Hi & _). destruct (getitem_in_range b _ Hi) as (v & Ev & ->).
    now rewrite Ev.
Qed.

Lemma win_lines_in_range (b : board) :
  (9 <= length b)%nat -> Forall (in_range b) WIN_LINES.
Proof.
  intros H. unfold WIN_LINES, in_range.
  repeat (apply Forall_cons; split; [simpl; lia|]). apply Forall_nil. exact I.
Qed.

Lemma check_winner_verdict (b : board) :
  (9 <= length b)%nat -> check_winner b = Ok (verdict b WIN_LINES).
Proof. intros H. apply check_lines_verdict, win_lines_in_range, H. Qed.

Lemma find_first {A : Type} (f : A -> bool) (l : list A) (x : A) :
  List.find f l = Some x <->
  exists pre post, l = pre ++ x :: post /\ f x = true
                   /\ (forall y, In y pre -> f y = false).
Proof.
  induction l as [|a l IH]; simpl.
  - split; [discriminate|]. intros (pre & post & E & _). now destruct pre.
  - destruct (f a) eqn:Fa.
    + split.
      * intros [= ->]. exists [], l. repeat split; [assumption|]. intros y [].
      * intros (pre & post & E & Fx & Hpre). destruct pre as [|y pre].
        -- injection E as -> _. reflexivity.
        -- injection E as -> _. rewrite (Hpre y) in Fa; [discriminate|now left].
    + rewrite IH. split.
      * intros (pre & post & -> & Fx & Hpre). exists (a :: pre), post.
        repeat split; [assumption|]. intros y [<-|Hy]; auto.
      * intros (pre & post & E & Fx & Hpre). destruct pre as [|y pre].
        -- injection E as -> _. congruence.
        -- injection E as -> ->. exists pre, post.
           repeat split; [assumption|]. intros z Hz. apply Hpre. now right.
Qed.

Lemma find_none_iff {A : Type} (f : A -> bool) (l : list A) :
  List.find f l = None <-> forall y, In y l -> f y = false.
Proof.
  split; [apply List.find_none|].
  induction l as [|a l IH]; simpl; [reflexivity|]. intros H.
  rewrite (H a) by now left. apply IH. intros y Hy. apply H. now right.
Qed.

Lemma no_line_won_find (b : board) :
  List.find (line_filled b) WIN_LINES = None <-> no_line_won b.
Proof.
  rewrite find_none_iff. unfold no_line_won. split.
  - intros H line s Hin Hf. specialize (H line Hin).
    rewrite (proj2 (line_filled_spec b line)) in H; [discriminate | eauto].
  - intros H line Hin. destruct (line_filled b line) eqn:E; [|reflexivity].
    apply line_filled_spec in E as (s & Hs). destruct (H line s Hin Hs).
Qed.

Lemma verdict_win (b : board) (s : string) :
  s <> "D" ->
  verdict b WIN_LINES = Some s <-> first_filled_with b s.
Proof.
  intros HD. unfold verdict, first_filled_with.
  destruct (List.find (line_filled b) WIN_LINES) as [line|] eqn:E.
  - pose proof E as E'. apply find_first in E as (pre & post & EW & Hf & Hpre).
    apply line_filled_spec in Hf as (s0 & Hs0). split.
    + intros Hs. exists pre, line, post.
      assert (s0 = s) as -> by (destruct Hs0 as (_ & H1 & _); congruence).
      split; [assumption|]. split; [assumption|].
      intros l s' Hl Hfs. specialize (Hpre l Hl).
      rewrite (proj2 (line_filled_spec b l)) in Hpre; [discriminate|eauto].
    + intros (pre' & line' & post' & EW' & Hs & Hpre').
      assert (List.find (line_filled b) WIN_LINES = Some line') as E2.
      { apply find_first. exists pre', post'. repeat split; try assumption.
        - apply line_filled_spec. eauto.
        - intros y Hy. destruct (line_filled b y) eqn:Ey; [|reflexivity].
          apply line_filled_spec in Ey as (s' & Hs'). destruct (Hpre' y s' Hy Hs'). }
      rewrite E' in E2. injection E2 as ->. now destruct Hs as (_ & ? & _).
  - split.
    + destruct (has_empty b); [discriminate|]. intros [= <-]. now destruct HD.
    + intros (pre & line & post & EW & Hs & _).
      apply no_line_won_find in E. destruct (E line s); [|assumption].
      rewrite EW. apply in_app_iff. right. now left.
Qed.

(** ** The backtracking step: write, recurse, erase *)

Lemma setitem_in_range (m : nat) (v : string) (b : board) :
  (m < length b)%nat -> setitem m v b = (<[m:=v]> b, Ok tt).
Proof.
  intros H. unfold setitem. apply Nat.ltb_lt in H. now rewrite H.
Qed.

Lemma erase_restores (b : board) (m : nat) (p : string) :
  b !! m = Some " " -> <[m:=" "]> (<[m:=p]> b) = b.
Proof. intros H. rewrite list_insert_insert_eq. now apply list_insert_id. Qed.

Lemma trial_returns {A B : Type} (m : nat) (p : string) (c : M A)
    (k : A -> M B) (b : board) (r : A) :
  b !! m = Some " " ->
  c (<[m:=p]> b) = (<[m:=p]> b, Ok r) ->
  trial m p c k b = k r b.
Proof.
  intros Hm Hc. pose proof (lookup_lt_Some _ _ _ Hm) as Hlt.
  unfold trial, bind. rewrite setitem_in_range by assumption. rewrite Hc.
  rewrite setitem_in_range by (now rewrite length_insert).
  now rewrite erase_restores.
Qed.

(** What a trial can do when the recursive call is only known to be
    restoring. *)
Lemma trial_cases {A B : Type} (m : nat) (p : string) (c : M A)
    (k : A -> M B) (b : board) :
  b !! m = Some " " -> restoring c ->
  (exists r, c (<[m:=p]> b) = (<[m:=p]> b, Ok r) /\ trial m p c k b = k r b)
  \/ (exists b', (trial m p c k b = (b', OutOfFuel)
                  \/ exists e, trial m p c k b = (b', Raise e))).
Proof.
  intros Hm Hc. destruct (c (<[m:=p]> b)) as [b1 [r| e |]] eqn:E.
  - apply Hc in E as E'. subst b1. left. exists r. split; [reflexivity|].
    now apply trial_returns.
  - right. exists b1. right. exists e.
    pose proof (lookup_lt_Some _ _ _ Hm) as Hlt.
    unfold trial, bind. rewrite setitem_in_range by assumption. now rewrite E.
  - right. exists b1. left.
    pose proof (lookup_lt_Some _ _ _ Hm) as Hlt.
    unfold trial, bind. rewrite setitem_in_range by assumption. now rewrite E.
Qed.

Lemma max_loop_unfold recur p m rest value best_move alpha beta :
  max_loop recur p (m :: rest) value best_move alpha beta
  = trial m p (recur alpha beta) (fun r =>
      let score := fst r in
      let value' := if num_lt value score then score else value in
      let best_move' := if num_lt value score then Some m else best_move in
      let alpha' := num_max alpha value' in
      if num_le beta alpha' then ret (value', best_move')
      else max_loop recur p rest value' best_move' alpha' beta).
Proof. reflexivity. Qed.

Lemma min_loop_unfold recur p m rest value best_move alpha beta :
  min_loop recur p (m :: rest) value best_move alpha beta
  = trial m p (recur alpha beta) (fun r =>
      let score := fst r in
      let value' := if num_lt score value then score else value in
      let best_move' := if num_lt score value then Some m else best_move in
      let beta' := num_min beta value' in
      if num_le beta' alpha then ret (value', best_move')
      else min_loop recur p rest value' best_move' alpha beta').
Proof. reflexivity. Qed.

Lemma best_loop_unfold ai m rest best_score best_moves :
  best_loop ai (m :: rest) best_score best_moves
  = trial m ai (fun b => minimax b (other ai) ai NInf PInf) (fun r =>
      let score := fst r in
      if num_lt best_score score then best_loop ai rest score [m]
      else if num_eqb score best_score then
        best_loop ai rest best_score (best_moves ++ [m])
      else best_loop ai rest best_score best_moves).
Proof. reflexivity. Qed.

(** ** Board restoration, for every board *)

Lemma max_loop_restoring recur p moves value best_move alpha beta b b' r :
  (forall a b0, restoring (recur a b0)) ->
  Forall (fun m => b !! m = Some " ") moves ->
  max_loop recur p moves value best_move alpha beta b = (b', Ok r) -> b' = b.
Proof.
  intros Hrec Hmoves. revert value best_move alpha.
  induction Hmoves as [|m rest Hm _ IH]; intros value best_move alpha.
  - intros [= <- _]. reflexivity.
  - rewrite max_loop_unfold.
    destruct (trial_cases m p (recur alpha beta)
                (fun r =>
                   let score := fst r in
                   let value' := if num_lt value score then score else value in
                   let best_move' :=
                     if num_lt value score then Some m else best_move in
                   let alpha' := num_max alpha value' in
                   if num_le beta alpha' then ret (value', best_move')
                   else max_loop recur p rest value' best_move' alpha' beta)
                b Hm (Hrec alpha beta))
      as [(r1 & _ & ->) | (b1 & [-> | (e & ->)])]; try discriminate.
    cbv zeta. destruct (num_le beta _).
    + intros [= <- _]. reflexivity.
    + apply IH.
Qed.

Lemma min_loop_restoring recur p moves value best_move alpha beta b b' r :
  (forall a b0, restoring (recur a b0)) ->
  Forall (fun m => b !! m = Some " ") moves ->
  min_loop recur p moves value best_move alpha beta b = (b', Ok r) -> b' = b.
Proof.
  intros Hrec Hmoves. revert value best_move beta.
  induction Hmoves as [|m rest Hm _ IH]; intros value best_move beta.
  - intros [= <- _]. reflexivity.
  - rewrite min_loop_unfold.
    destruct (trial_cases m p (recur alpha beta)
                (fun r =>
                   let score := fst r in
                   let value' := if num_lt score value then score else value in
                   let best_move' :=
                     if num_lt score value then Some m else best_move in
                   let beta' := num_min beta value' in
                   if num_le beta' alpha then ret (value', best_move')
                   else min_loop recur p rest value' best_move' alpha beta')
                b Hm (Hrec alpha beta))
      as [(r1 & _ & ->) | (b1 & [-> | (e & ->)])]; try discriminate.
    cbv zeta. destruct (num_le _ alpha).
    + intros [= <- _]. reflexivity.
    + apply IH.
Qed.

Lemma Forall_available (b : board) :
  Forall (fun m => b !! m = Some " ") (available_moves b).
Proof. apply List.Forall_forall. intros m. apply In_available. Qed.

Lemma minimax_fuel_restoring fuel p mp alpha beta :
  restoring (minimax_fuel fuel p mp alpha beta).
Proof.
  revert p alpha beta. induction fuel as [|fuel IH]; intros p alpha beta b b' r.
  - simpl. destruct (check_winner b) as [[w|]| |]; intros [= <- _]; reflexivity.
  - simpl. destruct (check_winner b) as [[w|]| |]; try (intros [= <- _]; reflexivity).
    destruct (String.eqb p mp).
    + apply max_loop_restoring; [intros; apply IH | apply Forall_available].
    + apply min_loop_restoring; [intros; apply IH | apply Forall_available].
Qed.

Lemma minimax_restoring p mp alpha beta :
  restoring (fun b => minimax b p mp alpha beta).
Proof. intros b b' r. apply minimax_fuel_restoring. Qed.

Lemma best_loop_restoring ai moves best_score best_moves b b' r :
  Forall (fun m => b !! m = Some " ") moves ->
  best_loop ai moves best_score best_moves b = (b', Ok r) -> b' = b.
Proof.
  intros Hmoves. revert best_score best_moves.
  induction Hmoves as [|m rest Hm _ IH]; intros best_score best_moves.
  - intros [= <- _]. reflexivity.
  - rewrite best_loop_unfold.
    destruct (trial_cases m ai (fun b => minimax b (other ai) ai NInf PInf)
                (fun r =>
                   let score := fst r in
                   if num_lt best_score score then best_loop ai rest score [m]
                   else if num_eqb score best_score then
                          best_loop ai rest best_score (best_moves ++ [m])
                        else best_loop ai rest best_score best_moves)
                b Hm (minimax_restoring (other ai) ai NInf PInf))
      as [(r1 & _ & ->) | (b1 & [-> | (e & ->)])]; try discriminate.
    cbv zeta. destruct (num_lt best_score _); [|destruct (num_eqb _ _)]; apply IH.
Qed.

(** ** The loops without their effects *)

Lemma returns_scores_tail recur p b sc m rest :
  returns_scores recur p b sc (m :: rest) -> returns_scores recur p b sc rest.
Proof. intros H m' Hm'. apply H. now right. Qed.

Lemma max_loop_pure recur p sc moves b :
  Forall (fun m => b !! m = Some " ") moves ->
  returns_scores recur p b sc moves ->
  forall value best_move alpha beta,
    max_loop recur p moves value best_move alpha beta b
    = (b, Ok (max_pure sc moves value best_move alpha beta)).
Proof.
  induction 1 as [|m rest Hm _ IH]; intros Hsc value best_move alpha beta.
  - reflexivity.
  - rewrite max_loop_unfold.
    destruct (Hsc m (or_introl eq_refl) alpha beta) as [mv Hr].
    rewrite (trial_returns _ _ _ _ _ _ Hm Hr). cbn [fst max_pure].
    destruct (num_le beta _); [reflexivity|].
    apply IH. eapply returns_scores_tail, Hsc.
Qed.

Lemma min_loop_pure recur p sc moves b :
  Forall (fun m => b !! m = Some " ") moves ->
  returns_scores recur p b sc moves ->
  forall value best_move alpha beta,
    min_loop recur p moves value best_move alpha beta b
    = (b, Ok (min_pure sc moves value best_move alpha beta)).
Proof.
  induction 1 as [|m rest Hm _ IH]; intros Hsc value best_move alpha beta.
  - reflexivity.
  - rewrite min_loop_unfold.
    destruct (Hsc m (or_introl eq_refl) alpha beta) as [mv Hr].
    rewrite (trial_returns _ _ _ _ _ _ Hm Hr). cbn [fst min_pure].
    destruct (num_le _ alpha); [reflexivity|].
    apply IH. eapply returns_scores_tail, Hsc.
Qed.

Lemma max_pure_settled sc cells moves :
  scores_in_range sc moves -> incl moves cells ->
  forall value best_move alpha beta,
    settled cells (value, best_move) ->
    settled cells (max_pure sc moves value best_move alpha beta).
Proof.
  induction moves as [|m rest IH]; intros Hsc Hin value best_move alpha beta Hv.
  - exact Hv.
  - cbn [max_pure].
    assert (settled cells
              (if num_lt value (sc m alpha beta) then sc m alpha beta else value,
               if num_lt value (sc m alpha beta) then Some m else best_move)) as Hv'.
    { destruct (num_lt value (sc m alpha beta)); [|exact Hv]. split.
      - apply Hsc. now left.
      - exists m. split; [reflexivity|]. apply Hin. now left. }
    destruct (num_le beta _); [exact Hv'|].
    apply IH; [intros m' Hm'; apply Hsc; now right | | exact Hv'].
    intros m' Hm'. apply Hin. now right.
Qed.

Lemma max_pure_first sc cells m rest best_move alpha beta :
  scores_in_range sc (m :: rest) -> incl (m :: rest) cells ->
  settled cells (max_pure sc (m :: rest) NInf best_move alpha beta).
Proof.
  intros Hsc Hin. cbn [max_pure].
  destruct (Hsc m (or_introl eq_refl) alpha beta) as (s & Es & Hs).
  rewrite Es. cbn [num_lt].
  assert (settled cells (Int s, Some m)) as Hv.
  { split; [exists s; auto|]. exists m. split; [reflexivity|]. apply Hin. now left. }
  destruct (num_le beta _); [exact Hv|].
  apply max_pure_settled; [intros m' Hm'; apply Hsc; now right | | exact Hv].
  intros m' Hm'. apply Hin. now right.
Qed.

Lemma min_pure_settled sc cells moves :
  scores_in_range sc moves -> incl moves cells ->
  forall value best_move alpha beta,
    settled cells (value, best_move) ->
    settled cells (min_pure sc moves value best_move alpha beta).
Proof.
  induction moves as [|m rest IH]; intros Hsc Hin value best_move alpha beta Hv.
  - exact Hv.
  - cbn [min_pure].
    assert (settled cells
              (if num_lt (sc m alpha beta) value then sc m alpha beta else value,
               if num_lt (sc m alpha beta) value then Some m else best_move)) as Hv'.
    { destruct (num_lt (sc m alpha beta) value); [|exact Hv]. split.
      - apply Hsc. now left.
      - exists m. split; [reflexivity|]. apply Hin. now left. }
    destruct (num_le _ alpha); [exact Hv'|].
    apply IH; [intros m' Hm'; apply Hsc; now right | | exact Hv'].
    intros m' Hm'. apply Hin. now right.
Qed.

Lemma min_pure_first sc cells m rest best_move alpha beta :
  scores_in_range sc (m :: rest) -> incl (m :: rest) cells ->
  settled cells (min_pure sc (m :: rest) PInf best_move alpha beta).
Proof.
  intros Hsc Hin. cbn [min_pure].
  destruct (Hsc m (or_introl eq_refl) alpha beta) as (s & Es & Hs).
  rewrite Es. cbn [num_lt].
  assert (settled cells (Int s, Some m)) as Hv.
  { split; [exists s; auto|]. exists m. split; [reflexivity|]. apply Hin. now left. }
  destruct (num_le _ alpha); [exact Hv|].
  apply min_pure_settled; [intros m' Hm'; apply Hsc; now right | | exact Hv].
  intros m' Hm'. apply Hin. now right.
Qed.

(** ** The search returns, with a score and a move *)

Lemma terminal_answer_score (w mp : string) :
  is_score (fst (terminal_answer w mp)) /\ snd (terminal_answer w mp) = None.
Proof.
  unfold terminal_answer.
  destruct (String.eqb w "D"); [|destruct (String.eqb w mp)]; simpl;
    (split; [eexists; split; [reflexivity | lia] | reflexivity]).
Qed.

Lemma verdict_none_moves (b : board) :
  verdict b WIN_LINES = None -> available_moves b <> [].
Proof.
  unfold verdict. destruct (List.find _ _) as [line|] eqn:E.
  - apply find_first in E as (_ & _ & _ & Hf & _).
    apply line_filled_spec in Hf as (s & _ & Hs & _). congruence.
  - destruct (has_empty b) eqn:He; [|discriminate].
    intros _. now apply has_empty_available.
Qed.

Lemma minimax_fuel_good (fuel : nat) :
  forall p mp alpha beta b,
    (9 <= length b)%nat -> p <> " " -> (count_empty b <= fuel)%nat ->
    good_answer b (minimax_fuel fuel p mp alpha beta b).
Proof.
  induction fuel as [|fuel IH]; intros p mp alpha beta b Hlen Hp Hfuel.
  - unfold good_answer. simpl. rewrite (check_winner_verdict b Hlen).
    destruct (verdict b WIN_LINES) as [w|] eqn:Ev.
    + eexists. split; [reflexivity|]. apply terminal_answer_score.
    + apply verdict_none_moves in Ev. unfold count_empty in Hfuel.
      destruct (available_moves b); [congruence | simpl in Hfuel; lia].
  - unfold good_answer. simpl. rewrite (check_winner_verdict b Hlen).
    destruct (verdict b WIN_LINES) as [w|] eqn:Ev.
    + eexists. split; [reflexivity|]. apply terminal_answer_score.
    + assert (returns_scores (minimax_fuel fuel (other p) mp) p b
                (child_score fuel p mp b) (available_moves b)
              /\ scores_in_range (child_score fuel p mp b) (available_moves b))
        as [Hret Hrange].
      { split; intros m Hm a b0; apply In_available in Hm;
          destruct (IH (other p) mp a b0 (<[m:=p]> b)) as (ans & E & Hs & _);
          try (rewrite length_insert; lia); try apply other_not_empty;
          try (pose proof (count_empty_insert b m p Hp Hm); lia);
          unfold child_score; rewrite E; simpl.
        - exists (snd ans). now destruct ans.
        - exact Hs. }
      pose proof (verdict_none_moves b Ev) as Hne.
      destruct (String.eqb p mp).
      * rewrite (max_loop_pure _ _ _ _ _ (Forall_available b) Hret).
        eexists. split; [reflexivity|].
        destruct (available_moves b) as [|m rest] eqn:Em; [congruence|].
        destruct (max_pure_first (child_score fuel p mp b) (m :: rest) m rest
                    None alpha beta Hrange (incl_refl _)) as (Hs & m' & E' & Hin).
        split; [exact Hs|]. exists m'. split; [exact E'|].
        apply In_available. now rewrite Em.
      * rewrite (min_loop_pure _ _ _ _ _ (Forall_available b) Hret).
        eexists. split; [reflexivity|].
        destruct (available_moves b) as [|m rest] eqn:Em; [congruence|].
        destruct (min_pure_first (child_score fuel p mp b) (m :: rest) m rest
                    None alpha beta Hrange (incl_refl _)) as (Hs & m' & E' & Hin).
        split; [exact Hs|]. exists m'. split; [exact E'|].
        apply In_available. now rewrite Em.
Qed.

(** ** The loops consult the recursion only on the boards they build *)

Lemma max_loop_local recur recur' p moves b :
  Forall (fun m => b !! m = Some " ") moves ->
  (forall m, In m moves -> forall a b0,
      recur a b0 (<[m:=p]> b) = recur' a b0 (<[m:=p]> b)) ->
  (forall a b0, restoring (recur a b0)) ->
  forall value best_move alpha beta,
    max_loop recur p moves value best_move alpha beta b
    = max_loop recur' p moves value best_move alpha beta b.
Proof.
  induction 1 as [|m rest Hm _ IH]; intros Hagree Hrest value best_move alpha beta.
  - reflexivity.
  - pose proof (lookup_lt_Some _ _ _ Hm) as Hlt.
    rewrite !max_loop_unfold. unfold trial, bind.
    rewrite setitem_in_range by assumption.
    rewrite <- (Hagree m (or_introl eq_refl)).
    destruct (recur alpha beta (<[m:=p]> b)) as [b1 [r| e |]] eqn:E;
      try reflexivity.
    apply Hrest in E. subst b1.
    rewrite setitem_in_range by (now rewrite length_insert).
    rewrite erase_restores by assumption. cbv zeta.
    destruct (num_le beta _); [reflexivity|].
    apply IH; [|assumption]. intros m' Hm'. apply Hagree. now right.
Qed.

Lemma min_loop_local recur recur' p moves b :
  Forall (fun m => b !! m = Some " ") moves ->
  (forall m, In m moves -> forall a b0,
      recur a b0 (<[m:=p]> b) = recur' a b0 (<[m:=p]> b)) ->
  (forall a b0, restoring (recur a b0)) ->
  forall value best_move alpha beta,
    min_loop recur p moves value best_move alpha beta b
    = min_loop recur' p moves value best_move alpha beta b.
Proof.
  induction 1 as [|m rest Hm _ IH]; intros Hagree Hrest value best_move alpha beta.
  - reflexivity.
  - pose proof (lookup_lt_Some _ _ _ Hm) as Hlt.
    rewrite !min_loop_unfold. unfold trial, bind.
    rewrite setitem_in_range by assumption.
    rewrite <- (Hagree m (or_introl eq_refl)).
    destruct (recur alpha beta (<[m:=p]> b)) as [b1 [r| e |]] eqn:E;
      try reflexivity.
    apply Hrest in E. subst b1.
    rewrite setitem_in_range by (now rewrite length_insert).
    rewrite erase_restores by assumption. cbv zeta.
    destruct (num_le _ alpha); [reflexivity|].
    apply IH; [|assumption]. intros m' Hm'. apply Hagree. now right.
Qed.

(** More fuel than Empty cells changes nothing. *)
Lemma minimax_fuel_stable (fuel : nat) :
  forall p mp alpha beta b,
    (9 <= length b)%nat -> p <> " " -> (count_empty b <= fuel)%nat ->
    minimax_fuel fuel p mp alpha beta b
    = minimax_fuel (count_empty b) p mp alpha beta b.
Proof.
  induction fuel as [|fuel IH]; intros p mp alpha beta b Hlen Hp Hfuel.
  - now replace (count_empty b) with 0%nat by lia.
  - destruct (count_empty b) as [|k] eqn:Ek.
    + simpl. rewrite (check_winner_verdict b Hlen).
      destruct (verdict b WIN_LINES) as [w|] eqn:Ev; [reflexivity|].
      apply verdict_none_moves in Ev. unfold count_empty in Ek.
      destruct (available_moves b); [congruence | discriminate].
    + simpl. destruct (check_winner b) as [[w|]| |]; try reflexivity.
      assert (forall m, In m (available_moves b) -> forall a b0,
                 minimax_fuel fuel (other p) mp a b0 (<[m:=p]> b)
                 = minimax_fuel k (other p) mp a b0 (<[m:=p]> b)) as Hagree.
      { intros m Hm a b0. apply In_available in Hm.
        pose proof (count_empty_insert b m p Hp Hm) as Hc.
        rewrite IH; [f_equal; lia | now rewrite length_insert
                    | apply other_not_empty | lia]. }
      destruct (String.eqb p mp).
      * apply max_loop_local; [apply Forall_available | exact Hagree |].
        intros a b0. apply minimax_fuel_restoring.
      * apply min_loop_local; [apply Forall_available | exact Hagree |].
        intros a b0. apply minimax_fuel_restoring.
Qed.

(** ** Alpha-beta pruning *)

Lemma bounded_rank a : bounded a -> (-2 <= rank a <= 2)%Z.
Proof. destruct a; simpl; lia. Qed.

Lemma rank_inj a b : bounded a -> bounded b -> rank a = rank b -> a = b.
Proof. destruct a, b; simpl; intros; try lia; congruence. Qed.

Lemma num_lt_rank a b :
  bounded a -> bounded b -> num_lt a b = (rank a <? rank b)%Z.
Proof.
  destruct a, b; simpl; intros; try reflexivity;
    symmetry; try (apply Z.ltb_lt; lia); apply Z.ltb_ge; lia.
Qed.

Lemma num_le_rank a b :
  bounded a -> bounded b -> num_le a b = (rank a <=? rank b)%Z.
Proof.
  intros Ha Hb. unfold num_le. rewrite num_lt_rank by assumption.
  now rewrite Z.leb_antisym.
Qed.

Lemma rank_num_max a b :
  bounded a -> bounded b -> rank (num_max a b) = Z.max (rank a) (rank b).
Proof.
  intros Ha Hb. unfold num_max. rewrite num_lt_rank by assumption.
  destruct (Z.ltb_spec (rank a) (rank b)); lia.
Qed.

Lemma rank_num_min a b :
  bounded a -> bounded b -> rank (num_min a b) = Z.min (rank a) (rank b).
Proof.
  intros Ha Hb. unfold num_min. rewrite num_lt_rank by assumption.
  destruct (Z.ltb_spec (rank b) (rank a)); lia.
Qed.

Lemma bounded_num_max a b : bounded a -> bounded b -> bounded (num_max a b).
Proof. intros Ha Hb. unfold num_max. now destruct (num_lt a b). Qed.

Lemma bounded_num_min a b : bounded a -> bounded b -> bounded (num_min a b).
Proof. intros Ha Hb. unfold num_min. now destruct (num_lt b a). Qed.

Lemma num_max_absorb a b c :
  bounded a -> bounded b -> bounded c ->
  num_max (num_max a b) (num_max b c) = num_max a (num_max b c).
Proof.
  intros Ha Hb Hc. apply rank_inj; repeat apply bounded_num_max; try assumption.
  rewrite !rank_num_max by (repeat apply bounded_num_max; assumption). lia.
Qed.

Lemma num_min_absorb a b c :
  bounded a -> bounded b -> bounded c ->
  num_min (num_min a b) (num_min b c) = num_min a (num_min b c).
Proof.
  intros Ha Hb Hc. apply rank_inj; repeat apply bounded_num_min; try assumption.
  rewrite !rank_num_min by (repeat apply bounded_num_min; assumption). lia.
Qed.

Lemma max_values_ge V moves acc : (acc <= max_values V moves acc)%Z.
Proof.
  revert acc. induction moves as [|m rest IH]; intros acc; simpl; [lia|].
  specialize (IH (Z.max acc (V m))). unfold max_values in *. lia.
Qed.

Lemma min_values_le V moves acc : (min_values V moves acc <= acc)%Z.
Proof.
  revert acc. induction moves as [|m rest IH]; intros acc; simpl; [lia|].
  specialize (IH (Z.min acc (V m))). unfold min_values in *. lia.
Qed.

Lemma max_pure_bounds sc V moves :
  exact_in_window sc V moves ->
  forall value best_move alpha0 beta acc,
    bounded value -> bounded alpha0 -> bounded beta ->
    (Z.max (rank alpha0) (rank value) < rank beta)%Z ->
    (acc <= Z.max (rank alpha0) (rank value))%Z ->
    (rank alpha0 < acc -> rank value = acc)%Z ->
    (acc <= rank alpha0 -> rank value <= rank alpha0)%Z ->
    let r := fst (max_pure sc moves value best_move (num_max alpha0 value) beta) in
    bounded r
    /\ bounds (max_values V moves acc) (rank alpha0) (rank beta) (rank r).
Proof.
  induction moves as [|m rest IH];
    intros Hsc value best_move alpha0 beta acc Bv Ba Bb Hwin Hacc Hex Hlow.
  - simpl. unfold bounds. split; [assumption | lia].
  - cbn [max_pure max_values fold_left].
    fold (max_values V rest (Z.max acc (V m))).
    pose proof (bounded_num_max _ _ Ba Bv) as Bav.
    destruct (Hsc m (or_introl eq_refl) (num_max alpha0 value) beta Bav Bb)
      as (s & Es & Hs & Hb); [rewrite rank_num_max by assumption; lia|].
    rewrite Es. rewrite rank_num_max in Hb by assumption.
    change (if num_lt value (Int s) then Int s else value)
      with (num_max value (Int s)).
    assert (bounded (Int s)) as Bs by exact Hs.
    pose proof (bounded_num_max _ _ Bv Bs) as Bv'.
    rewrite num_max_absorb by assumption.
    pose proof (rank_num_max _ _ Bv Bs) as Ev'. simpl rank in Ev'.
    rewrite num_le_rank by (try apply bounded_num_max; assumption).
    rewrite rank_num_max by assumption.
    destruct (Z.leb_spec (rank beta) (Z.max (rank alpha0) (rank (num_max value (Int s))))).
    + cbn [fst]. split; [assumption|].
      pose proof (max_values_ge V rest (Z.max acc (V m))).
      unfold bounds in *. lia.
    + apply IH; try assumption; unfold bounds in *; try lia.
      intros m' Hm'. apply Hsc. now right.
Qed.

Lemma min_pure_bounds sc V moves :
  exact_in_window sc V moves ->
  forall value best_move alpha beta0 acc,
    bounded value -> bounded alpha -> bounded beta0 ->
    (rank alpha < Z.min (rank beta0) (rank value))%Z ->
    (Z.min (rank beta0) (rank value) <= acc)%Z ->
    (acc < rank beta0 -> rank value = acc)%Z ->
    (rank beta0 <= acc -> rank beta0 <= rank value)%Z ->
    let r := fst (min_pure sc moves value best_move alpha (num_min beta0 value)) in
    bounded r
    /\ bounds (min_values V moves acc) (rank alpha) (rank beta0) (rank r).
Proof.
  induction moves as [|m rest IH];
    intros Hsc value best_move alpha beta0 acc Bv Ba Bb Hwin Hacc Hex Hlow.
  - simpl. unfold bounds. split; [assumption | lia].
  - cbn [min_pure min_values fold_left].
    fold (min_values V rest (Z.min acc (V m))).
    pose proof (bounded_num_min _ _ Bb Bv) as Bbv.
    destruct (Hsc m (or_introl eq_refl) alpha (num_min beta0 value) Ba Bbv)
      as (s & Es & Hs & Hb); [rewrite rank_num_min by assumption; lia|].
    rewrite Es. rewrite rank_num_min in Hb by assumption.
    change (if num_lt (Int s) value then Int s else value)
      with (num_min value (Int s)).
    assert (bounded (Int s)) as Bs by exact Hs.
    pose proof (bounded_num_min _ _ Bv Bs) as Bv'.
    rewrite num_min_absorb by assumption.
    pose proof (rank_num_min _ _ Bv Bs) as Ev'. simpl rank in Ev'.
    rewrite num_le_rank by (try apply bounded_num_min; assumption).
    rewrite rank_num_min by assumption.
    destruct (Z.leb_spec (Z.min (rank beta0) (rank (num_min value (Int s)))) (rank alpha)).
    + cbn [fst]. split; [assumption|].
      pose proof (min_values_le V rest (Z.min acc (V m))).
      unfold bounds in *. lia.
    + apply IH; try assumption; unfold bounds in *; try lia.
      intros m' Hm'. apply Hsc. now right.
Qed.

(** ** The game and its value *)

Lemma available_empty_cells (b : board) : available_moves b = empty_cells b.
Proof. apply available_moves_seq. Qed.

Lemma symbol_other (p : string) : symbol p -> symbol (other p).
Proof. intros [-> | ->]; [right | left]; reflexivity. Qed.

Lemma other_involutive (p : string) : symbol p -> other (other p) = p.
Proof. intros [-> | ->]; reflexivity. Qed.

Lemma other_differs (p : string) : symbol p -> other p <> p.
Proof. intros [-> | ->]; discriminate. Qed.

Lemma symbol_not_empty (p : string) : symbol p -> p <> " ".
Proof. intros [-> | ->]; discriminate. Qed.

Lemma symbol_not_draw (p : string) : symbol p -> p <> "D".
Proof. intros [-> | ->]; discriminate. Qed.

Lemma symbol_cases (p q : string) : symbol p -> symbol q -> q = p \/ q = other p.
Proof. intros [-> | ->] [-> | ->]; auto. Qed.

Lemma valid_board_insert (b : board) (m : nat) (p : string) :
  valid_board b -> symbol p -> valid_board (<[m:=p]> b).
Proof.
  intros [Hlen Hall] Hp. split; [now rewrite length_insert|].
  rewrite Forall_forall in *. intros c Hc.
  apply list_elem_of_lookup in Hc as [i Hi].
  destruct (Nat.eq_dec m i) as [->|Hne].
  - destruct (Nat.lt_ge_cases i (length b)) as [Hlt|Hge].
    + rewrite list_lookup_insert_eq in Hi by assumption.
      injection Hi as <-. right. exact Hp.
    + rewrite list_insert_ge in Hi by assumption.
      apply Hall, list_elem_of_lookup. eauto.
  - rewrite list_lookup_insert_ne in Hi by assumption.
    apply Hall, list_elem_of_lookup. eauto.
Qed.

Lemma valid_board_cell (b : board) (i : nat) (v : string) :
  valid_board b -> b !! i = Some v -> v = " " \/ symbol v.
Proof.
  intros [_ Hall] Hi. rewrite Forall_forall in Hall.
  apply (Hall v). apply list_elem_of_lookup. eauto.
Qed.

Lemma line_has_spec (b : board) (s : string) (line : nat * nat * nat) :
  s <> " " -> line_has b s line = true <-> filled_with b s line.
Proof.
  intros Hs. unfold line_has, filled_with.
  destruct (b !! line.1.1) as [x|], (b !! line.1.2) as [y|], (b !! line.2) as [z|];
    try (split; [discriminate | intros (_ & ? & ? & ?); discriminate]).
  rewrite !andb_true_iff, !String.eqb_eq. split.
  - intros [[-> ->] ->]. auto.
  - intros (_ & [= ->] & [= ->] & [= ->]). auto.
Qed.

Lemma wins_spec (b : board) (s : string) :
  s <> " " ->
  wins b s = true <-> exists line, In line WIN_LINES /\ filled_with b s line.
Proof.
  intros Hs. unfold wins. rewrite List.existsb_exists.
  split; intros (line & Hin & H); exists line; split; try assumption;
    now apply (line_has_spec b s line Hs).
Qed.

Lemma no_line_won_wins (b : board) (s : string) :
  s <> " " -> no_line_won b -> wins b s = false.
Proof.
  intros Hs Hno. destruct (wins b s) eqn:E; [|reflexivity].
  apply wins_spec in E as (line & Hin & Hf); [|assumption].
  destruct (Hno line s Hin Hf).
Qed.

(** The three ways a verdict comes about on a valid board. *)
Lemma verdict_cases (b : board) :
  valid_board b ->
  match verdict b WIN_LINES with
  | None => no_line_won b /\ empty_cells b <> []
  | Some w =>
      (w = "D" /\ no_line_won b /\ empty_cells b = [])
      \/ (symbol w /\ first_filled_with b w)
  end.
Proof.
  intros Hv. destruct (verdict b WIN_LINES) as [w|] eqn:E.
  - revert E. unfold verdict.
    destruct (List.find (line_filled b) WIN_LINES) as [line|] eqn:Ef; intros E.
    + right. assert (symbol w) as Hw.
      { apply find_first in Ef as (_ & _ & _ & Hf & _).
        apply line_filled_spec in Hf as (s & Hs & Hs1 & _).
        assert (s = w) as -> by congruence.
        destruct (valid_board_cell b _ w Hv E); [contradiction | assumption]. }
      split; [exact Hw|]. apply verdict_win; [now apply symbol_not_draw|].
      unfold verdict. now rewrite Ef.
    + left. destruct (has_empty b) eqn:He; [discriminate|].
      injection E as <-. split; [reflexivity|].
      split; [now apply no_line_won_find|].
      rewrite <- available_empty_cells.
      destruct (available_moves b) eqn:Ea; [reflexivity|].
      assert (has_empty b = true) by (apply has_empty_available; congruence).
      congruence.
  - revert E. unfold verdict.
    destruct (List.find (line_filled b) WIN_LINES) as [line|] eqn:Ef; intros E.
    + exfalso. apply find_first in Ef as (_ & _ & _ & Hf & _).
      apply line_filled_spec in Hf as (s & _ & Hs & _). congruence.
    + split; [now apply no_line_won_find|].
      rewrite <- available_empty_cells. apply has_empty_available.
      now destruct (has_empty b).
Qed.

Lemma first_filled_wins (b : board) (w : string) :
  symbol w -> first_filled_with b w -> wins b w = true.
Proof.
  intros Hw (pre & line & post & E & Hf & _).
  apply wins_spec; [now apply symbol_not_empty|].
  exists line. split; [|assumption]. rewrite E. apply in_app_iff. right. now left.
Qed.

(** A move cannot give the opponent of the mover three in a row. *)
Lemma move_one_winner (b : board) (m : nat) (p : string) :
  symbol p -> wins b (other p) = false -> wins (<[m:=p]> b) (other p) = false.
Proof.
  intros Hp Hno. destruct (wins (<[m:=p]> b) _) eqn:E; [|reflexivity]. exfalso.
  pose proof (symbol_not_empty _ (symbol_other p Hp)) as Hne.
  apply wins_spec in E as (line & Hin & _ & H1 & H2 & H3); [|assumption].
  assert (forall i, <[m:=p]> b !! i = Some (other p) -> b !! i = Some (other p))
    as Hback.
  { intros i Hi. destruct (Nat.eq_dec m i) as [->|Hd].
    - destruct (Nat.lt_ge_cases i (length b)) as [Hlt|Hge].
      + rewrite list_lookup_insert_eq in Hi by assumption.
        injection Hi as Hi. symmetry in Hi. now apply other_differs in Hi.
      + now rewrite list_insert_ge in Hi by assumption.
    - now rewrite list_lookup_insert_ne in Hi by assumption. }
  assert (wins b (other p) = true) as Hw; [|congruence].
  apply wins_spec; [assumption|]. exists line. split; [assumption|].
  repeat split; auto.
Qed.

Lemma move_keeps_one_winner (b : board) (m : nat) (p : string) :
  symbol p -> no_line_won b -> one_winner (<[m:=p]> b).
Proof.
  intros Hp Hno.
  assert (wins (<[m:=p]> b) (other p) = false) as H.
  { apply move_one_winner; [assumption|]. apply no_line_won_wins; [|assumption].
    now apply symbol_not_empty, symbol_other. }
  destruct Hp as [-> | ->]; [right | left]; exact H.
Qed.

Lemma one_winner_other (b : board) (me : string) :
  symbol me -> one_winner b -> wins b (other me) = true -> wins b me = false.
Proof.
  intros [-> | ->] [H | H] Hw;
    change (other "X") with "O" in Hw; change (other "O") with "X" in Hw;
    congruence.
Qed.

Lemma game_value_eq (d : nat) (b : board) (p me : string) :
  game_value d b p me
  = if wins b me then 1%Z
    else if wins b (other me) then (-1)%Z
    else match empty_cells b, d with
         | [], _ => 0%Z
         | _, O => 0%Z
         | cells, S d' =>
             let vs := map (fun m => game_value d' (<[m:=p]> b) (other p) me)
                           cells in
             if String.eqb p me then best_of Z.max vs else best_of Z.min vs
         end.
Proof. destruct d; reflexivity. Qed.

Lemma fold_pick_range (pick : Z -> Z -> Z) (vs : list Z) (v : Z) :
  (forall x y, pick x y = x \/ pick x y = y) ->
  (-1 <= v <= 1)%Z -> Forall (fun x => (-1 <= x <= 1)%Z) vs ->
  (-1 <= fold_left pick vs v <= 1)%Z.
Proof.
  intros Hpick Hv Hvs. revert v Hv.
  induction Hvs as [|x vs Hx _ IH]; intros v Hv; simpl; [exact Hv|].
  apply IH. destruct (Hpick v x) as [-> | ->]; assumption.
Qed.

Lemma best_of_range (pick : Z -> Z -> Z) (vs : list Z) :
  (forall x y, pick x y = x \/ pick x y = y) ->
  Forall (fun x => (-1 <= x <= 1)%Z) vs -> (-1 <= best_of pick vs <= 1)%Z.
Proof.
  intros Hpick Hvs. destruct Hvs as [|x vs Hx Hvs]; simpl; [lia|].
  now apply fold_pick_range.
Qed.

Lemma game_value_range (d : nat) :
  forall b p me, (-1 <= game_value d b p me <= 1)%Z.
Proof.
  induction d as [|d IH]; intros b p me; rewrite game_value_eq;
    destruct (wins b me); try lia; destruct (wins b (other me)); try lia;
    destruct (empty_cells b) as [|m rest]; try lia.
  cbv zeta. destruct (String.eqb p me); apply best_of_range;
    try (intros x y; lia); apply Forall_map, Forall_forall; intros; apply IH.
Qed.

Lemma max_values_fold V moves acc :
  max_values V moves acc = fold_left Z.max (map V moves) acc.
Proof.
  revert acc. induction moves as [|m rest IH]; intros acc; simpl; [reflexivity|].
  apply IH.
Qed.

Lemma min_values_fold V moves acc :
  min_values V moves acc = fold_left Z.min (map V moves) acc.
Proof.
  revert acc. induction moves as [|m rest IH]; intros acc; simpl; [reflexivity|].
  apply IH.
Qed.

Lemma max_values_best V m rest :
  (-1 <= V m)%Z -> max_values V (m :: rest) (-2) = best_of Z.max (map V (m :: rest)).
Proof.
  intros H. rewrite max_values_fold. simpl. f_equal. lia.
Qed.

Lemma min_values_best V m rest :
  (V m <= 1)%Z -> min_values V (m :: rest) 2 = best_of Z.min (map V (m :: rest)).
Proof.
  intros H. rewrite min_values_fold. simpl. f_equal. lia.
Qed.

(** ** The pruned search is exact *)

(** At the end of the game the score is the value of the position. *)
Lemma terminal_exact (d : nat) (b : board) (p me w : string) :
  valid_board b -> one_winner b -> symbol me ->
  verdict b WIN_LINES = Some w ->
  terminal_answer w me = (Int (game_value d b p me), None).
Proof.
  intros Hv Hone Hme Ew. pose proof (verdict_cases b Hv) as Hc.
  rewrite Ew in Hc. rewrite game_value_eq.
  pose proof (symbol_not_empty _ Hme) as Hne.
  pose proof (symbol_not_empty _ (symbol_other _ Hme)) as Hne'.
  destruct Hc as [(-> & Hno & Hfull) | (Hw & Hfirst)].
  - rewrite !no_line_won_wins, Hfull by assumption. reflexivity.
  - pose proof (first_filled_wins b w Hw Hfirst) as Hwin.
    unfold terminal_answer.
    rewrite (proj2 (String.eqb_neq w "D")) by now apply symbol_not_draw.
    destruct (symbol_cases me w Hme Hw) as [-> | ->].
    + now rewrite Hwin, String.eqb_refl.
    + rewrite (one_winner_other b me Hme Hone Hwin), Hwin.
      rewrite (proj2 (String.eqb_neq (other me) me)) by now apply other_differs.
      reflexivity.
Qed.

Lemma children_good (fuel : nat) (p mp : string) (b : board) :
  (9 <= length b)%nat -> p <> " " -> (count_empty b <= S fuel)%nat ->
  returns_scores (minimax_fuel fuel (other p) mp) p b
    (child_score fuel p mp b) (available_moves b)
  /\ scores_in_range (child_score fuel p mp b) (available_moves b).
Proof.
  intros Hlen Hp Hfuel.
  split; intros m Hm a b0; apply In_available in Hm;
    destruct (minimax_fuel_good fuel (other p) mp a b0 (<[m:=p]> b))
      as (ans & E & Hs & _);
    try (rewrite length_insert; lia); try apply other_not_empty;
    try (pose proof (count_empty_insert b m p Hp Hm); lia);
    unfold child_score; rewrite E; simpl.
  - exists (snd ans). now destruct ans.
  - exact Hs.
Qed.

(** The score that the pruned search returns, against the value of the
    position: exact whenever the value lies inside the window. *)
Lemma minimax_fuel_exact (n : nat) :
  forall p me alpha beta b,
    valid_board b -> one_winner b -> symbol p -> symbol me ->
    count_empty b = n ->
    bounded alpha -> bounded beta -> (rank alpha < rank beta)%Z ->
    exists s mv,
      minimax_fuel n p me alpha beta b = (b, Ok (Int s, mv))
      /\ (-1 <= s <= 1)%Z
      /\ bounds (game_value n b p me) (rank alpha) (rank beta) s.
Proof.
  induction n as [|n IH];
    intros p me alpha beta b Hv Hone Hp Hme Hn Ba Bb Hwin;
    pose proof Hv as [Hlen _];
    pose proof (verdict_cases b Hv) as Hc;
    pose proof (game_value_range) as Hrange.
  - simpl minimax_fuel. rewrite check_winner_verdict by lia.
    destruct (verdict b WIN_LINES) as [w|] eqn:Ev.
    + rewrite (terminal_exact 0 b p me w) by assumption.
      eexists _, _. split; [reflexivity|]. split; [apply Hrange|].
      unfold bounds. lia.
    + destruct Hc as [_ Hc]. rewrite <- available_empty_cells in Hc.
      unfold count_empty in Hn. destruct (available_moves b); [congruence|discriminate].
  - simpl minimax_fuel. rewrite check_winner_verdict by lia.
    destruct (verdict b WIN_LINES) as [w|] eqn:Ev.
    + rewrite (terminal_exact (S n) b p me w) by assumption.
      eexists _, _. split; [reflexivity|]. split; [apply Hrange|].
      unfold bounds. lia.
    + destruct Hc as [Hno Hcells].
      pose proof (symbol_not_empty _ Hp) as Hpne.
      destruct (children_good n p me b) as [Hret Hsc]; try lia; try assumption.
      set (V := fun m => game_value n (<[m:=p]> b) (other p) me).
      assert (exact_in_window (child_score n p me b) V (available_moves b)) as Hex.
      { intros m Hm a b0 Ha Hb0 Hab. apply In_available in Hm.
        destruct (IH (other p) me a b0 (<[m:=p]> b)) as (s & mv & E & Hs & Hbd);
          try assumption.
        - now apply valid_board_insert.
        - now apply move_keeps_one_winner.
        - now apply symbol_other.
        - pose proof (count_empty_insert b m p Hpne Hm). lia.
        - exists s. unfold child_score. rewrite E. auto. }
      rewrite game_value_eq.
      rewrite (no_line_won_wins b me) by (try apply symbol_not_empty; assumption).
      rewrite (no_line_won_wins b (other me))
        by (try apply symbol_not_empty; try apply symbol_other; assumption).
      rewrite <- available_empty_cells in *.
      destruct (available_moves b) as [|m rest] eqn:Em; [congruence|].
      cbv zeta. fold V. rewrite <- Em in *.
      destruct (String.eqb p me).
      * rewrite (max_loop_pure _ _ _ _ _ (Forall_available b) Hret).
        rewrite Em in *.
        destruct (max_pure_first _ (m :: rest) m rest None alpha beta Hsc
                    (incl_refl _)) as ((s & Es & Hs) & _).
        pose proof (max_pure_bounds _ V (m :: rest) Hex NInf None alpha beta (-2)%Z
                      I Ba Bb) as Hb.
        rewrite num_max_NInf_r in Hb. simpl rank in Hb.
        pose proof (bounded_rank _ Ba). pose proof (bounded_rank _ Bb).
        destruct Hb as [_ Hb]; try lia.
        rewrite max_values_best in Hb by (apply Hrange).
        destruct (max_pure _ _ _ _ _ _) as [r mv]. simpl in Es. subst r.
        exists s, mv. auto.
      * rewrite (min_loop_pure _ _ _ _ _ (Forall_available b) Hret).
        rewrite Em in *.
        destruct (min_pure_first _ (m :: rest) m rest None alpha beta Hsc
                    (incl_refl _)) as ((s & Es & Hs) & _).
        pose proof (min_pure_bounds _ V (m :: rest) Hex PInf None alpha beta 2%Z
                      I Ba Bb) as Hb.
        rewrite num_min_PInf_r in Hb. simpl rank in Hb.
        pose proof (bounded_rank _ Ba). pose proof (bounded_rank _ Bb).
        destruct Hb as [_ Hb]; try lia.
        rewrite min_values_best in Hb by (apply Hrange).
        destruct (min_pure _ _ _ _ _ _) as [r mv]. simpl in Es. subst r.
        exists s, mv. auto.
Qed.

(** ** The driver: candidates with the best score *)

Lemma minimax_good (b : board) (p mp : string) (alpha beta : num) :
  (9 <= length b)%nat -> p <> " " -> good_answer b (minimax b p mp alpha beta).
Proof. intros Hlen Hp. now apply minimax_fuel_good. Qed.

Lemma move_score_returned (b : board) (ai : string) (m : nat) :
  (9 <= length b)%nat ->
  exists mv, minimax (<[m:=ai]> b) (other ai) ai NInf PInf
             = (<[m:=ai]> b, Ok (move_score b ai m, mv))
             /\ is_score (move_score b ai m).
Proof.
  intros Hlen.
  destruct (minimax_good (<[m:=ai]> b) (other ai) ai NInf PInf)
    as ([s mv] & E & Hs & _);
    [now rewrite length_insert | apply other_not_empty |].
  exists mv. unfold move_score. rewrite E. auto.
Qed.

Lemma best_loop_pure (b : board) (ai : string) (moves : list nat) :
  (9 <= length b)%nat ->
  Forall (fun m => b !! m = Some " ") moves ->
  forall best_score best_moves,
    best_loop ai moves best_score best_moves b
    = (b, Ok (best_pure (move_score b ai) moves best_score best_moves)).
Proof.
  intros Hlen. induction 1 as [|m rest Hm _ IH]; intros best_score best_moves.
  - reflexivity.
  - rewrite best_loop_unfold.
    destruct (move_score_returned b ai m Hlen) as (mv & E & _).
    rewrite (trial_returns m ai (fun b0 => minimax b0 (other ai) ai NInf PInf)
               _ b _ Hm E).
    cbn [fst best_pure].
    destruct (num_lt best_score _); [|destruct (num_eqb _ _)]; apply IH.
Qed.

Lemma num_eqb_rank a b :
  bounded a -> bounded b -> num_eqb a b = (rank a =? rank b)%Z.
Proof.
  destruct a, b; intros Ha Hb; unfold num_eqb, rank; try reflexivity;
    symmetry; apply Z.eqb_neq; simpl in Ha, Hb; lia.
Qed.

Lemma is_score_bounded (v : num) : is_score v -> bounded v.
Proof. intros (s & -> & Hs). exact Hs. Qed.

Section BestPure.

Variable sc : nat -> num.
Hypothesis sc_bounded : forall m, bounded (sc m).

Lemma fold_top_bounded moves acc :
  bounded acc ->
  bounded (fold_top sc moves acc) /\ (rank acc <= rank (fold_top sc moves acc))%Z.
Proof.
  revert acc. induction moves as [|m rest IH]; intros acc Hacc; simpl.
  - split; [assumption | lia].
  - destruct (IH (num_max acc (sc m))) as [H1 H2];
      [now apply bounded_num_max|].
    split; [exact H1|]. rewrite rank_num_max in H2 by auto. lia.
Qed.

(** The candidates are the moves whose score is the largest one. *)
Lemma best_pure_spec moves :
  forall best_score best_moves,
    bounded best_score ->
    best_pure sc moves best_score best_moves
    = if num_lt best_score (fold_top sc moves best_score)
      then List.filter (fun m => num_eqb (sc m) (fold_top sc moves best_score)) moves
      else best_moves
             ++ List.filter (fun m => num_eqb (sc m) best_score) moves.
Proof.
  induction moves as [|m rest IH]; intros bs bm Hbs.
  - simpl. rewrite num_lt_rank by assumption. rewrite Z.ltb_irrefl.
    now rewrite app_nil_r.
  - cbn [best_pure fold_top fold_left List.filter].
    fold (fold_top sc rest (num_max bs (sc m))).
    pose proof (sc_bounded m) as Hm.
    rewrite (num_lt_rank bs (sc m)) by assumption.
    destruct (Z.ltb_spec (rank bs) (rank (sc m))) as [Hlt|Hge].
    + assert (num_max bs (sc m) = sc m) as ->.
      { unfold num_max. rewrite num_lt_rank by assumption.
        now rewrite (proj2 (Z.ltb_lt _ _)). }
      rewrite IH by assumption.
      destruct (fold_top_bounded rest (sc m) Hm) as [Bt Ht].
      rewrite !num_lt_rank, !num_eqb_rank by assumption.
      destruct (Z.ltb_spec (rank (sc m)) (rank (fold_top sc rest (sc m)))) as [H1|H1].
      * rewrite (proj2 (Z.ltb_lt _ _)) by lia.
        now rewrite (proj2 (Z.eqb_neq _ _)) by lia.
      * rewrite (proj2 (Z.ltb_lt _ _)) by lia.
        assert (fold_top sc rest (sc m) = sc m) as ->
          by (apply rank_inj; try assumption; lia).
        now rewrite Z.eqb_refl.
    + assert (num_max bs (sc m) = bs) as ->.
      { unfold num_max. rewrite num_lt_rank by assumption.
        now rewrite (proj2 (Z.ltb_ge _ _)). }
      destruct (fold_top_bounded rest bs Hbs) as [Bt Ht].
      rewrite (num_eqb_rank (sc m) bs) by assumption.
      rewrite (num_eqb_rank (sc m) (fold_top sc rest bs)) by assumption.
      destruct (Z.eqb_spec (rank (sc m)) (rank bs)) as [He|Hne].
      * rewrite IH by assumption. rewrite num_lt_rank by assumption.
        destruct (Z.ltb_spec (rank bs) (rank (fold_top sc rest bs))) as [H1|H1].
        -- now rewrite (proj2 (Z.eqb_neq _ _)) by lia.
        -- now rewrite <- app_assoc.
      * rewrite IH by assumption. rewrite num_lt_rank by assumption.
        destruct (Z.ltb_spec (rank bs) (rank (fold_top sc rest bs))) as [H1|H1].
        -- now rewrite (proj2 (Z.eqb_neq _ _)) by lia.
        -- reflexivity.
Qed.

Lemma best_pure_top moves :
  best_pure sc moves NInf []
  = List.filter (fun m => num_eqb (sc m) (top_score sc moves)) moves.
Proof.
  rewrite best_pure_spec by exact I.
  change (fold_top sc moves NInf) with (top_score sc moves).
  destruct (top_score sc moves); reflexivity.
Qed.

End BestPure.

Lemma move_score_bounded (b : board) (ai : string) :
  (9 <= length b)%nat -> forall m, bounded (move_score b ai m).
Proof.
  intros Hlen m. destruct (move_score_returned b ai m Hlen) as (_ & _ & Hs).
  now apply is_score_bounded.
Qed.

(** The list handed to [random.choice]: every available move whose
    score is the largest score of an available move, in ascending
    order. *)
Lemma best_moves_filter (b : board) (ai : string) :
  (9 <= length b)%nat ->
  best_moves_for_ai b ai
  = (b, Ok (List.filter
              (fun m => num_eqb (move_score b ai m)
                          (top_score (move_score b ai) (available_moves b)))
              (available_moves b))).
Proof.
  intros Hlen. unfold best_moves_for_ai.
  rewrite (best_loop_pure b ai _ Hlen (Forall_available b)).
  now rewrite (best_pure_top _ (move_score_bounded b ai Hlen)).
Qed.

(** ** The candidates are the optimal moves *)

Lemma count_empty_cells (b : board) : count_empty b = length (empty_cells b).
Proof. unfold count_empty. now rewrite available_empty_cells. Qed.

Lemma In_empty_cells (b : board) (m : nat) :
  In m (empty_cells b) <-> b !! m = Some " ".
Proof. rewrite <- available_empty_cells. apply In_available. Qed.

(** The value of a position where the game goes on, from the values of
    the positions one move away. *)
Lemma position_value_step (b : board) (p me : string) :
  p <> " " -> wins b me = false -> wins b (other me) = false ->
  empty_cells b <> [] ->
  position_value b p me
  = let vs := map (fun m => position_value (<[m:=p]> b) (other p) me)
                  (empty_cells b) in
    if String.eqb p me then best_of Z.max vs else best_of Z.min vs.
Proof.
  intros Hp Hw1 Hw2 Hne. unfold position_value at 1.
  rewrite game_value_eq, Hw1, Hw2.
  destruct (empty_cells b) as [|m rest] eqn:Ec; [congruence|].
  cbn [length]. cbv zeta. rewrite <- Ec.
  assert (map (fun m0 => game_value (length rest) (<[m0:=p]> b) (other p) me)
              (empty_cells b)
          = map (fun m0 => position_value (<[m0:=p]> b) (other p) me)
                (empty_cells b)) as ->; [|reflexivity].
  apply map_ext_in. intros x Hx. apply In_empty_cells in Hx.
  unfold position_value. f_equal.
  pose proof (count_empty_insert b x p Hp Hx) as Hc.
  rewrite !count_empty_cells, Ec in Hc. simpl in Hc. lia.
Qed.

(** The value of a position where the game is over. *)
Lemma position_value_over (b : board) (p me : string) :
  (wins b me = true -> position_value b p me = 1%Z)
  /\ (wins b me = false -> wins b (other me) = true ->
      position_value b p me = (-1)%Z)
  /\ (wins b me = false -> wins b (other me) = false -> empty_cells b = [] ->
      position_value b p me = 0%Z).
Proof.
  unfold position_value. rewrite game_value_eq.
  split; [|split]; [intros -> | intros -> -> | intros -> -> ->]; reflexivity.
Qed.

(** The score of a candidate move is the value of the position it
    leads to. *)
Lemma move_score_value (b : board) (ai : string) (m : nat) :
  valid_board b -> no_line_won b -> symbol ai -> b !! m = Some " " ->
  move_score b ai m = Int (position_value (<[m:=ai]> b) (other ai) ai).
Proof.
  intros Hv Hno Hai Hm. unfold move_score, minimax, position_value.
  destruct (minimax_fuel_exact (count_empty (<[m:=ai]> b)) (other ai) ai NInf PInf
              (<[m:=ai]> b)) as (s & mv & E & Hs & Hb); try exact I;
    try reflexivity.
  - now apply valid_board_insert.
  - now apply move_keeps_one_winner.
  - now apply symbol_other.
  - assumption.
  - rewrite E. simpl. f_equal. rewrite <- count_empty_cells.
    pose proof (game_value_range (count_empty (<[m:=ai]> b)) (<[m:=ai]> b)
                  (other ai) ai).
    unfold bounds in Hb. simpl in Hb. lia.
Qed.

Lemma fold_top_values (sc : nat -> num) (V : nat -> Z) (moves : list nat) (z : Z) :
  (forall m, In m moves -> sc m = Int (V m)) ->
  fold_top sc moves (Int z) = Int (fold_left Z.max (map V moves) z).
Proof.
  revert z. induction moves as [|m rest IH]; intros z H; simpl; [reflexivity|].
  rewrite (H m) by now left.
  assert (num_max (Int z) (Int (V m)) = Int (Z.max z (V m))) as ->.
  { unfold num_max. simpl. destruct (Z.ltb_spec z (V m)); f_equal; lia. }
  apply IH. intros x Hx. apply H. now right.
Qed.

Lemma top_score_values (sc : nat -> num) (V : nat -> Z) (moves : list nat) :
  moves <> [] -> (forall m, In m moves -> sc m = Int (V m)) ->
  top_score sc moves = Int (best_of Z.max (map V moves)).
Proof.
  intros Hne H. destruct moves as [|m rest]; [congruence|].
  unfold top_score. simpl. rewrite (H m) by now left.
  change (num_max NInf (Int (V m))) with (Int (V m)).
  apply (fold_top_values sc V rest). intros x Hx. apply H. now right.
Qed.

Lemma check_winner_none (b : board) :
  valid_board b -> check_winner b = Ok None ->
  no_line_won b /\ empty_cells b <> [].
Proof.
  intros Hv E. pose proof (verdict_cases b Hv) as Hc.
  rewrite check_winner_verdict in E by (destruct Hv; lia).
  injection E as E. now rewrite E in Hc.
Qed.

(** On a position where the game goes on, [best_move_for_ai] samples
    from exactly the moves that keep the value of the position. *)
Lemma best_moves_optimal (b : board) (ai : string) :
  valid_board b -> check_winner b = Ok None -> symbol ai ->
  best_moves_for_ai b ai
  = (b, Ok (List.filter
              (fun m => (position_value (<[m:=ai]> b) (other ai) ai
                         =? position_value b ai ai)%Z)
              (empty_cells b))).
Proof.
  intros Hv Hc Hai. destruct (check_winner_none b Hv Hc) as [Hno Hne].
  pose proof (symbol_not_empty _ Hai) as Hai'.
  pose proof (symbol_not_empty _ (symbol_other _ Hai)) as Hoth.
  rewrite best_moves_filter by (destruct Hv; lia).
  rewrite available_empty_cells.
  rewrite (top_score_values _
             (fun m => position_value (<[m:=ai]> b) (other ai) ai)) ;
    [|assumption|].
  - rewrite (position_value_step b ai ai) by
        (try apply no_line_won_wins; assumption).
    cbv zeta. rewrite String.eqb_refl.
    f_equal. f_equal. apply List.filter_ext_in. intros m Hm.
    apply In_empty_cells in Hm.
    now rewrite (move_score_value b ai m Hv Hno Hai Hm).
  - intros m Hm. apply In_empty_cells in Hm. now apply move_score_value.
Qed.

Lemma fold_pick_attained (pick : Z -> Z -> Z) (vs : list Z) (v : Z) :
  (forall x y, pick x y = x \/ pick x y = y) ->
  In (fold_left pick vs v) (v :: vs).
Proof.
  intros Hpick. revert v. induction vs as [|x vs IH]; intros v; simpl.
  - now left.
  - destruct (IH (pick v x)) as [H | H].
    + rewrite <- H. destruct (Hpick v x) as [-> | ->]; auto.
    + auto.
Qed.

Lemma best_of_attained (pick : Z -> Z -> Z) (vs : list Z) :
  (forall x y, pick x y = x \/ pick x y = y) -> vs <> [] ->
  In (best_of pick vs) vs.
Proof.
  intros Hpick Hne. destruct vs as [|v vs]; [congruence|].
  now apply fold_pick_attained.
Qed.

Lemma fold_min_le (vs : list Z) (v x : Z) :
  In x (v :: vs) -> (fold_left Z.min vs v <= x)%Z.
Proof.
  revert v x. induction vs as [|y vs IH]; intros v x Hin; simpl.
  - destruct Hin as [-> | []]. lia.
  - assert (fold_left Z.min vs (Z.min v y) <= Z.min v y)%Z
      by (apply IH; now left).
    destruct Hin as [<- | [<- | Hin]]; [lia | lia | apply IH; now right].
Qed.

(** Some move keeps the value of the position. *)
Lemma optimal_move_exists (b : board) (ai : string) :
  valid_board b -> check_winner b = Ok None -> symbol ai ->
  exists m, In m (empty_cells b)
            /\ position_value (<[m:=ai]> b) (other ai) ai = position_value b ai ai.
Proof.
  intros Hv Hc Hai. destruct (check_winner_none b Hv Hc) as [Hno Hne].
  pose proof (symbol_not_empty _ Hai) as Hai'.
  pose proof (symbol_not_empty _ (symbol_other _ Hai)) as Hoth.
  rewrite (position_value_step b ai ai) by
      (try apply no_line_won_wins; assumption).
  cbv zeta. rewrite String.eqb_refl.
  pose proof (best_of_attained Z.max
                (map (fun m => position_value (<[m:=ai]> b) (other ai) ai)
                     (empty_cells b))) as H.
  apply in_map_iff in H as (m & E & Hm); [eauto | intros; lia |].
  now destruct (empty_cells b).
Qed.

(** ** Zero sum: what one player wins the other loses *)

Lemma fold_opp_max (vs : list Z) (v : Z) :
  fold_left Z.min (map Z.opp vs) (- v)%Z = (- fold_left Z.max vs v)%Z.
Proof.
  revert v. induction vs as [|x vs IH]; intros v; simpl; [reflexivity|].
  rewrite <- IH. f_equal. lia.
Qed.

Lemma fold_opp_min (vs : list Z) (v : Z) :
  fold_left Z.max (map Z.opp vs) (- v)%Z = (- fold_left Z.min vs v)%Z.
Proof.
  revert v. induction vs as [|x vs IH]; intros v; simpl; [reflexivity|].
  rewrite <- IH. f_equal. lia.
Qed.

Lemma best_of_opp_max (vs : list Z) :
  best_of Z.min (map Z.opp vs) = (- best_of Z.max vs)%Z.
Proof. destruct vs as [|v vs]; [reflexivity|]. apply fold_opp_max. Qed.

Lemma best_of_opp_min (vs : list Z) :
  best_of Z.max (map Z.opp vs) = (- best_of Z.min vs)%Z.
Proof. destruct vs as [|v vs]; [reflexivity|]. apply fold_opp_min. Qed.

Lemma game_value_zero_sum (d : nat) :
  forall b p me,
    symbol p -> symbol me -> one_winner b ->
    game_value d b p (other me) = (- game_value d b p me)%Z.
Proof.
  induction d as [|d IH]; intros b p me Hp Hme Hone;
    rewrite (game_value_eq _ b p (other me)), (game_value_eq _ b p me);
    rewrite (other_involutive me Hme);
    destruct (wins b (other me)) eqn:Wo.
  1, 3: now rewrite (one_winner_other b me Hme Hone Wo).
  - destruct (wins b me); [reflexivity|]. now destruct (empty_cells b).
  - destruct (wins b me) eqn:Wm; [reflexivity|].
    destruct (empty_cells b) as [|m rest] eqn:Ec; [reflexivity|].
    cbv zeta.
    assert (map (fun m0 => game_value d (<[m0:=p]> b) (other p) (other me))
                (m :: rest)
            = map Z.opp
                (map (fun m0 => game_value d (<[m0:=p]> b) (other p) me)
                     (m :: rest))) as ->.
    { rewrite map_map. apply map_ext. intros x. apply IH; try assumption.
      - now apply symbol_other.
      - assert (wins (<[x:=p]> b) (other p) = false) as H.
        { apply move_one_winner; [assumption|].
          destruct (symbol_cases me p Hme Hp) as [-> | ->];
            [assumption | now rewrite other_involutive]. }
        destruct Hp as [-> | ->]; [right | left]; exact H. }
    destruct (symbol_cases me p Hme Hp) as [-> | ->].
    + rewrite String.eqb_refl.
      rewrite (proj2 (String.eqb_neq me (other me)))
        by (intros E; symmetry in E; now apply other_differs in E).
      apply best_of_opp_max.
    + rewrite String.eqb_refl.
      rewrite (proj2 (String.eqb_neq (other me) me)) by now apply other_differs.
      apply best_of_opp_min.
Qed.

Lemma position_value_zero_sum (b : board) (p me : string) :
  symbol p -> symbol me -> one_winner b ->
  position_value b p (other me) = (- position_value b p me)%Z.
Proof. intros. now apply game_value_zero_sum. Qed.

(** ** Playing the game *)

Lemma random_choice_In (k : nat) (l : list nat) (m : nat) :
  random_choice k l = Ok m -> l !! k = Some m /\ In m l.
Proof.
  unfold random_choice. destruct l as [|x l]; [discriminate|].
  destruct ((x :: l) !! k) as [y|] eqn:E; [|discriminate].
  intros [= ->]. split; [reflexivity|].
  apply list_elem_of_In, list_elem_of_lookup. eauto.
Qed.

Lemma best_move_for_ai_eq (k : nat) (b : board) (ai_symbol : string) :
  best_move_for_ai k b ai_symbol
  = match best_moves_for_ai b ai_symbol with
    | (b', Ok l) => (b', random_choice k l)
    | (b', Raise e) => (b', Raise e)
    | (b', OutOfFuel) => (b', OutOfFuel)
    end.
Proof. reflexivity. Qed.

(** The move the AI plays keeps the value of the position. *)
Lemma ai_move_optimal (k : nat) (b b' : board) (ai_symbol : string) (m : nat) :
  valid_board b -> check_winner b = Ok None -> symbol ai_symbol ->
  best_move_for_ai k b ai_symbol = (b', Ok m) ->
  b' = b /\ b !! m = Some " "
  /\ position_value (<[m:=ai_symbol]> b) (other ai_symbol) ai_symbol
     = position_value b ai_symbol ai_symbol.
Proof.
  intros Hv Hc Hai. rewrite best_move_for_ai_eq.
  rewrite (best_moves_optimal b ai_symbol Hv Hc Hai).
  intros [= <- Hk]. apply random_choice_In in Hk as [_ Hin].
  apply List.filter_In in Hin as [Hin Heq].
  apply In_empty_cells in Hin. apply Z.eqb_eq in Heq. auto.
Qed.

(** A human's move cannot raise the value for the human. *)
Lemma opponent_move_value (b : board) (p me : string) (m : nat) :
  valid_board b -> check_winner b = Ok None -> symbol p -> symbol me ->
  p <> me -> b !! m = Some " " ->
  (position_value b p me <= position_value (<[m:=p]> b) (other p) me)%Z.
Proof.
  intros Hv Hc Hp Hme Hne Hm. destruct (check_winner_none b Hv Hc) as [Hno Hcells].
  rewrite (position_value_step b p me);
    try apply no_line_won_wins; try apply symbol_not_empty;
    try apply symbol_other; try assumption.
  cbv zeta. rewrite (proj2 (String.eqb_neq p me)) by assumption.
  apply In_empty_cells in Hm.
  destruct (empty_cells b) as [|x rest]; [destruct Hm|].
  cbn [map best_of]. apply fold_min_le.
  change (In (position_value (<[m:=p]> b) (other p) me)
             (map (fun m0 => position_value (<[m0:=p]> b) (other p) me)
                  (x :: rest))).
  apply in_map_iff. eauto.
Qed.

(** The value of a finished game, read off the verdict. *)
Lemma finished_value (b : board) (p me w : string) :
  valid_board b -> one_winner b -> symbol me ->
  check_winner b = Ok (Some w) ->
  (w = "D" /\ position_value b p me = 0%Z)
  \/ (w = me /\ position_value b p me = 1%Z)
  \/ (w = other me /\ position_value b p me = (-1)%Z).
Proof.
  intros Hv Hone Hme Hc.
  rewrite check_winner_verdict in Hc by (destruct Hv; lia).
  injection Hc as Hc.
  pose proof (terminal_exact (length (empty_cells b)) b p me w Hv Hone Hme Hc) as Ht.
  fold (position_value b p me) in Ht.
  pose proof (verdict_cases b Hv) as Hcases. rewrite Hc in Hcases.
  unfold terminal_answer in Ht.
  destruct Hcases as [(-> & _) | (Hw & _)].
  - left. simpl in Ht. split; [reflexivity|]. congruence.
  - rewrite (proj2 (String.eqb_neq w "D")) in Ht by now apply symbol_not_draw.
    destruct (symbol_cases me w Hme Hw) as [-> | ->].
    + right. left. rewrite String.eqb_refl in Ht. split; [reflexivity|]. congruence.
    + right. right.
      rewrite (proj2 (String.eqb_neq (other me) me)) in Ht
        by now apply other_differs.
      split; [reflexivity|]. congruence.
Qed.

Lemma truthy_false_valid (b : board) (winner : option string) :
  valid_board b -> check_winner b = Ok winner -> truthy winner = false ->
  winner = None.
Proof.
  intros Hv Hc Ht. destruct winner as [w|]; [|reflexivity]. exfalso.
  rewrite check_winner_verdict in Hc by (destruct Hv; lia). injection Hc as Hc.
  pose proof (verdict_cases b Hv) as Hcases. rewrite Hc in Hcases.
  simpl in Ht. apply negb_false_iff, String.eqb_eq in Ht. subst w.
  destruct Hcases as [(? & _) | ([?|?] & _)]; discriminate.
Qed.

(** What a turn does to a position where the game goes on. *)
Lemma turn_inv (types : string -> player_type) (b b' : board) (current : string) :
  valid_board b -> check_winner b = Ok None -> symbol current ->
  turn types b current b' ->
  valid_board b' /\ one_winner b'
  /\ exists m, b' = <[m:=current]> b /\ b !! m = Some " "
       /\ (types current = ai ->
           position_value b' (other current) current
           = position_value b current current).
Proof.
  intros Hv Hc Hcur Ht. destruct (check_winner_none b Hv Hc) as [Hno _].
  destruct Ht as [m Hty _ Hm | k m b1 Hty Hk].
  - split; [now apply valid_board_insert|].
    split; [now apply move_keeps_one_winner|].
    exists m. repeat split; try assumption. congruence.
  - destruct (ai_move_optimal k b b1 current m Hv Hc Hcur Hk) as (-> & Hm & Hval).
    split; [now apply valid_board_insert|].
    split; [now apply move_keeps_one_winner|].
    exists m. auto.
Qed.

Lemma no_line_won_one_winner (b : board) : no_line_won b -> one_winner b.
Proof. intros H. left. now apply no_line_won_wins. Qed.

(** With the AI playing X, no turn lowers the value of the position
    for X. *)
Lemma turn_value_against (b b' : board) (current : string) :
  valid_board b -> check_winner b = Ok None -> symbol current ->
  turn (against "O") b current b' ->
  (position_value b current "X" <= position_value b' (other current) "X")%Z.
Proof.
  intros Hv Hc Hcur Ht.
  destruct (turn_inv _ b b' current Hv Hc Hcur Ht) as (_ & _ & m & -> & Hm & Hai).
  destruct Hcur as [-> | ->].
  - rewrite Hai by reflexivity. lia.
  - apply opponent_move_value; try assumption;
      [now right | now left | discriminate].
Qed.

(** In self-play every turn keeps the value of the position. *)
Lemma turn_value_self_play (b b' : board) (current : string) :
  valid_board b -> check_winner b = Ok None -> symbol current ->
  turn self_play b current b' ->
  position_value b' (other current) "X" = position_value b current "X".
Proof.
  intros Hv Hc Hcur Ht. destruct (check_winner_none b Hv Hc) as [Hno _].
  destruct (turn_inv _ b b' current Hv Hc Hcur Ht)
    as (Hv' & Hone' & m & -> & Hm & Hai).
  specialize (Hai eq_refl). destruct Hcur as [-> | ->]; [exact Hai|].
  pose proof (position_value_zero_sum (<[m:="O"]> b) (other "O") "X"
                (symbol_other _ (or_intror eq_refl)) (or_introl eq_refl) Hone')
    as Z1.
  pose proof (position_value_zero_sum b "O" "X" (or_intror eq_refl)
                (or_introl eq_refl) (no_line_won_one_winner b Hno)) as Z2.
  change (other "X") with "O" in Z1, Z2. lia.
Qed.

Lemma against_never_loses (b : board) (current w : string) :
  play (against "O") b current w ->
  valid_board b -> check_winner b = Ok None -> symbol current ->
  (0 <= position_value b current "X")%Z ->
  w <> "O".
Proof.
  induction 1 as [b b' current w Ht Hw _ | b b' current w winner Ht Hw Hf _ IH];
    intros Hv Hc Hcur Hval;
    pose proof (turn_value_against b b' current Hv Hc Hcur Ht) as Hstep;
    destruct (turn_inv _ b b' current Hv Hc Hcur Ht) as (Hv' & Hone' & _).
  - destruct (finished_value b' (other current) "X" w Hv' Hone' (or_introl eq_refl) Hw)
      as [(-> & _) | [(-> & _) | (_ & E)]]; try discriminate. lia.
  - pose proof (truthy_false_valid b' winner Hv' Hw Hf) as ->.
    apply IH; try assumption; [now apply symbol_other | lia].
Qed.

Lemma self_play_draws (b : board) (current w : string) :
  play self_play b current w ->
  valid_board b -> check_winner b = Ok None -> symbol current ->
  position_value b current "X" = 0%Z ->
  w = "D".
Proof.
  induction 1 as [b b' current w Ht Hw _ | b b' current w winner Ht Hw Hf _ IH];
    intros Hv Hc Hcur Hval;
    pose proof (turn_value_self_play b b' current Hv Hc Hcur Ht) as Hstep;
    destruct (turn_inv _ b b' current Hv Hc Hcur Ht) as (Hv' & Hone' & _).
  - destruct (finished_value b' (other current) "X" w Hv' Hone' (or_introl eq_refl) Hw)
      as [(-> & _) | [(_ & E) | (_ & E)]]; [reflexivity | lia | lia].
  - pose proof (truthy_false_valid b' winner Hv' Hw Hf) as ->.
    apply IH; try assumption; [now apply symbol_other | lia].
Qed.

Lemma valid_fresh_board : valid_board fresh_board.
Proof.
  split; [reflexivity|]. unfold fresh_board. simpl.
  repeat (apply Forall_cons; split; [now left|]). apply Forall_nil. exact I.
Qed.

Lemma fresh_board_goes_on : check_winner fresh_board = Ok None.
Proof. reflexivity. Qed.

(** Tic-Tac-Toe is a draw. *)
Lemma fresh_board_value : position_value fresh_board "X" "X" = 0%Z.
Proof.
  assert (minimax_fuel 9 "X" "X" NInf PInf fresh_board
          = (fresh_board, Ok (Int 0, Some 0%nat))) as E0
    by (vm_compute; reflexivity).
  destruct (minimax_fuel_exact 9 "X" "X" NInf PInf fresh_board
              valid_fresh_board (or_introl eq_refl) (or_introl eq_refl)
              (or_introl eq_refl) eq_refl I I eq_refl)
    as (s & mv & E & Hs & Hb).
  rewrite E0 in E. injection E as <- _.
  pose proof (game_value_range 9 fresh_board "X" "X") as Hr.
  unfold bounds in Hb. change (rank NInf) with (-2)%Z in Hb.
  change (rank PInf) with 2%Z in Hb. unfold position_value.
  change (length (empty_cells fresh_board)) with 9%nat. lia.
Qed.

(** ** The model at work *)

Example available_fresh_board :
  available_moves fresh_board = [0; 1; 2; 3; 4; 5; 6; 7; 8]%nat.
Proof. reflexivity. Qed.

Example winner_two_lines : check_winner two_lines_board = Ok (Some "X").
Proof. reflexivity. Qed.

Example short_board_raises : check_winner [" "; " "; " "] = Raise IndexError.
Proof. reflexivity. Qed.

Example minimax_fresh_board :
  minimax fresh_board "X" "X" NInf PInf = (fresh_board, Ok (Int 0, Some 0%nat)).
Proof. vm_compute. reflexivity. Qed.

Example minimax_scenario_2 :
  minimax scenario_2_board "O" "X" NInf PInf
  = (scenario_2_board, Ok (Int (-1), Some 2%nat)).
Proof. vm_compute. reflexivity. Qed.

Example too_little_fuel :
  snd (minimax_fuel 2 "O" "X" NInf PInf scenario_2_board) = OutOfFuel.
Proof. vm_compute. reflexivity. Qed.

(** * Properties of the program *)

(** ** Optimal play *)

(** C1. On every valid board where the game goes on (every reachable
    non-terminal board is one) and for both symbols, [best_move_for_ai]
    returns, for every draw of the generator, an Empty cell, and playing
    it keeps the game-theoretic value of the position for the AI.  The
    value of the empty board is a draw; so an AI that moves first as X
    never loses, whatever the opponent plays, and two AIs playing each
    other always draw. *)
Theorem best_move_for_ai_optimal :
  (forall (b : board) (ai_symbol : string),
      valid_board b -> check_winner b = Ok None -> symbol ai_symbol ->
      (exists l, best_moves_for_ai b ai_symbol = (b, Ok l) /\ l <> []
                 /\ forall k, (k < length l)%nat ->
                      exists m, best_move_for_ai k b ai_symbol = (b, Ok m))
      /\ (forall k b' m,
             best_move_for_ai k b ai_symbol = (b', Ok m) ->
             b !! m = Some " "
             /\ position_value (<[m:=ai_symbol]> b) (other ai_symbol) ai_symbol
                = position_value b ai_symbol ai_symbol))
  /\ position_value fresh_board "X" "X" = 0%Z
  /\ (forall w, play (against "O") fresh_board "X" w -> w <> "O")
  /\ (forall w, play self_play fresh_board "X" w -> w = "D").
Proof.
  split; [|split; [|split]].
  - intros b ai_symbol Hv Hc Hai. split.
    + eexists. split; [apply best_moves_optimal; assumption|]. split.
      * destruct (optimal_move_exists b ai_symbol Hv Hc Hai) as (m & Hm & E).
        intros Hnil.
        assert (In m (List.filter
                        (fun m => (position_value (<[m:=ai_symbol]> b)
                                     (other ai_symbol) ai_symbol
                                   =? position_value b ai_symbol ai_symbol)%Z)
                        (empty_cells b))) as Hin
            by (apply List.filter_In; split; [assumption | now apply Z.eqb_eq]).
        rewrite Hnil in Hin. destruct Hin.
      * intros k Hk. rewrite best_move_for_ai_eq.
        rewrite (best_moves_optimal b ai_symbol Hv Hc Hai).
        destruct (lookup_lt_is_Some_2 _ k Hk) as [m Hm].
        exists m. unfold random_choice. rewrite Hm.
        now destruct (List.filter _ _).
    + intros k b' m Hk.
      now destruct (ai_move_optimal k b b' ai_symbol m Hv Hc Hai Hk) as (_ & ? & ?).
  - apply fresh_board_value.
  - intros w Hplay.
    apply (against_never_loses fresh_board "X" w Hplay valid_fresh_board
             fresh_board_goes_on (or_introl eq_refl)).
    rewrite fresh_board_value. lia.
  - intros w Hplay.
    apply (self_play_draws fresh_board "X" w Hplay valid_fresh_board
             fresh_board_goes_on (or_introl eq_refl) fresh_board_value).
Qed.

Lemma valid_scenario_1 : valid_board scenario_1_board.
Proof.
  split; [reflexivity|]. unfold scenario_1_board.
  repeat (apply Forall_cons; split; [auto|]). apply Forall_nil. exact I.
Qed.

Lemma valid_scenario_2 : valid_board scenario_2_board.
Proof.
  split; [reflexivity|]. unfold scenario_2_board.
  repeat (apply Forall_cons; split; [auto|]). apply Forall_nil. exact I.
Qed.

Lemma valid_scenario_4 : valid_board scenario_4_board.
Proof.
  split; [reflexivity|]. unfold scenario_4_board.
  repeat (apply Forall_cons; split; [auto|]). apply Forall_nil. exact I.
Qed.

(** A turn of the AI with the draw [0], and a turn of a human. *)
Ltac ai_turn m :=
  idtac;
  match goal with
  | |- turn ?types ?b ?cur _ =>
      apply (turn_ai types b cur 0 m b); [reflexivity | vm_compute; reflexivity]
  end.

Ltac human_turn m :=
  idtac;
  match goal with
  | |- turn ?types ?b ?cur _ =>
      apply (turn_human types b cur m); [reflexivity | lia | reflexivity]
  end.

Ltac goes_on b' t :=
  apply (play_on _ _ b' _ _ None);
  [t | vm_compute; reflexivity | reflexivity | change (other "X") with "O";
                                              change (other "O") with "X"].

Ltac is_over b' t :=
  apply (play_over _ _ b' _ _); [t | vm_compute; reflexivity | reflexivity].

(** A game of the AI, as X, against a human. *)
Lemma game_against_human : play (against "O") fresh_board "X" "X".
Proof.
  goes_on ["X"; " "; " "; " "; " "; " "; " "; " "; " "] ltac:(ai_turn 0%nat).
  goes_on ["X"; "O"; " "; " "; " "; " "; " "; " "; " "] ltac:(human_turn 1%nat).
  goes_on ["X"; "O"; " "; "X"; " "; " "; " "; " "; " "] ltac:(ai_turn 3%nat).
  goes_on ["X"; "O"; "O"; "X"; " "; " "; " "; " "; " "] ltac:(human_turn 2%nat).
  goes_on ["X"; "O"; "O"; "X"; "X"; " "; " "; " "; " "] ltac:(ai_turn 4%nat).
  goes_on ["X"; "O"; "O"; "X"; "X"; "O"; " "; " "; " "] ltac:(human_turn 5%nat).
  is_over ["X"; "O"; "O"; "X"; "X"; "O"; "X"; " "; " "] ltac:(ai_turn 6%nat).
Defined.

(** A game of the AI against itself. *)
Lemma game_of_self_play : play self_play fresh_board "X" "D".
Proof.
  goes_on ["X"; " "; " "; " "; " "; " "; " "; " "; " "] ltac:(ai_turn 0%nat).
  goes_on ["X"; " "; " "; " "; "O"; " "; " "; " "; " "] ltac:(ai_turn 4%nat).
  goes_on ["X"; "X"; " "; " "; "O"; " "; " "; " "; " "] ltac:(ai_turn 1%nat).
  goes_on ["X"; "X"; "O"; " "; "O"; " "; " "; " "; " "] ltac:(ai_turn 2%nat).
  goes_on ["X"; "X"; "O"; " "; "O"; " "; "X"; " "; " "] ltac:(ai_turn 6%nat).
  goes_on ["X"; "X"; "O"; "O"; "O"; " "; "X"; " "; " "] ltac:(ai_turn 3%nat).
  goes_on ["X"; "X"; "O"; "O"; "O"; "X"; "X"; " "; " "] ltac:(ai_turn 5%nat).
  goes_on ["X"; "X"; "O"; "O"; "O"; "X"; "X"; "O"; " "] ltac:(ai_turn 7%nat).
  is_over ["X"; "X"; "O"; "O"; "O"; "X"; "X"; "O"; "X"] ltac:(ai_turn 8%nat).
Defined.

Lemma best_move_for_ai_optimal_witness :
  (scenario_1_board !! 6%nat = Some " "
   /\ position_value (<[6%nat:="X"]> scenario_1_board) (other "X") "X"
      = position_value scenario_1_board "X" "X")
  /\ "X" <> "O" /\ "D" = "D".
Proof.
  destruct best_move_for_ai_optimal as (H1 & _ & H3 & H4).
  split; [|split].
  - destruct (H1 scenario_1_board "X" valid_scenario_1 eq_refl (or_introl eq_refl))
      as [_ H].
    apply (H 0%nat scenario_1_board 6%nat). vm_compute. reflexivity.
  - apply (H3 "X" game_against_human).
  - apply (H4 "D" game_of_self_play).
Defined.

(** ** The verdict of [check_winner] *)

(** C2, counterexample.  On [two_lines_board] the line 3-4-5 is filled
    with O, yet [check_winner] returns X, the symbol of the line 0-1-2
    that comes first in [WIN_LINES]: "returns Win(s) if and only if some
    line is filled with s" fails for s = O. *)
Lemma check_winner_not_any_line :
  ~ (forall (b : board) (s : string),
        valid_board b -> symbol s ->
        (check_winner b = Ok (Some s)
         <-> exists line, In line WIN_LINES /\ filled_with b s line)).
Proof.
  intros H.
  assert (valid_board two_lines_board) as Hv.
  { split; [reflexivity|]. unfold two_lines_board.
    repeat (apply Forall_cons; split; [auto|]). apply Forall_nil. exact I. }
  destruct (H two_lines_board "O" Hv (or_intror eq_refl)) as [_ Hback].
  assert (check_winner two_lines_board = Ok (Some "O")) as E.
  { apply Hback. exists (3, 4, 5)%nat. split.
    - right. left. reflexivity.
    - repeat split. discriminate. }
  vm_compute in E. discriminate E.
Qed.

Lemma full_no_empty (b : board) :
  has_empty b = false <-> (forall i, b !! i <> Some " ").
Proof.
  split.
  - intros H i Hi. assert (has_empty b = true) by (apply has_empty_spec; eauto).
    congruence.
  - intros H. destruct (has_empty b) eqn:E; [|reflexivity].
    apply has_empty_spec in E as [i Hi]. destruct (H i Hi).
Qed.

(** C2, as amended.  On every 9-cell board over Empty, X and O,
    [check_winner] returns the symbol [s] exactly when [s] fills the
    first filled line of [WIN_LINES] in declared order; so a returned
    [s] fills some line, and a symbol that fills a line is returned
    when the other symbol fills none.  It returns ['D'] exactly when no
    cell is Empty and no line is filled, and [None] exactly when some
    cell is Empty and no line is filled; there is no other result.  The
    full board X,O,X,O,X,O,O,X,O is a draw. *)
Theorem check_winner_correct (b : board) :
  valid_board b ->
  (forall s, symbol s -> (check_winner b = Ok (Some s) <-> first_filled_with b s))
  /\ (forall s, symbol s -> check_winner b = Ok (Some s) ->
                exists line, In line WIN_LINES /\ filled_with b s line)
  /\ (forall s, symbol s ->
                (exists line, In line WIN_LINES /\ filled_with b s line) ->
                (forall line, In line WIN_LINES -> ~ filled_with b (other s) line) ->
                check_winner b = Ok (Some s))
  /\ (check_winner b = Ok (Some "D")
      <-> (forall i, b !! i <> Some " ") /\ no_line_won b)
  /\ (check_winner b = Ok None
      <-> (exists i, b !! i = Some " ") /\ no_line_won b)
  /\ ((exists s, symbol s /\ check_winner b = Ok (Some s))
      \/ check_winner b = Ok (Some "D") \/ check_winner b = Ok None)
  /\ check_winner scenario_4_board = Ok (Some "D").
Proof.
  intros Hv. pose proof Hv as [Hlen _].
  rewrite check_winner_verdict by lia.
  pose proof (verdict_cases b Hv) as Hc.
  assert (forall s, symbol s ->
                    (Ok (verdict b WIN_LINES) = Ok (Some s) <-> first_filled_with b s))
    as Hfirst.
  { intros s Hs. rewrite <- (verdict_win b s) by now apply symbol_not_draw.
    split; [now intros [= ->] | now intros ->]. }
  split; [exact Hfirst|]. split; [|split; [|split; [|split; [|split]]]].
  - intros s Hs E. apply Hfirst in E as (pre & line & post & EW & Hf & _);
      [|assumption].
    exists line. split; [|assumption]. rewrite EW. apply in_app_iff. right. now left.
  - intros s Hs (line & Hin & Hf) Hother.
    destruct (verdict b WIN_LINES) as [w|] eqn:Ev.
    + destruct Hc as [(-> & Hno & _) | (Hw & Hfw)].
      * destruct (Hno line s Hin Hf).
      * destruct (symbol_cases s w Hs Hw) as [-> | ->]; [reflexivity|].
        destruct Hfw as (pre & l & post & EW & Hfl & _).
        destruct (Hother l); [|assumption].
        rewrite EW. apply in_app_iff. right. now left.
    + destruct Hc as [Hno _]. destruct (Hno line s Hin Hf).
  - split.
    + intros [= E]. rewrite E in Hc.
      destruct Hc as [(_ & Hno & Hfull) | ([?|?] & _)]; try discriminate.
      split; [|assumption].
      intros i Hi. apply In_empty_cells in Hi. now rewrite Hfull in Hi.
    + intros [Hfull Hno]. apply no_line_won_find in Hno.
      unfold verdict. rewrite Hno.
      now rewrite (proj2 (full_no_empty b) Hfull).
  - split.
    + intros [= E]. rewrite E in Hc. destruct Hc as [Hno Hcells].
      split; [|assumption].
      destruct (empty_cells b) as [|m rest] eqn:Ec; [congruence|].
      exists m. apply In_empty_cells. rewrite Ec. now left.
    + intros [Hsome Hno]. apply no_line_won_find in Hno.
      unfold verdict. rewrite Hno.
      now rewrite (proj2 (has_empty_spec b) Hsome).
  - destruct (verdict b WIN_LINES) as [w|]; [|now right; right].
    destruct Hc as [(-> & _) | (Hw & _)]; [now right; left|].
    left. exists w. auto.
  - reflexivity.
Qed.

Lemma check_winner_correct_witness :
  check_winner scenario_4_board = Ok (Some "D")
  <-> (forall i, scenario_4_board !! i <> Some " ") /\ no_line_won scenario_4_board.
Proof.
  exact (proj1 (proj2 (proj2 (proj2 (check_winner_correct scenario_4_board
                                       valid_scenario_4))))).
Defined.

(** ** The search: restoration, base case, termination, statelessness *)

Lemma minimax_returns (b : board) (p mp : string) (alpha beta : num) :
  (9 <= length b)%nat -> p <> " " ->
  exists a, minimax b p mp alpha beta = (b, Ok a).
Proof.
  intros Hlen Hp.
  destruct (minimax_good b p mp alpha beta Hlen Hp) as (a & E & _). eauto.
Qed.

Lemma best_move_for_ai_board (k : nat) (b : board) (ai_symbol : string) :
  (9 <= length b)%nat ->
  exists l, best_moves_for_ai b ai_symbol = (b, Ok l)
            /\ best_move_for_ai k b ai_symbol = (b, random_choice k l).
Proof.
  intros Hlen. rewrite best_move_for_ai_eq.
  rewrite (best_moves_filter b ai_symbol Hlen). eauto.
Qed.

(** C3. Whenever [minimax] or [best_move_for_ai] returns, on any board
    whatever, with any player, maximizing symbol, window and draw, and
    however deep the recursion went, the board is element for element
    the board that was passed in; and on a 9-cell board both do return
    and leave the board as it was (for [best_move_for_ai] also when
    [random.choice] finds nothing to choose from). *)
Theorem board_restored (b : board) (p mp ai_symbol : string)
    (alpha beta : num) (k fuel : nat) :
  (forall b' a, minimax_fuel fuel p mp alpha beta b = (b', Ok a) -> b' = b)
  /\ (forall b' a, minimax b p mp alpha beta = (b', Ok a) -> b' = b)
  /\ (forall b' m, best_move_for_ai k b ai_symbol = (b', Ok m) -> b' = b)
  /\ (length b = 9%nat -> p <> " " ->
      exists a, minimax b p mp alpha beta = (b, Ok a))
  /\ (length b = 9%nat -> fst (best_move_for_ai k b ai_symbol) = b).
Proof.
  split; [|split; [|split; [|split]]].
  - intros b' a. apply minimax_fuel_restoring.
  - intros b' a. apply minimax_restoring.
  - intros b' m. rewrite best_move_for_ai_eq.
    destruct (best_moves_for_ai b ai_symbol) as [b1 [l| e |]] eqn:E;
      try discriminate.
    intros [= <- _]. unfold best_moves_for_ai in E.
    now apply best_loop_restoring in E; [|apply Forall_available].
  - intros Hlen Hp. apply minimax_returns; [lia | assumption].
  - intros Hlen.
    destruct (best_move_for_ai_board k b ai_symbol) as (l & _ & ->); [lia|].
    reflexivity.
Qed.

Lemma board_restored_witness :
  exists a, minimax scenario_2_board "O" "X" NInf PInf = (scenario_2_board, Ok a).
Proof.
  destruct (board_restored scenario_2_board "O" "X" "X" NInf PInf 0 0)
    as (_ & _ & _ & H & _).
  apply H; [reflexivity | discriminate].
Defined.

(** C5. On a board where the game is over, whoever is to move and
    whatever the window, [minimax] returns [(0, None)] for a draw,
    [(+1, None)] when the winner is the maximizing symbol and
    [(-1, None)] otherwise; the board is not touched. *)
Theorem minimax_terminal (b : board) (p mp w : string) (alpha beta : num) :
  check_winner b = Ok (Some w) ->
  (w = "D" -> minimax b p mp alpha beta = (b, Ok (Int 0, None)))
  /\ (w <> "D" -> w = mp -> minimax b p mp alpha beta = (b, Ok (Int 1, None)))
  /\ (w <> "D" -> w <> mp ->
      minimax b p mp alpha beta = (b, Ok (Int (-1), None))).
Proof.
  intros Hc.
  assert (minimax b p mp alpha beta = (b, Ok (terminal_answer w mp))) as ->.
  { unfold minimax. destruct (count_empty b); simpl; now rewrite Hc. }
  unfold terminal_answer. split; [|split].
  - intros ->. reflexivity.
  - intros HD ->. apply String.eqb_neq in HD. rewrite HD.
    now rewrite String.eqb_refl.
  - intros HD Hmp. apply String.eqb_neq in HD, Hmp. now rewrite HD, Hmp.
Qed.

Lemma minimax_terminal_witness :
  minimax scenario_4_board "X" "O" NInf PInf
  = (scenario_4_board, Ok (Int 0, None))
  /\ minimax two_lines_board "O" "X" NInf PInf
     = (two_lines_board, Ok (Int 1, None))
  /\ minimax two_lines_board "O" "O" NInf PInf
     = (two_lines_board, Ok (Int (-1), None)).
Proof.
  split; [|split].
  - apply (minimax_terminal scenario_4_board "X" "O" "D" NInf PInf);
      reflexivity.
  - apply (minimax_terminal two_lines_board "O" "X" "X" NInf PInf);
      [reflexivity | discriminate | reflexivity].
  - apply (minimax_terminal two_lines_board "O" "O" "X" NInf PInf);
      [reflexivity | discriminate | discriminate].
Defined.

(** C7. [minimax] terminates on every 9-cell board: there are at most 9
    Empty cells, the call returns with a recursion no deeper than their
    number, and more fuel changes nothing.  Every recursive call is made
    on a board with exactly one Empty cell less: such is the board that
    each move builds, and the two loops consult the recursion on no
    other board, for they run alike with any two recursions that agree
    on the boards with fewer Empty cells. *)
Theorem minimax_terminates (b : board) (p mp : string) (alpha beta : num) :
  length b = 9%nat -> p <> " " ->
  (count_empty b <= 9)%nat
  /\ (exists a, minimax_fuel (count_empty b) p mp alpha beta b = (b, Ok a))
  /\ (forall fuel, (count_empty b <= fuel)%nat ->
        minimax_fuel fuel p mp alpha beta b = minimax b p mp alpha beta)
  /\ (forall m, In m (available_moves b) ->
        S (count_empty (<[m:=p]> b)) = count_empty b)
  /\ (forall recur recur' : num -> num -> M answer,
        (forall a b0 b1, (count_empty b1 < count_empty b)%nat ->
                         recur a b0 b1 = recur' a b0 b1) ->
        (forall a b0, restoring (recur a b0)) ->
        forall value best_move,
          max_loop recur p (available_moves b) value best_move alpha beta b
          = max_loop recur' p (available_moves b) value best_move alpha beta b
          /\ min_loop recur p (available_moves b) value best_move alpha beta b
             = min_loop recur' p (available_moves b) value best_move alpha beta b).
Proof.
  intros Hlen Hp. split; [|split; [|split; [|split]]].
  - rewrite <- Hlen. apply count_empty_le_length.
  - apply (minimax_returns b p mp alpha beta); [lia | assumption].
  - intros fuel Hfuel. apply minimax_fuel_stable; [lia | assumption | assumption].
  - intros m Hm. apply count_empty_insert; [assumption | now apply In_available].
  - intros recur recur' Hagree Hrest value best_move.
    assert (forall m, In m (available_moves b) -> forall a b0,
               recur a b0 (<[m:=p]> b) = recur' a b0 (<[m:=p]> b)) as Hch.
    { intros m Hm a b0. apply Hagree. apply In_available in Hm.
      pose proof (count_empty_insert b m p Hp Hm). lia. }
    split; [apply max_loop_local | apply min_loop_local];
      try assumption; apply Forall_available.
Qed.

Lemma minimax_terminates_witness :
  exists a, minimax_fuel (count_empty scenario_2_board) "O" "X" NInf PInf
              scenario_2_board
            = (scenario_2_board, Ok a).
Proof.
  destruct (minimax_terminates scenario_2_board "O" "X" NInf PInf)
    as (_ & H & _); [reflexivity | discriminate | exact H].
Defined.

(** C9. [minimax] keeps no state: a call made on the board object that
    an earlier call, with any arguments, has searched returns what it
    returns when made first, and leaves the same board; the result is a
    function of the board contents, the player, the maximizing symbol
    and the window alone. *)
Theorem minimax_stateless (b : board) (p mp p0 mp0 : string)
    (alpha beta alpha0 beta0 : num) (fuel fuel0 : nat) :
  (forall b1 a0,
      minimax_fuel fuel0 p0 mp0 alpha0 beta0 b = (b1, Ok a0) ->
      minimax_fuel fuel p mp alpha beta b1 = minimax_fuel fuel p mp alpha beta b)
  /\ (forall b1 a0,
         minimax b p0 mp0 alpha0 beta0 = (b1, Ok a0) ->
         minimax b1 p mp alpha beta = minimax b p mp alpha beta)
  /\ (length b = 9%nat -> p <> " " -> p0 <> " " ->
      exists a0 a,
        minimax b p0 mp0 alpha0 beta0 = (b, Ok a0)
        /\ minimax (fst (minimax b p0 mp0 alpha0 beta0)) p mp alpha beta
           = (b, Ok a)
        /\ minimax b p mp alpha beta = (b, Ok a)).
Proof.
  split; [|split].
  - intros b1 a0 E. apply minimax_fuel_restoring in E. now subst b1.
  - intros b1 a0 E. apply minimax_restoring in E. now subst b1.
  - intros Hlen Hp Hp0.
    destruct (minimax_returns b p0 mp0 alpha0 beta0) as (a0 & E0);
      [lia | assumption |].
    destruct (minimax_returns b p mp alpha beta) as (a & E);
      [lia | assumption |].
    exists a0, a. rewrite E0. simpl. auto.
Qed.

Lemma minimax_stateless_witness :
  minimax (fst (minimax scenario_2_board "O" "X" NInf PInf)) "X" "X" NInf PInf
  = minimax scenario_2_board "X" "X" NInf PInf.
Proof.
  destruct (minimax_stateless scenario_2_board "X" "X" "O" "X" NInf PInf NInf PInf
              0 0)
    as (_ & _ & H).
  destruct H as (a0 & a & E0 & E1 & E2); [reflexivity | discriminate..|].
  now rewrite E1, E2.
Defined.

(** C10. On every 9-cell board over Empty, X and O, for either player
    and any maximizing symbol and window, [minimax] returns a score out
    of [-1], [0], [1], never an infinity; the move is [None] exactly
    when the game is over, and otherwise an Empty cell of the board. *)
Theorem minimax_score_and_move (b : board) (p mp : string) (alpha beta : num) :
  valid_board b -> symbol p ->
  exists s mv,
    minimax b p mp alpha beta = (b, Ok (Int s, mv))
    /\ (s = (-1)%Z \/ s = 0%Z \/ s = 1%Z)
    /\ (mv = None <-> check_winner b <> Ok None)
    /\ (check_winner b = Ok None ->
        exists m, mv = Some m /\ b !! m = Some " " /\ In m (available_moves b)).
Proof.
  intros [Hlen _] Hp.
  destruct (minimax_good b p mp alpha beta) as ([v mv] & E & (s & Es & Hs) & Hmv);
    [lia | now apply symbol_not_empty |].
  simpl in Es, Hmv. subst v. exists s, mv.
  rewrite check_winner_verdict by lia.
  split; [exact E|]. split; [lia|].
  destruct (verdict b WIN_LINES) as [w|].
  - split; [split; [discriminate | intros _; exact Hmv] | discriminate].
  - destruct Hmv as (m & -> & Hm). split.
    + split; [discriminate | intros H; now destruct H].
    + intros _. exists m. repeat split; [assumption | now apply In_available].
Qed.

Lemma minimax_score_and_move_witness :
  exists s mv,
    minimax scenario_2_board "X" "X" NInf PInf = (scenario_2_board, Ok (Int s, mv))
    /\ (s = (-1)%Z \/ s = 0%Z \/ s = 1%Z)
    /\ (mv = None <-> check_winner scenario_2_board <> Ok None)
    /\ (check_winner scenario_2_board = Ok None ->
        exists m, mv = Some m /\ scenario_2_board !! m = Some " "
                  /\ In m (available_moves scenario_2_board)).
Proof.
  apply (minimax_score_and_move scenario_2_board "X" "X" NInf PInf
           valid_scenario_2 (or_introl eq_refl)).
Defined.

(** ** The candidates of [best_move_for_ai] *)

Lemma fold_top_upper (sc : nat -> num) (moves : list nat) (acc : num) (m : nat) :
  (forall x, bounded (sc x)) -> bounded acc -> In m moves ->
  (rank (sc m) <= rank (fold_top sc moves acc))%Z.
Proof.
  intros Hsc. revert acc. induction moves as [|x rest IH]; intros acc Hacc Hin;
    [destruct Hin|]. simpl.
  pose proof (bounded_num_max _ _ Hacc (Hsc x)) as Hb.
  destruct Hin as [-> | Hin]; [|now apply IH].
  destruct (fold_top_bounded sc Hsc rest _ Hb) as [_ H].
  rewrite rank_num_max in H by auto. lia.
Qed.

(** The largest score of a move is the value of the position. *)
Lemma top_score_position (b : board) (ai : string) :
  valid_board b -> check_winner b = Ok None -> symbol ai ->
  top_score (move_score b ai) (available_moves b)
  = Int (position_value b ai ai).
Proof.
  intros Hv Hc Hai. destruct (check_winner_none b Hv Hc) as [Hno Hne].
  pose proof (symbol_not_empty _ Hai) as Hai'.
  pose proof (symbol_not_empty _ (symbol_other _ Hai)) as Hoth.
  rewrite available_empty_cells.
  rewrite (top_score_values _
             (fun m => position_value (<[m:=ai]> b) (other ai) ai));
    [|assumption|].
  - rewrite (position_value_step b ai ai) by
        (try apply no_line_won_wins; assumption).
    cbv zeta. now rewrite String.eqb_refl.
  - intros m Hm. apply In_empty_cells in Hm. now apply move_score_value.
Qed.

(** C4. On every valid board where the game goes on, and for both
    symbols, the list [best_moves] holds exactly the available moves
    whose score is the largest score of an available move, every tie
    included and none twice; these are exactly the moves that keep the
    game-theoretic value of the position.  [best_move_for_ai] returns
    the entry of that list at the index the generator draws, and each
    candidate is returned for exactly one index: a uniform draw of the
    index is a uniform choice among the candidates.  From the empty
    board all nine openings are candidates, the four corners and the
    center among them. *)
Theorem best_moves_are_the_ties :
  (forall (b : board) (ai_symbol : string),
      valid_board b -> check_winner b = Ok None -> symbol ai_symbol ->
      exists l top,
        best_moves_for_ai b ai_symbol = (b, Ok l)
        /\ (forall m, In m l
                      <-> In m (available_moves b)
                          /\ move_score b ai_symbol m = top)
        /\ (forall m, In m (available_moves b) ->
                      num_le (move_score b ai_symbol m) top = true)
        /\ (exists m, In m (available_moves b) /\ move_score b ai_symbol m = top)
        /\ List.NoDup l
        /\ (forall k, best_move_for_ai k b ai_symbol = (b, random_choice k l))
        /\ (forall m, In m l ->
              exists k, (k < length l)%nat /\ random_choice k l = Ok m
                        /\ forall k', random_choice k' l = Ok m -> k' = k)
        /\ (forall m, In m l
                      <-> b !! m = Some " "
                          /\ position_value (<[m:=ai_symbol]> b) (other ai_symbol)
                               ai_symbol
                             = position_value b ai_symbol ai_symbol))
  /\ best_moves_for_ai fresh_board "X"
     = (fresh_board, Ok [0; 1; 2; 3; 4; 5; 6; 7; 8]%nat)
  /\ best_moves_for_ai fresh_board "O"
     = (fresh_board, Ok [0; 1; 2; 3; 4; 5; 6; 7; 8]%nat).
Proof.
  split; [|split; vm_compute; reflexivity].
  intros b ai_symbol Hv Hc Hai. pose proof Hv as [Hlen _].
  pose proof (move_score_bounded b ai_symbol ltac:(lia)) as Hsc.
  set (top := top_score (move_score b ai_symbol) (available_moves b)).
  set (l := List.filter (fun m => num_eqb (move_score b ai_symbol m) top)
                        (available_moves b)).
  assert (best_moves_for_ai b ai_symbol = (b, Ok l)) as El
    by (apply best_moves_filter; lia).
  assert (List.NoDup l) as Hnd by apply List.NoDup_filter, NoDup_available.
  exists l, top. split; [exact El|].
  split; [|split; [|split; [|split; [|split; [|split]]]]].
  - intros m. unfold l. rewrite List.filter_In, num_eqb_eq. reflexivity.
  - intros m Hm. rewrite num_le_rank; try apply Hsc.
    + apply Z.leb_le. now apply fold_top_upper.
    + apply fold_top_bounded; [exact Hsc | exact I].
  - destruct (optimal_move_exists b ai_symbol Hv Hc Hai) as (m & Hm & E).
    exists m. rewrite available_empty_cells. split; [assumption|].
    unfold top. rewrite top_score_position by assumption.
    destruct (check_winner_none b Hv Hc) as [Hno _].
    apply In_empty_cells in Hm.
    rewrite move_score_value by assumption. now rewrite E.
  - exact Hnd.
  - intros k. rewrite best_move_for_ai_eq. now rewrite El.
  - intros m Hm. apply list_elem_of_In, list_elem_of_lookup in Hm as [k Hk].
    exists k. split; [now apply lookup_lt_Some in Hk|].
    split.
    + unfold random_choice. rewrite Hk. now destruct l.
    + intros k' Hk'. apply random_choice_In in Hk' as [Hk' _].
      apply NoDup_ListNoDup in Hnd.
      apply (NoDup_lookup l k' k m Hnd Hk' Hk).
  - intros m. pose proof (best_moves_optimal b ai_symbol Hv Hc Hai) as Eo.
    rewrite El in Eo. injection Eo as ->.
    rewrite List.filter_In, In_empty_cells, Z.eqb_eq. reflexivity.
Qed.

Lemma best_moves_are_the_ties_witness :
  exists l top,
    best_moves_for_ai scenario_1_board "X" = (scenario_1_board, Ok l)
    /\ (forall m, In m l
                  <-> In m (available_moves scenario_1_board)
                      /\ move_score scenario_1_board "X" m = top)
    /\ (forall k, best_move_for_ai k scenario_1_board "X"
                  = (scenario_1_board, random_choice k l)).
Proof.
  destruct best_moves_are_the_ties as [H _].
  destruct (H scenario_1_board "X" valid_scenario_1 eq_refl (or_introl eq_refl))
    as (l & top & E & Hin & _ & _ & _ & Hk & _).
  exists l, top. auto.
Defined.

(** C6. On the board with X on 0 and 1 and O on 3 and 4 the moves 2, 5,
    6, 7, 8 score [1], [0], [-1], [-1], [-1] for X: the only candidate
    is 2, which completes the row 0-1-2, and [best_move_for_ai] returns
    2 whatever index the generator draws. *)
Theorem scenario_2_best_move :
  map (move_score scenario_2_board "X") (available_moves scenario_2_board)
  = [Int 1; Int 0; Int (-1); Int (-1); Int (-1)]
  /\ available_moves scenario_2_board = [2; 5; 6; 7; 8]%nat
  /\ best_moves_for_ai scenario_2_board "X" = (scenario_2_board, Ok [2%nat])
  /\ best_move_for_ai 0 scenario_2_board "X" = (scenario_2_board, Ok 2%nat)
  /\ (forall k b' m,
         best_move_for_ai k scenario_2_board "X" = (b', Ok m) -> m = 2%nat)
  /\ check_winner (<[2%nat:="X"]> scenario_2_board) = Ok (Some "X").
Proof.
  assert (best_moves_for_ai scenario_2_board "X" = (scenario_2_board, Ok [2%nat]))
    as E by (vm_compute; reflexivity).
  repeat split; try (vm_compute; reflexivity).
  intros k b' m. rewrite best_move_for_ai_eq, E.
  intros Hk. assert (random_choice k [2%nat] = Ok m) as Hr by congruence.
  apply random_choice_In in Hr as [_ [<- | []]]. reflexivity.
Qed.

Lemma scenario_2_best_move_witness : 2%nat = 2%nat.
Proof.
  destruct scenario_2_best_move as (_ & _ & _ & E & H & _).
  exact (H 0%nat scenario_2_board 2%nat E).
Defined.

(** ** The candidates of [best_move_for_ai] *)



(** [random.choice] returns the entry at the index drawn, or raises
    when there is none. *)
Lemma random_choice_cases (k : nat) (l : list nat) :
  match random_choice k l with
  | Ok m => l !! k = Some m
  | Raise e => e = IndexError /\ (length l <= k)%nat
  | OutOfFuel => False
  end.
Proof.
  unfold random_choice. destruct l as [|x l]; [cbn; split; [reflexivity | lia]|].
  destruct ((x :: l) !! k) as [m|] eqn:E; [reflexivity|].
  split; [reflexivity|]. now apply lookup_ge_None_1 in E.
Qed.

(** ** Errors inside the search *)











(** ** Boards that are not valid *)





(** * Further properties of the program *)

(** ** The board model *)

(** X1. [other] always answers X or O and never its argument; it undoes
    itself exactly on X and O (anything else is sent to X, and from
    there to O). *)
Theorem other_on_symbols (p : string) :
  symbol (other p) /\ other p <> p /\ (other (other p) = p <-> symbol p).
Proof.
  unfold other. destruct (String.eqb_spec p "X") as [-> | Hne].
  - simpl. split; [now right|]. split; [discriminate|].
    split; [now left | reflexivity].
  - simpl. split; [now left|]. split; [congruence|]. split.
    + intros <-. now right.
    + intros [-> | ->]; [now destruct Hne | reflexivity].
Qed.

Lemma other_on_symbols_witness : other (other "O") = "O" /\ other "Z" = "X".
Proof.
  split; [|reflexivity].
  apply (proj2 (proj2 (other_on_symbols "O"))). now right.
Defined.

Lemma StronglySorted_filter_seq (f : nat -> bool) (k n : nat) :
  StronglySorted lt (List.filter f (seq k n)).
Proof.
  revert k. induction n as [|n IH]; intros k; simpl; [constructor|].
  destruct (f k); [|apply IH]. constructor; [apply IH|].
  apply List.Forall_forall. intros x Hx.
  apply List.filter_In in Hx as [Hx _]. apply in_seq in Hx. lia.
Qed.

(** X2. [available_moves] lists the indices of the Empty cells, each
    once, in strictly ascending order and all within the board. *)
Theorem available_moves_ascending (b : board) :
  StronglySorted lt (available_moves b)
  /\ (forall m, In m (available_moves b) <-> b !! m = Some " ")
  /\ (forall m, In m (available_moves b) -> (m < length b)%nat).
Proof.
  split; [|split].
  - rewrite available_moves_seq. apply StronglySorted_filter_seq.
  - apply In_available.
  - intros m Hm. apply In_available in Hm. now apply lookup_lt_Some in Hm.
Qed.

Lemma available_moves_ascending_witness :
  (2 < length scenario_2_board)%nat.
Proof.
  destruct (available_moves_ascending scenario_2_board) as (_ & _ & H).
  apply H. simpl. now left.
Defined.

Lemma filter_all_true {A : Type} (f : A -> bool) (l : list A) :
  (forall x, In x l -> f x = true) -> List.filter f l = l.
Proof.
  intros H. induction l as [|x l IH]; simpl; [reflexivity|].
  rewrite (H x) by now left. f_equal. apply IH. intros y Hy. apply H. now right.
Qed.

(** X3. Writing a mark other than the Empty one into cell [m] takes
    [m], and nothing else, out of the available moves, whose order is
    kept; the count of Empty cells drops by one if the cell was Empty
    and stays the same if it was not (or does not exist). *)
Theorem available_moves_after_write (b : board) (m : nat) (p : string) :
  p <> " " ->
  available_moves (<[m:=p]> b)
  = List.filter (fun i => negb (i =? m)%nat) (available_moves b)
  /\ (b !! m = Some " " -> S (count_empty (<[m:=p]> b)) = count_empty b)
  /\ (b !! m <> Some " " -> available_moves (<[m:=p]> b) = available_moves b).
Proof.
  intros Hp. split; [now apply available_insert|]. split.
  - now apply count_empty_insert.
  - intros Hm. rewrite available_insert by assumption.
    apply filter_all_true. intros x Hx. apply In_available in Hx.
    destruct (Nat.eqb_spec x m) as [-> | _]; [contradiction | reflexivity].
Qed.

Lemma available_moves_after_write_witness :
  available_moves (<[2%nat:="X"]> scenario_2_board)
  = List.filter (fun i => negb (i =? 2)%nat) (available_moves scenario_2_board).
Proof.
  apply (available_moves_after_write scenario_2_board 2 "X"). discriminate.
Defined.

Lemma lookup_insert_other (b : board) (m i : nat) (p v : string) :
  i <> m -> <[m:=p]> b !! i = Some v -> b !! i = Some v.
Proof. intros Hne. now rewrite list_lookup_insert_ne by congruence. Qed.

(** X4. A move never loses the game for the player who makes it: after
    [p] has played an Empty cell of a valid board without a winner,
    [check_winner] reports [p], a draw or a game that goes on, never
    the opponent; and when it reports [p], the cell just played lies on
    a line that [p] fills. *)
Theorem mover_never_loses (b : board) (m : nat) (p : string) :
  valid_board b -> check_winner b = Ok None -> symbol p ->
  b !! m = Some " " ->
  check_winner (<[m:=p]> b) <> Ok (Some (other p))
  /\ (check_winner (<[m:=p]> b) = Ok (Some p)
      \/ check_winner (<[m:=p]> b) = Ok (Some "D")
      \/ check_winner (<[m:=p]> b) = Ok None)
  /\ (check_winner (<[m:=p]> b) = Ok (Some p) ->
      exists line, In line WIN_LINES /\ filled_with (<[m:=p]> b) p line
                   /\ (line.1.1 = m \/ line.1.2 = m \/ line.2 = m)).
Proof.
  intros Hv Hc Hp Hm. destruct (check_winner_none b Hv Hc) as [Hno _].
  pose proof (valid_board_insert b m p Hv Hp) as Hv'.
  pose proof Hv' as [Hlen' _].
  pose proof (verdict_cases _ Hv') as Hcases.
  assert (wins (<[m:=p]> b) (other p) = false) as Hopp.
  { apply move_one_winner; [assumption|]. apply no_line_won_wins; [|assumption].
    now apply symbol_not_empty, symbol_other. }
  rewrite check_winner_verdict by lia.
  assert (forall w, verdict (<[m:=p]> b) WIN_LINES = Some w -> symbol w ->
                    first_filled_with (<[m:=p]> b) w -> w = p) as Hwho.
  { intros w _ Hw Hf. destruct (symbol_cases p w Hp Hw) as [-> | ->];
      [reflexivity|].
    apply first_filled_wins in Hf; [congruence | now apply symbol_other]. }
  split; [|split].
  - intros [= E]. rewrite E in Hcases.
    destruct Hcases as [(Hd & _) | (Hw & Hf)].
    + apply (symbol_not_draw _ (symbol_other p Hp)). exact Hd.
    + apply (other_differs p Hp). now apply (Hwho _ E Hw).
  - destruct (verdict (<[m:=p]> b) WIN_LINES) as [w|] eqn:E; [|now right; right].
    destruct Hcases as [(-> & _) | (Hw & Hf)]; [now right; left|].
    left. now rewrite (Hwho w eq_refl Hw Hf).
  - intros [= E]. rewrite E in Hcases.
    destruct Hcases as [(Hd & _) | (_ & pre & line & post & EW & Hf & _)].
    + now apply symbol_not_draw in Hp.
    + assert (In line WIN_LINES) as Hin
        by (rewrite EW; apply in_app_iff; right; now left).
      exists line. split; [assumption|]. split; [assumption|].
      destruct (Nat.eq_dec line.1.1 m) as [|H1]; [now left|].
      destruct (Nat.eq_dec line.1.2 m) as [|H2]; [now right; left|].
      destruct (Nat.eq_dec line.2 m) as [|H3]; [now right; right|].
      exfalso. apply (Hno line p Hin).
      destruct Hf as (Hne & F1 & F2 & F3).
      repeat split; try assumption; eapply lookup_insert_other; eassumption.
Qed.

Lemma mover_never_loses_witness :
  check_winner (<[2%nat:="X"]> scenario_2_board) <> Ok (Some (other "X")).
Proof.
  apply (mover_never_loses scenario_2_board 2 "X" valid_scenario_2);
    [reflexivity | now left | reflexivity].
Defined.

Lemma line_test_true (b : board) (line : nat * nat * nat) :
  line_test b line = Ok true ->
  exists w, filled_with b w line /\ getitem b line.1.1 = Ok w.
Proof.
  destruct line as [[i j] k]. unfold line_test, filled_with, getitem. simpl.
  destruct (b !! i) as [x|]; [|discriminate].
  destruct (String.eqb_spec x " ") as [|Hx]; [discriminate|].
  destruct (b !! j) as [y|]; [|discriminate].
  destruct (String.eqb_spec x y) as [<-|]; [|discriminate].
  destruct (b !! k) as [z|]; [|discriminate].
  destruct (String.eqb_spec x z) as [<-|]; [|discriminate].
  intros _. exists x. auto.
Qed.

Lemma line_test_cases (b : board) (line : nat * nat * nat) :
  line_test b line = Ok true \/ line_test b line = Ok false
  \/ line_test b line = Raise IndexError.
Proof.
  destruct (line_test b line) as [[|]|[]|] eqn:E; auto.
  exfalso. destruct line as [[i j] k]. unfold line_test, getitem in E.
  destruct (b !! i); [|discriminate]. destruct (String.eqb _ " "); [discriminate|].
  destruct (b !! j); [|discriminate]. destruct (String.eqb _ _); [|discriminate].
  destruct (b !! k); discriminate.
Qed.

(** X5. On a board of fewer than seven cells [check_winner] never
    reports a draw or a game that goes on: it returns a symbol that
    fills the line 0-1-2 or the line 3-4-5, or raises [IndexError]. *)
Theorem check_winner_short_board (b : board) :
  (length b < 7)%nat ->
  check_winner b = Raise IndexError
  \/ exists w, check_winner b = Ok (Some w)
               /\ (filled_with b w (0, 1, 2)%nat \/ filled_with b w (3, 4, 5)%nat).
Proof.
  intros Hlen. unfold check_winner, WIN_LINES. cbn [check_lines].
  destruct (line_test_cases b (0, 1, 2)%nat) as [E | [E | E]]; rewrite E.
  - apply line_test_true in E as (w & Hf & Hg). cbn [fst] in *. simpl in Hg.
    rewrite Hg. right. exists w. auto.
  - destruct (line_test_cases b (3, 4, 5)%nat) as [E' | [E' | E']]; rewrite E'.
    + apply line_test_true in E' as (w & Hf & Hg). simpl in Hg.
      cbn [fst]. rewrite Hg. right. exists w. auto.
    + left. unfold line_test, getitem.
      now rewrite (lookup_ge_None_2 b 6) by lia.
    + now left.
  - now left.
Qed.

Lemma check_winner_short_board_witness :
  check_winner [" "; " "; " "] = Raise IndexError
  \/ exists w, check_winner [" "; " "; " "] = Ok (Some w)
               /\ (filled_with [" "; " "; " "] w (0, 1, 2)%nat
                   \/ filled_with [" "; " "; " "] w (3, 4, 5)%nat).
Proof. apply check_winner_short_board. simpl. lia. Defined.

(** ** The search *)

Lemma children_exact (n : nat) (b : board) (p me : string) :
  valid_board b -> no_line_won b -> symbol p -> symbol me ->
  count_empty b = S n ->
  exact_in_window (child_score n p me b)
    (fun m => game_value n (<[m:=p]> b) (other p) me) (available_moves b).
Proof.
  intros Hv Hno Hp Hme Hn m Hm a b0 Ha Hb0 Hab. apply In_available in Hm.
  destruct (minimax_fuel_exact n (other p) me a b0 (<[m:=p]> b))
    as (s & mv & E & Hs & Hbd); try assumption.
  - now apply valid_board_insert.
  - now apply move_keeps_one_winner.
  - now apply symbol_other.
  - pose proof (count_empty_insert b m p (symbol_not_empty _ Hp) Hm). lia.
  - exists s. unfold child_score. rewrite E. auto.
Qed.

Lemma num_max_idem_l a b :
  bounded a -> bounded b -> num_max a (num_max a b) = num_max a b.
Proof.
  intros Ha Hb. apply rank_inj; repeat apply bounded_num_max; try assumption.
  rewrite !rank_num_max by (repeat apply bounded_num_max; assumption). lia.
Qed.

Lemma num_min_idem_l a b :
  bounded a -> bounded b -> num_min a (num_min a b) = num_min a b.
Proof.
  intros Ha Hb. apply rank_inj; repeat apply bounded_num_min; try assumption.
  rewrite !rank_num_min by (repeat apply bounded_num_min; assumption). lia.
Qed.

(** With the default window nothing is pruned at the root, and the
    maximizing loop ends with the largest value and the first move that
    has it. *)
Lemma max_pure_root sc V moves :
  exact_in_window sc V moves ->
  (forall m, In m moves -> (-1 <= V m <= 1)%Z) ->
  forall value best_move,
    bounded value -> (rank value <= 1)%Z ->
    exists v',
      max_pure sc moves value best_move value PInf
      = (v', snd (first_max_from V moves (rank value) best_move))
      /\ bounded v' /\ (rank v' <= 1)%Z
      /\ rank v' = fst (first_max_from V moves (rank value) best_move).
Proof.
  induction moves as [|m rest IH]; intros Hsc HV value best_move Bv Hv.
  - exists value. simpl. auto.
  - cbn [max_pure first_max_from].
    destruct (Hsc m (or_introl eq_refl) value PInf Bv I) as (s & Es & Hs & Hb);
      [simpl; lia|].
    rewrite Es. pose proof (HV m (or_introl eq_refl)) as HVm.
    assert (bounded (Int s)) as Bs by exact Hs.
    change (if num_lt value (Int s) then Int s else value)
      with (num_max value (Int s)).
    rewrite num_max_idem_l by assumption.
    pose proof (bounded_num_max _ _ Bv Bs) as Bv'.
    pose proof (rank_num_max _ _ Bv Bs) as Ev'. simpl rank in Ev'.
    rewrite (num_le_rank PInf) by (try assumption; exact I).
    rewrite (proj2 (Z.leb_gt _ _)) by (simpl rank; lia).
    rewrite (num_lt_rank value (Int s)) by assumption. simpl rank.
    unfold bounds in Hb. simpl rank in Hb.
    destruct (IH (fun m' Hm' => Hsc m' (or_intror Hm'))
                (fun m' Hm' => HV m' (or_intror Hm'))
                (num_max value (Int s))
                (if (rank value <? s)%Z then Some m else best_move) Bv')
      as (v' & E & B' & R' & F'); [lia|].
    exists v'. rewrite E.
    destruct (Z.ltb_spec (rank value) s) as [H1|H1];
      destruct (Z.ltb_spec (rank value) (V m)) as [H2|H2]; try lia.
    + assert (rank (num_max value (Int s)) = V m) as Er by lia.
      rewrite Er in F' |- *. auto.
    + assert (rank (num_max value (Int s)) = rank value) as Er by lia.
      rewrite Er in F' |- *. auto.
Qed.

Lemma min_pure_root sc V moves :
  exact_in_window sc V moves ->
  (forall m, In m moves -> (-1 <= V m <= 1)%Z) ->
  forall value best_move,
    bounded value -> (-1 <= rank value)%Z ->
    exists v',
      min_pure sc moves value best_move NInf value
      = (v', snd (first_min_from V moves (rank value) best_move))
      /\ bounded v' /\ (-1 <= rank v')%Z
      /\ rank v' = fst (first_min_from V moves (rank value) best_move).
Proof.
  induction moves as [|m rest IH]; intros Hsc HV value best_move Bv Hv.
  - exists value. simpl. auto.
  - cbn [min_pure first_min_from].
    destruct (Hsc m (or_introl eq_refl) NInf value I Bv) as (s & Es & Hs & Hb);
      [simpl; lia|].
    rewrite Es. pose proof (HV m (or_introl eq_refl)) as HVm.
    assert (bounded (Int s)) as Bs by exact Hs.
    change (if num_lt (Int s) value then Int s else value)
      with (num_min value (Int s)).
    rewrite num_min_idem_l by assumption.
    pose proof (bounded_num_min _ _ Bv Bs) as Bv'.
    pose proof (rank_num_min _ _ Bv Bs) as Ev'. simpl rank in Ev'.
    rewrite (num_le_rank _ NInf) by (try assumption; exact I).
    rewrite (proj2 (Z.leb_gt _ _)) by (simpl rank; lia).
    rewrite (num_lt_rank (Int s) value) by assumption. simpl rank.
    unfold bounds in Hb. simpl rank in Hb.
    destruct (IH (fun m' Hm' => Hsc m' (or_intror Hm'))
                (fun m' Hm' => HV m' (or_intror Hm'))
                (num_min value (Int s))
                (if (s <? rank value)%Z then Some m else best_move) Bv')
      as (v' & E & B' & R' & F'); [lia|].
    exists v'. rewrite E.
    destruct (Z.ltb_spec s (rank value)) as [H1|H1];
      destruct (Z.ltb_spec (V m) (rank value)) as [H2|H2]; try lia.
    + assert (rank (num_min value (Int s)) = V m) as Er by lia.
      rewrite Er in F' |- *. auto.
    + assert (rank (num_min value (Int s)) = rank value) as Er by lia.
      rewrite Er in F' |- *. auto.
Qed.

Lemma fold_max_le_acc (vs : list Z) (v : Z) : (v <= fold_left Z.max vs v)%Z.
Proof.
  revert v. induction vs as [|x vs IH]; intros v; simpl; [lia|].
  specialize (IH (Z.max v x)). lia.
Qed.

Lemma fold_min_ge_acc (vs : list Z) (v : Z) : (fold_left Z.min vs v <= v)%Z.
Proof.
  revert v. induction vs as [|x vs IH]; intros v; simpl; [lia|].
  specialize (IH (Z.min v x)). lia.
Qed.

Lemma first_max_spec V moves :
  forall v best_move,
    first_max_from V moves v best_move
    = (fold_left Z.max (map V moves) v,
       if (v <? fold_left Z.max (map V moves) v)%Z
       then List.find (fun m => (V m =? fold_left Z.max (map V moves) v)%Z) moves
       else best_move).
Proof.
  induction moves as [|m rest IH]; intros v bm.
  - simpl. now rewrite Z.ltb_irrefl.
  - cbn [first_max_from map fold_left List.find].
    pose proof (fold_max_le_acc (map V rest) (Z.max v (V m))) as Hge.
    destruct (Z.ltb_spec v (V m)) as [H|H].
    + rewrite IH. replace (Z.max v (V m)) with (V m) in * by lia.
      f_equal. rewrite (proj2 (Z.ltb_lt v _)) by lia.
      destruct (Z.ltb_spec (V m) (fold_left Z.max (map V rest) (V m))) as [H1|H1].
      * now rewrite (proj2 (Z.eqb_neq _ _)) by lia.
      * now rewrite (proj2 (Z.eqb_eq _ _)) by lia.
    + rewrite IH. replace (Z.max v (V m)) with v in * by lia.
      f_equal.
      destruct (Z.ltb_spec v (fold_left Z.max (map V rest) v)) as [H1|H1];
        [|reflexivity].
      now rewrite (proj2 (Z.eqb_neq _ _)) by lia.
Qed.

Lemma first_min_spec V moves :
  forall v best_move,
    first_min_from V moves v best_move
    = (fold_left Z.min (map V moves) v,
       if (fold_left Z.min (map V moves) v <? v)%Z
       then List.find (fun m => (V m =? fold_left Z.min (map V moves) v)%Z) moves
       else best_move).
Proof.
  induction moves as [|m rest IH]; intros v bm.
  - simpl. now rewrite Z.ltb_irrefl.
  - cbn [first_min_from map fold_left List.find].
    pose proof (fold_min_ge_acc (map V rest) (Z.min v (V m))) as Hge.
    destruct (Z.ltb_spec (V m) v) as [H|H].
    + rewrite IH. replace (Z.min v (V m)) with (V m) in * by lia.
      f_equal. rewrite (proj2 (Z.ltb_lt _ v)) by lia.
      destruct (Z.ltb_spec (fold_left Z.min (map V rest) (V m)) (V m)) as [H1|H1].
      * now rewrite (proj2 (Z.eqb_neq _ _)) by lia.
      * now rewrite (proj2 (Z.eqb_eq _ _)) by lia.
    + rewrite IH. replace (Z.min v (V m)) with v in * by lia.
      f_equal.
      destruct (Z.ltb_spec (fold_left Z.min (map V rest) v) v) as [H1|H1];
        [|reflexivity].
      now rewrite (proj2 (Z.eqb_neq _ _)) by lia.
Qed.

Lemma find_ext_in {A : Type} (f g : A -> bool) (l : list A) :
  (forall x, In x l -> f x = g x) -> List.find f l = List.find g l.
Proof.
  induction l as [|x l IH]; intros H; simpl; [reflexivity|].
  rewrite (H x) by now left. destruct (g x); [reflexivity|].
  apply IH. intros y Hy. apply H. now right.
Qed.

Lemma find_head_filter {A : Type} (f : A -> bool) (l : list A) :
  List.find f l = head (List.filter f l).
Proof.
  induction l as [|x l IH]; simpl; [reflexivity|]. now destruct (f x).
Qed.

Lemma child_value_position (n : nat) (b : board) (p me : string) (m : nat) :
  p <> " " -> count_empty b = S n -> b !! m = Some " " ->
  game_value n (<[m:=p]> b) (other p) me
  = position_value (<[m:=p]> b) (other p) me.
Proof.
  intros Hp Hn Hm. unfold position_value. f_equal.
  pose proof (count_empty_insert b m p Hp Hm) as Hc.
  rewrite <- count_empty_cells. lia.
Qed.

(** With the default window, on a position where the game goes on,
    [minimax] returns the value of the position and the first move
    that keeps it. *)
Lemma minimax_at_root (b : board) (p me : string) :
  valid_board b -> check_winner b = Ok None -> symbol p -> symbol me ->
  minimax b p me NInf PInf
  = (b, Ok (Int (position_value b p me), first_optimal b p me)).
Proof.
  intros Hv Hc Hp Hme. destruct (check_winner_none b Hv Hc) as [Hno Hne].
  pose proof Hv as [Hlen _].
  pose proof (symbol_not_empty _ Hp) as Hpne.
  destruct (count_empty b) as [|n] eqn:En.
  { rewrite count_empty_cells in En. now destruct (empty_cells b). }
  unfold minimax. rewrite En. simpl minimax_fuel. rewrite Hc.
  destruct (children_good n p me b) as [Hret _]; try lia; try assumption.
  pose proof (children_exact n b p me Hv Hno Hp Hme En) as Hex.
  set (V := fun m => game_value n (<[m:=p]> b) (other p) me) in *.
  assert (forall m, In m (available_moves b) -> (-1 <= V m <= 1)%Z) as HV
    by (intros; apply game_value_range).
  assert (forall m, In m (available_moves b) ->
                    V m = position_value (<[m:=p]> b) (other p) me) as HVpv.
  { intros m Hm. apply In_available in Hm. now apply child_value_position. }
  pose proof (position_value_step b p me Hpne) as Hstep. cbv zeta in Hstep.
  rewrite !no_line_won_wins in Hstep
    by (try apply symbol_not_empty; try apply symbol_other; assumption).
  specialize (Hstep eq_refl eq_refl Hne).
  rewrite <- available_empty_cells in Hstep, Hne.
  rewrite <- (map_ext_in _ _ _ HVpv) in Hstep.
  pose proof (position_value_range_aux := game_value_range).
  unfold first_optimal.
  rewrite <- (find_ext_in
                (fun m => (V m =? position_value b p me)%Z) _ (available_moves b))
    by (intros m Hm; now rewrite HVpv).
  pose proof (Forall_available b) as Hfa.
  destruct (available_moves b) as [|m0 rest] eqn:Em; [congruence|].
  destruct (String.eqb p me).
  - rewrite (max_loop_pure _ _ _ _ _ Hfa Hret).
    destruct (max_pure_root _ V (m0 :: rest) Hex HV NInf None I)
      as (v' & E & B' & _ & F'); [simpl; lia|].
    rewrite E. rewrite first_max_spec in F' |- *. cbn [fst snd] in F' |- *.
    simpl rank in F' |- *.
    assert (fold_left Z.max (map V (m0 :: rest)) (-2)%Z = position_value b p me)
      as Ef.
    { rewrite Hstep. cbn [map fold_left best_of]. f_equal.
      pose proof (HV m0 (or_introl eq_refl)). lia. }
    rewrite Ef in F' |- *.
    pose proof (position_value_range_aux (length (empty_cells b)) b p me) as Hr.
    fold (position_value b p me) in Hr.
    rewrite (proj2 (Z.ltb_lt _ _)) by lia.
    assert (v' = Int (position_value b p me)) as ->
      by (apply rank_inj; [assumption | exact Hr | exact F']).
    reflexivity.
  - rewrite (min_loop_pure _ _ _ _ _ Hfa Hret).
    destruct (min_pure_root _ V (m0 :: rest) Hex HV PInf None I)
      as (v' & E & B' & _ & F'); [simpl; lia|].
    rewrite E. rewrite first_min_spec in F' |- *. cbn [fst snd] in F' |- *.
    simpl rank in F' |- *.
    assert (fold_left Z.min (map V (m0 :: rest)) 2%Z = position_value b p me)
      as Ef.
    { rewrite Hstep. cbn [map fold_left best_of]. f_equal.
      pose proof (HV m0 (or_introl eq_refl)). lia. }
    rewrite Ef in F' |- *.
    pose proof (position_value_range_aux (length (empty_cells b)) b p me) as Hr.
    fold (position_value b p me) in Hr.
    rewrite (proj2 (Z.ltb_lt _ _)) by lia.
    assert (v' = Int (position_value b p me)) as ->
      by (apply rank_inj; [assumption | exact Hr | exact F']).
    reflexivity.
Qed.

Lemma minimax_at_end (b : board) (p me w : string) (alpha beta : num) :
  valid_board b -> one_winner b -> symbol me ->
  check_winner b = Ok (Some w) ->
  minimax b p me alpha beta = (b, Ok (Int (position_value b p me), None)).
Proof.
  intros Hv Hone Hme Hc. pose proof Hv as [Hlen _].
  assert (minimax b p me alpha beta = (b, Ok (terminal_answer w me))) as ->
    by (unfold minimax; destruct (count_empty b); simpl; now rewrite Hc).
  rewrite check_winner_verdict in Hc by lia. injection Hc as Hc.
  now rewrite (terminal_exact (length (empty_cells b)) b p me w Hv Hone Hme Hc).
Qed.

(** X6. Alpha-beta pruning is sound: on every valid board on which at
    most one symbol has a line, and for every window whose bounds are
    infinities or scores with [alpha < beta], the score that [minimax]
    returns is the value of the position whenever that value lies
    strictly inside the window; a value at or below [alpha] gives a
    score at or below [alpha], a value at or above [beta] a score at
    or above [beta]. *)
Theorem minimax_window_sound (b : board) (p me : string) (alpha beta : num) :
  valid_board b -> one_winner b -> symbol p -> symbol me ->
  bounded alpha -> bounded beta -> (rank alpha < rank beta)%Z ->
  exists s mv,
    minimax b p me alpha beta = (b, Ok (Int s, mv))
    /\ (-1 <= s <= 1)%Z
    /\ ((position_value b p me <= rank alpha)%Z -> (s <= rank alpha)%Z)
    /\ ((rank alpha < position_value b p me < rank beta)%Z ->
        s = position_value b p me)
    /\ ((rank beta <= position_value b p me)%Z -> (rank beta <= s)%Z).
Proof.
  intros Hv Hone Hp Hme Ba Bb Hab.
  destruct (minimax_fuel_exact (count_empty b) p me alpha beta b)
    as (s & mv & E & Hs & Hb); try assumption; try reflexivity.
  exists s, mv. split; [exact E|]. split; [exact Hs|].
  unfold position_value. rewrite <- count_empty_cells. exact Hb.
Qed.

Lemma minimax_window_sound_witness :
  exists s mv,
    minimax scenario_2_board "O" "X" (Int 0) PInf = (scenario_2_board, Ok (Int s, mv))
    /\ (-1 <= s <= 1)%Z
    /\ ((position_value scenario_2_board "O" "X" <= rank (Int 0))%Z ->
        (s <= rank (Int 0))%Z)
    /\ ((rank (Int 0) < position_value scenario_2_board "O" "X" < rank PInf)%Z ->
        s = position_value scenario_2_board "O" "X")
    /\ ((rank PInf <= position_value scenario_2_board "O" "X")%Z ->
        (rank PInf <= s)%Z).
Proof.
  apply (minimax_window_sound scenario_2_board "O" "X" (Int 0) PInf
           valid_scenario_2).
  - left. reflexivity.
  - now right.
  - now left.
  - simpl. lia.
  - exact I.
  - simpl. lia.
Defined.

(** X7. With the default window [minimax] is exact, for either player
    and either maximizing symbol: it returns the game-theoretic value
    of the position, with no move when the game is over and otherwise
    with the first available move, in ascending order, that leads to a
    position of the same value.  When the player to move is the
    maximizing symbol that move is the first of the candidates of
    [best_move_for_ai]. *)
Theorem minimax_default_window (b : board) (p me : string) :
  valid_board b -> one_winner b -> symbol p -> symbol me ->
  (forall w, check_winner b = Ok (Some w) ->
             minimax b p me NInf PInf
             = (b, Ok (Int (position_value b p me), None)))
  /\ (check_winner b = Ok None ->
      minimax b p me NInf PInf
      = (b, Ok (Int (position_value b p me), first_optimal b p me))
      /\ exists m, first_optimal b p me = Some m /\ b !! m = Some " ")
  /\ (check_winner b = Ok None ->
      exists l, best_moves_for_ai b p = (b, Ok l)
                /\ snd (minimax b p p NInf PInf)
                   = Ok (Int (position_value b p p), head l)).
Proof.
  intros Hv Hone Hp Hme. split; [|split].
  - intros w Hc. now apply (minimax_at_end b p me w).
  - intros Hc. split; [now apply minimax_at_root|].
    pose proof (minimax_at_root b p me Hv Hc Hp Hme) as E.
    destruct (minimax_good b p me NInf PInf) as (a & Ea & _ & Hmv);
      [destruct Hv; lia | now apply symbol_not_empty |].
    rewrite check_winner_verdict in Hc by (destruct Hv; lia).
    injection Hc as Hc. rewrite Hc in Hmv. rewrite E in Ea.
    injection Ea as <-. exact Hmv.
  - intros Hc. eexists. split; [now apply best_moves_optimal|].
    rewrite (minimax_at_root b p p Hv Hc Hp Hp). cbn [snd]. do 3 f_equal.
    unfold first_optimal. rewrite available_empty_cells.
    apply find_head_filter.
Qed.

Lemma minimax_default_window_witness :
  minimax scenario_2_board "X" "X" NInf PInf
  = (scenario_2_board,
     Ok (Int (position_value scenario_2_board "X" "X"),
         first_optimal scenario_2_board "X" "X")).
Proof.
  destruct (minimax_default_window scenario_2_board "X" "X" valid_scenario_2)
    as (_ & H & _); [now left | now left | now left |].
  apply H. reflexivity.
Defined.

(** X8. The search is zero-sum: on a valid board on which at most one
    symbol has a line, the score that [minimax] returns with the default
    window for the maximizing symbol O is the negation of the score it
    returns for the maximizing symbol X. *)
Theorem minimax_zero_sum (b : board) (p : string) :
  valid_board b -> one_winner b -> symbol p ->
  exists s mvx mvo,
    minimax b p "X" NInf PInf = (b, Ok (Int s, mvx))
    /\ minimax b p "O" NInf PInf = (b, Ok (Int (- s), mvo)).
Proof.
  intros Hv Hone Hp. pose proof Hv as [Hlen _].
  pose proof (position_value_zero_sum b p "X" Hp (or_introl eq_refl) Hone) as Hz.
  change (other "X") with "O" in Hz.
  destruct (check_winner b) as [[w|]| |] eqn:Hc.
  - exists (position_value b p "X"), None, None. rewrite <- Hz.
    split; apply (minimax_at_end b p _ w); auto; [now left | now right].
  - exists (position_value b p "X"), (first_optimal b p "X"),
      (first_optimal b p "O"). rewrite <- Hz.
    split; apply minimax_at_root; auto; [now left | now right].
  - rewrite check_winner_verdict in Hc by lia. discriminate.
  - rewrite check_winner_verdict in Hc by lia. discriminate.
Qed.

Lemma minimax_zero_sum_witness :
  exists s mvx mvo,
    minimax scenario_2_board "O" "X" NInf PInf = (scenario_2_board, Ok (Int s, mvx))
    /\ minimax scenario_2_board "O" "O" NInf PInf
       = (scenario_2_board, Ok (Int (- s), mvo)).
Proof.
  apply (minimax_zero_sum scenario_2_board "O" valid_scenario_2);
    [now left | now right].
Defined.

(** ** The driver of the search *)



Lemma best_of_max_ge (vs : list Z) (x : Z) :
  In x vs -> (x <= best_of Z.max vs)%Z.
Proof.
  destruct vs as [|v vs]; [intros []|]. simpl. revert v x.
  induction vs as [|y vs IH]; intros v x Hin; simpl.
  - destruct Hin as [-> | []]. lia.
  - assert (Z.max v y <= fold_left Z.max vs (Z.max v y))%Z
      by (apply IH; now left).
    destruct Hin as [<- | [<- | Hin]]; [lia | lia | apply IH; now right].
Qed.

Lemma winner_has_line (b : board) (s : string) :
  valid_board b -> symbol s -> check_winner b = Ok (Some s) -> wins b s = true.
Proof.
  intros Hv Hs Hc. pose proof (verdict_cases b Hv) as Hcases.
  rewrite check_winner_verdict in Hc by (destruct Hv; lia).
  injection Hc as Hc. rewrite Hc in Hcases.
  destruct Hcases as [(Hd & _) | (_ & Hf)];
    [now apply symbol_not_draw in Hs | now apply first_filled_wins].
Qed.

(** A move is better for the mover than no other move. *)
Lemma own_move_value (b : board) (p : string) (m : nat) :
  valid_board b -> check_winner b = Ok None -> symbol p -> b !! m = Some " " ->
  (position_value (<[m:=p]> b) (other p) p <= position_value b p p)%Z.
Proof.
  intros Hv Hc Hp Hm. destruct (check_winner_none b Hv Hc) as [Hno Hcells].
  rewrite (position_value_step b p p);
    try apply no_line_won_wins; try apply symbol_not_empty;
    try apply symbol_other; try assumption.
  cbv zeta. rewrite String.eqb_refl. apply best_of_max_ge.
  apply in_map_iff. exists m. split; [reflexivity | now apply In_empty_cells].
Qed.

(** X10. A win at hand is never let go: when some move of the AI wins
    at once, the position is won, that move is one of the candidates
    of [best_move_for_ai], and every candidate leads to a position that
    is still won for the AI against any defence. *)
Theorem winning_move_is_candidate (b : board) (ai_symbol : string) (m : nat) :
  valid_board b -> check_winner b = Ok None -> symbol ai_symbol ->
  b !! m = Some " " ->
  check_winner (<[m:=ai_symbol]> b) = Ok (Some ai_symbol) ->
  position_value b ai_symbol ai_symbol = 1%Z
  /\ exists l, best_moves_for_ai b ai_symbol = (b, Ok l) /\ In m l
       /\ forall m', In m' l ->
            position_value (<[m':=ai_symbol]> b) (other ai_symbol) ai_symbol = 1%Z.
Proof.
  intros Hv Hc Hai Hm Hwin. destruct (check_winner_none b Hv Hc) as [Hno _].
  pose proof (valid_board_insert b m ai_symbol Hv Hai) as Hv'.
  pose proof (move_keeps_one_winner b m ai_symbol Hai Hno) as Hone'.
  assert (position_value (<[m:=ai_symbol]> b) (other ai_symbol) ai_symbol = 1%Z)
    as Hchild.
  { destruct (finished_value _ (other ai_symbol) ai_symbol ai_symbol
                Hv' Hone' Hai Hwin) as [(E & _) | [(_ & E) | (E & _)]].
    - now apply symbol_not_draw in Hai.
    - exact E.
    - symmetry in E. now apply other_differs in E. }
  pose proof (own_move_value b ai_symbol m Hv Hc Hai Hm) as Hle.
  pose proof (game_value_range (length (empty_cells b)) b ai_symbol ai_symbol)
    as Hr. fold (position_value b ai_symbol ai_symbol) in Hr.
  assert (position_value b ai_symbol ai_symbol = 1%Z) as Hval by lia.
  split; [exact Hval|].
  eexists. split; [now apply best_moves_optimal|]. split.
  - apply List.filter_In. split; [now apply In_empty_cells|].
    apply Z.eqb_eq. lia.
  - intros m' Hin. apply List.filter_In in Hin as [_ E].
    apply Z.eqb_eq in E. lia.
Qed.

Lemma winning_move_is_candidate_witness :
  position_value scenario_2_board "X" "X" = 1%Z
  /\ exists l, best_moves_for_ai scenario_2_board "X" = (scenario_2_board, Ok l)
       /\ In 2%nat l
       /\ forall m', In m' l ->
            position_value (<[m':="X"]> scenario_2_board) (other "X") "X" = 1%Z.
Proof.
  apply (winning_move_is_candidate scenario_2_board "X" 2 valid_scenario_2);
    [reflexivity | now left | reflexivity | reflexivity].
Defined.

(** X11. A threat is answered unless the game is lost anyway: when the
    opponent could win at once by playing the cell [t], and the position
    is not lost for the AI, every candidate of [best_move_for_ai] is
    [t] itself or a move that wins at once.  (In a lost position all
    moves tie and the cell need not be blocked.) *)
Theorem threat_is_answered (b : board) (ai_symbol : string) (t m : nat)
    (l : list nat) :
  valid_board b -> check_winner b = Ok None -> symbol ai_symbol ->
  b !! t = Some " " ->
  check_winner (<[t:=other ai_symbol]> b) = Ok (Some (other ai_symbol)) ->
  (0 <= position_value b ai_symbol ai_symbol)%Z ->
  best_moves_for_ai b ai_symbol = (b, Ok l) -> In m l ->
  m = t \/ check_winner (<[m:=ai_symbol]> b) = Ok (Some ai_symbol).
Proof.
  intros Hv Hc Hai Ht Hthreat Hval El Hin.
  set (o := other ai_symbol) in *.
  assert (symbol o) as Ho by now apply symbol_other.
  assert (o <> ai_symbol) as Hoa by now apply other_differs.
  destruct (check_winner_none b Hv Hc) as [Hno _].
  rewrite (best_moves_optimal b ai_symbol Hv Hc Hai) in El.
  injection El as <-. apply List.filter_In in Hin as [Hm Hcand].
  apply In_empty_cells in Hm. apply Z.eqb_eq in Hcand. fold o in Hcand.
  destruct (Nat.eq_dec m t) as [|Hmt]; [now left|]. right.
  set (c := <[m:=ai_symbol]> b) in *.
  pose proof (valid_board_insert b m ai_symbol Hv Hai) as Hvc. fold c in Hvc.
  pose proof Hvc as [Hlenc _].
  assert (c !! t = Some " ") as Hct
    by (unfold c; now rewrite list_lookup_insert_ne by assumption).
  pose proof (verdict_cases c Hvc) as Hcases.
  destruct (verdict c WIN_LINES) as [w|] eqn:Ev.
  - destruct Hcases as [(_ & _ & Hfull) | (Hw & Hf)].
    + apply In_empty_cells in Hct. rewrite Hfull in Hct. destruct Hct.
    + rewrite check_winner_verdict by lia. rewrite Ev. do 2 f_equal.
      destruct (symbol_cases ai_symbol w Hai Hw) as [-> | ->]; [reflexivity|].
      exfalso. apply first_filled_wins in Hf; [|assumption].
      pose proof (move_one_winner b m ai_symbol Hai
                    (no_line_won_wins b _ (symbol_not_empty _ Ho) Hno)) as Hopp.
      fold c o in Hopp, Hf. congruence.
  - exfalso. destruct Hcases as [Hnoc _].
    assert (check_winner c = Ok None) as Hcc
      by (rewrite check_winner_verdict by lia; now rewrite Ev).
    pose proof (opponent_move_value c o ai_symbol t Hvc Hcc Ho Hai Hoa Hct) as Hle.
    assert (position_value (<[t:=o]> c) (other o) ai_symbol = (-1)%Z) as Hlost.
    { apply position_value_over.
      - pose proof (move_one_winner c t o Ho) as H.
        assert (other o = ai_symbol) as Eo
          by (unfold o; now apply other_involutive).
        rewrite Eo in H. apply H. apply no_line_won_wins; [now apply symbol_not_empty | assumption].
      - fold o.
        pose proof (winner_has_line _ o (valid_board_insert b t o Hv Ho) Ho Hthreat)
          as Hw.
        apply wins_spec in Hw as (line & Hl & Hne & F1 & F2 & F3);
          [|now apply symbol_not_empty].
        apply wins_spec; [now apply symbol_not_empty|].
        exists line. split; [assumption|].
        assert (forall i, <[t:=o]> b !! i = Some o -> <[t:=o]> c !! i = Some o)
          as Hkeep.
        { intros i Hi. unfold c. rewrite list_insert_insert_ne by congruence.
          destruct (Nat.eq_dec i m) as [-> | Him].
          - rewrite list_lookup_insert_ne in Hi by congruence.
            rewrite Hm in Hi. injection Hi as Hi. symmetry in Hi.
            now apply symbol_not_empty in Ho.
          - now rewrite list_lookup_insert_ne by congruence. }
        repeat split; auto. }
    lia.
Qed.

Lemma threat_is_answered_witness :
  2%nat = 5%nat
  \/ check_winner (<[2%nat:="X"]> scenario_2_board) = Ok (Some "X").
Proof.
  apply (threat_is_answered scenario_2_board "X" 5 2 [2%nat] valid_scenario_2).
  - reflexivity.
  - now left.
  - reflexivity.
  - vm_compute. reflexivity.
  - apply Z.leb_le. vm_compute. reflexivity.
  - vm_compute. reflexivity.
  - now left.
Defined.

(** ** Games against the AI *)

Lemma against_types (h cur : string) :
  symbol h -> symbol cur ->
  (cur = h /\ against h cur = human) \/ (cur = other h /\ against h cur = ai).
Proof.
  intros Hh Hcur. unfold against.
  destruct (String.eqb_spec cur h) as [-> | Hne]; [now left|].
  right. split; [|reflexivity].
  destruct (symbol_cases h cur Hh Hcur); [contradiction | assumption].
Qed.

(** Against a human who plays [h], no turn lowers the value of the
    position for the AI. *)
Lemma turn_value_general (h : string) (b b' : board) (current : string) :
  symbol h -> valid_board b -> check_winner b = Ok None -> symbol current ->
  turn (against h) b current b' ->
  (position_value b current (other h)
   <= position_value b' (other current) (other h))%Z.
Proof.
  intros Hh Hv Hc Hcur Ht.
  destruct (turn_inv _ b b' current Hv Hc Hcur Ht) as (_ & _ & m & -> & Hm & Hai).
  destruct (against_types h current Hh Hcur) as [[-> _] | [-> Hty]].
  - apply opponent_move_value; try assumption; [now apply symbol_other|].
    intros E. symmetry in E. now apply other_differs in E.
  - rewrite (Hai Hty). lia.
Qed.

Lemma against_secures (h : string) (b : board) (current w : string) :
  play (against h) b current w ->
  symbol h -> valid_board b -> check_winner b = Ok None -> symbol current ->
  (position_value b current (other h) = 1%Z -> w = other h)
  /\ ((0 <= position_value b current (other h))%Z -> w <> h).
Proof.
  induction 1 as [b b' current w Ht Hw _ | b b' current w winner Ht Hw Hf _ IH];
    intros Hh Hv Hc Hcur;
    pose proof (turn_value_general h b b' current Hh Hv Hc Hcur Ht) as Hstep;
    destruct (turn_inv _ b b' current Hv Hc Hcur Ht) as (Hv' & Hone' & _);
    pose proof (game_value_range (length (empty_cells b')) b' (other current)
                  (other h)) as Hr;
    fold (position_value b' (other current) (other h)) in Hr.
  - destruct (finished_value b' (other current) (other h) w Hv' Hone'
                (symbol_other h Hh) Hw)
      as [(-> & E) | [(-> & E) | (-> & E)]].
    + split; [lia|]. intros _ Hd. symmetry in Hd. now apply symbol_not_draw in Hh.
    + split; [reflexivity|]. intros _. now apply other_differs.
    + split; intros; lia.
  - pose proof (truthy_false_valid b' winner Hv' Hw Hf) as ->.
    destruct (IH Hh Hv' Hw (symbol_other _ Hcur)) as [IH1 IH2].
    split; intros Hval; [apply IH1 | apply IH2]; lia.
Qed.

Lemma fresh_board_value_for (a : string) :
  symbol a -> position_value fresh_board "X" a = 0%Z.
Proof.
  intros [-> | ->]; [apply fresh_board_value|].
  pose proof (position_value_zero_sum fresh_board "X" "X" (or_introl eq_refl)
                (or_introl eq_refl) (or_introl eq_refl)) as Hz.
  change (other "X") with "O" in Hz. rewrite Hz, fresh_board_value. reflexivity.
Qed.

(** X12. The AI secures the value of the position, whichever symbol it
    plays and whoever moves first: in Human vs AI mode, from any valid
    position where the game goes on, every game that follows ends in a
    win of the AI if the position is won for it, and in no win of the
    human if the position is not lost for it.  From the empty board the
    human never wins, neither as O nor as X, who moves first. *)
Theorem ai_secures_value (h : string) :
  symbol h ->
  (forall (b : board) (current w : string),
      play (against h) b current w ->
      valid_board b -> check_winner b = Ok None -> symbol current ->
      (position_value b current (other h) = 1%Z -> w = other h)
      /\ ((0 <= position_value b current (other h))%Z -> w <> h))
  /\ (forall w, play (against h) fresh_board "X" w -> w <> h).
Proof.
  intros Hh. split.
  - intros b current w Hplay Hv Hc Hcur. now apply against_secures.
  - intros w Hplay.
    apply (against_secures h fresh_board "X" w Hplay Hh valid_fresh_board
             fresh_board_goes_on (or_introl eq_refl)).
    rewrite fresh_board_value_for by now apply symbol_other. lia.
Qed.

(** A game of a human, as X, against the AI. *)
Lemma game_of_human_first : play (against "X") fresh_board "X" "D".
Proof.
  goes_on [" "; " "; " "; " "; "X"; " "; " "; " "; " "] ltac:(human_turn 4%nat).
  goes_on ["O"; " "; " "; " "; "X"; " "; " "; " "; " "] ltac:(ai_turn 0%nat).
  goes_on ["O"; "X"; " "; " "; "X"; " "; " "; " "; " "] ltac:(human_turn 1%nat).
  goes_on ["O"; "X"; " "; " "; "X"; " "; " "; "O"; " "] ltac:(ai_turn 7%nat).
  goes_on ["O"; "X"; " "; " "; "X"; " "; "X"; "O"; " "] ltac:(human_turn 6%nat).
  goes_on ["O"; "X"; "O"; " "; "X"; " "; "X"; "O"; " "] ltac:(ai_turn 2%nat).
  goes_on ["O"; "X"; "O"; " "; "X"; "X"; "X"; "O"; " "] ltac:(human_turn 5%nat).
  goes_on ["O"; "X"; "O"; "O"; "X"; "X"; "X"; "O"; " "] ltac:(ai_turn 3%nat).
  is_over ["O"; "X"; "O"; "O"; "X"; "X"; "X"; "O"; "X"] ltac:(human_turn 8%nat).
Defined.

Lemma ai_secures_value_witness : "D" <> "X".
Proof.
  destruct (ai_secures_value "X" (or_introl eq_refl)) as [_ H].
  apply (H "D" game_of_human_first).
Defined.

(** ** The console *)

Lemma world_eta (w : world) :
  World (w_board w) (w_keys w) (w_out w) (w_rolls w) = w.
Proof. now destruct w. Qed.

Lemma on_board_reading {A : Type} (f : board -> res A) (w : world) :
  on_board (reading f) w
  = (w, match f (w_board w) with
        | Ok a => Done a
        | Raise e => Stopped (Uncaught e)
        | OutOfFuel => Starved
        end).
Proof. unfold on_board, reading. now rewrite world_eta. Qed.

Lemma cell_repr_spec (b : board) (i : nat) :
  cell_repr b i
  = match b !! i with
    | Some v => Ok (if String.eqb v " " then str (i + 1) else v)
    | None => Raise IndexError
    end.
Proof.
  unfold cell_repr, getitem. destruct (b !! i) as [v|]; [|reflexivity].
  now destruct (String.eqb v " ").
Qed.

Lemma board_text_short (b : board) :
  (length b < 9)%nat -> board_text b = Raise IndexError.
Proof.
  intros Hlen. unfold board_text. cbn [seq rows_text]. unfold row_text.
  cbn [Nat.mul Nat.add]. rewrite !cell_repr_spec.
  destruct (b !! 0%nat) eqn:E0; [|reflexivity].
  destruct (b !! 1%nat) eqn:E1; [|reflexivity].
  destruct (b !! 2%nat) eqn:E2; [|reflexivity].
  destruct (b !! 3%nat) eqn:E3; [|reflexivity].
  destruct (b !! 4%nat) eqn:E4; [|reflexivity].
  destruct (b !! 5%nat) eqn:E5; [|reflexivity].
  destruct (b !! 6%nat) eqn:E6; [|reflexivity].
  destruct (b !! 7%nat) eqn:E7; [|reflexivity].
  destruct (b !! 8%nat) eqn:E8; [|reflexivity].
  apply lookup_lt_Some in E8. lia.
Qed.

Lemma board_text_long (b : board) :
  (9 <= length b)%nat -> exists text, board_text b = Ok text.
Proof.
  intros Hlen. unfold board_text. cbn [seq rows_text]. unfold row_text.
  cbn [Nat.mul Nat.add]. rewrite !cell_repr_spec.
  destruct (lookup_lt_is_Some_2 b 0) as [v0 ->]; [lia|].
  destruct (lookup_lt_is_Some_2 b 1) as [v1 ->]; [lia|].
  destruct (lookup_lt_is_Some_2 b 2) as [v2 ->]; [lia|].
  destruct (lookup_lt_is_Some_2 b 3) as [v3 ->]; [lia|].
  destruct (lookup_lt_is_Some_2 b 4) as [v4 ->]; [lia|].
  destruct (lookup_lt_is_Some_2 b 5) as [v5 ->]; [lia|].
  destruct (lookup_lt_is_Some_2 b 6) as [v6 ->]; [lia|].
  destruct (lookup_lt_is_Some_2 b 7) as [v7 ->]; [lia|].
  destruct (lookup_lt_is_Some_2 b 8) as [v8 ->]; [lia|].
  eexists. reflexivity.
Qed.

Lemma print_board_run (w : world) :
  print_board w
  = match board_text (w_board w) with
    | Ok text => (write (String.append text nl) w, Done tt)
    | Raise e => (w, Stopped (Uncaught e))
    | OutOfFuel => (w, Starved)
    end.
Proof.
  unfold print_board, io_bind. rewrite on_board_reading.
  now destruct (board_text (w_board w)).
Qed.

Lemma string_append_assoc (s1 s2 s3 : string) :
  String.append (String.append s1 s2) s3
  = String.append s1 (String.append s2 s3).
Proof. induction s1 as [|c s1 IH]; cbn; [reflexivity | now rewrite IH]. Qed.

(** X13. [print_board] needs nine cells.  On a board of nine cells or
    more it writes exactly one text and changes nothing else: an empty
    line, the three rows of the board with a line of dashes between
    them, and an empty line, where a row is its three cells between
    bars and a cell is shown by its content, or by its number, counted
    from 1, if it is Empty.  On a shorter board it raises [IndexError]
    and writes nothing. *)
Theorem print_board_needs_nine_cells (w : world) :
  ((9 <= length (w_board w))%nat ->
   let shown := fun i =>
     match w_board w !! i with
     | Some v => if String.eqb v " " then str (i + 1) else v
     | None => ""
     end in
   print_board w
   = (write
        (String.concat ""
           [nl;
            " "; shown 0%nat; " | "; shown 1%nat; " | "; shown 2%nat; " "; nl;
            "---+---+---"; nl;
            " "; shown 3%nat; " | "; shown 4%nat; " | "; shown 5%nat; " "; nl;
            "---+---+---"; nl;
            " "; shown 6%nat; " | "; shown 7%nat; " | "; shown 8%nat; " "; nl;
            nl]) w,
      Done tt))
  /\ ((length (w_board w) < 9)%nat ->
      print_board w = (w, Stopped (Uncaught IndexError)))
  /\ (forall i v, w_board w !! i = Some v ->
        cell_repr (w_board w) i
        = Ok (if String.eqb v " " then str (i + 1) else v)).
Proof.
  split; [|split].
  - intros Hlen shown. rewrite print_board_run.
    unfold board_text. cbn [seq rows_text]. unfold row_text.
    cbn [Nat.mul Nat.add]. rewrite !cell_repr_spec. subst shown. cbv beta.
    destruct (lookup_lt_is_Some_2 (w_board w) 0) as [v0 ->]; [lia|].
    destruct (lookup_lt_is_Some_2 (w_board w) 1) as [v1 ->]; [lia|].
    destruct (lookup_lt_is_Some_2 (w_board w) 2) as [v2 ->]; [lia|].
    destruct (lookup_lt_is_Some_2 (w_board w) 3) as [v3 ->]; [lia|].
    destruct (lookup_lt_is_Some_2 (w_board w) 4) as [v4 ->]; [lia|].
    destruct (lookup_lt_is_Some_2 (w_board w) 5) as [v5 ->]; [lia|].
    destruct (lookup_lt_is_Some_2 (w_board w) 6) as [v6 ->]; [lia|].
    destruct (lookup_lt_is_Some_2 (w_board w) 7) as [v7 ->]; [lia|].
    destruct (lookup_lt_is_Some_2 (w_board w) 8) as [v8 ->]; [lia|].
    f_equal. f_equal. unfold row_sep.
    cbn [String.concat]. rewrite !string_append_assoc. reflexivity.
  - intros Hlen. now rewrite print_board_run, board_text_short.
  - intros i v Hi. now rewrite cell_repr_spec, Hi.
Qed.

Lemma print_board_needs_nine_cells_witness :
  print_board (World scenario_2_board ["5"] [] 0)
  = (World scenario_2_board ["5"]
       [String.concat ""
          [nl;
           " X | X | 3 "; nl; "---+---+---"; nl;
           " O | O | 6 "; nl; "---+---+---"; nl;
           " 7 | 8 | 9 "; nl;
           nl]] 0,
     Done tt)
  /\ print_board (World [" "; "X"] [] [] 0)
     = (World [" "; "X"] [] [] 0, Stopped (Uncaught IndexError)).
Proof.
  destruct (print_board_needs_nine_cells (World scenario_2_board ["5"] [] 0))
    as (H9 & _ & _).
  destruct (print_board_needs_nine_cells (World [" "; "X"] [] [] 0))
    as (_ & Hshort & _).
  split.
  - apply H9. simpl. lia.
  - apply Hshort. simpl. lia.
Defined.

(** ** One turn of a human *)

(** One iteration of the loop of [human_turn] on a line of input. *)
Lemma human_turn_step (py : pylib) (fuel : nat) (symbol : string)
    (b : board) (line : string) (rest out : list string) (rolls : nat) :
  let w1 :=
    World b rest
      (out ++ [String.concat "" ["Player "; symbol; ", enter your move (1-9): "]])
      rolls in
  let user := py_strip py line in
  human_turn_fuel py (S fuel) symbol (World b (line :: rest) out rolls)
  = if in_words (py_lower py user) quit_words then
      (write (String.append "Exiting game." nl) w1, Stopped (SystemExit 0))
    else
      match py_int py user with
      | None =>
          human_turn_fuel py fuel symbol
            (write (String.append "Please enter a number 1-9 (or 'q' to quit)." nl) w1)
      | Some n =>
          if negb ((0 <=? n - 1)%Z && (n - 1 <? 9)%Z) then
            human_turn_fuel py fuel symbol
              (write (String.append "Invalid cell number. Choose 1-9." nl) w1)
          else
            match b !! Z.to_nat (n - 1) with
            | None => (w1, Stopped (Uncaught IndexError))
            | Some v =>
                if negb (String.eqb v " ") then
                  human_turn_fuel py fuel symbol
                    (write (String.append "Cell already taken. Pick another." nl) w1)
                else
                  (World (<[Z.to_nat (n - 1):=symbol]> b) rest (w_out w1) rolls,
                   Done tt)
            end
      end.
Proof.
  intros w1 user. cbn [human_turn_fuel]. unfold io_bind at 1. unfold input.
  cbn [w_keys w_board w_out w_rolls]. fold w1. fold user.
  destruct (in_words (py_lower py user) quit_words); [reflexivity|].
  destruct (py_int py user) as [n|]; [|reflexivity].
  destruct (negb ((0 <=? n - 1)%Z && (n - 1 <? 9)%Z)); [reflexivity|].
  unfold io_bind at 1. rewrite on_board_reading. unfold getitem.
  cbn [w_board w1].
  destruct (b !! Z.to_nat (n - 1)) as [v|] eqn:Ev; [|reflexivity].
  destruct (negb (String.eqb v " ")); [reflexivity|].
  unfold on_board, setitem. cbn [w_board w_keys w_out w_rolls w1].
  apply lookup_lt_Some in Ev. apply Nat.ltb_lt in Ev. now rewrite Ev.
Qed.

(** What a run of the loop of [human_turn] amounts to, whatever is
    typed. *)
Lemma human_turn_fuel_run (py : pylib) (symbol : string) (fuel : nat) :
  forall w, (length (w_keys w) < fuel)%nat ->
  forall w' r, human_turn_fuel py fuel symbol w = (w', r) ->
  w_rolls w' = w_rolls w
  /\ (exists written, w_out w' = w_out w ++ written)
  /\ match r with
     | Done _ =>
         exists used line idx,
           w_keys w = used ++ line :: w_keys w'
           /\ py_int py (py_strip py line) = Some (Z.of_nat idx + 1)%Z
           /\ (idx < 9)%nat
           /\ w_board w !! idx = Some " "
           /\ w_board w' = <[idx:=symbol]> (w_board w)
     | Stopped (SystemExit code) =>
         code = 0%Z /\ w_board w' = w_board w
         /\ exists pre, w_out w' = pre ++ [String.append "Exiting game." nl]
     | Stopped EOFError => w_board w' = w_board w /\ w_keys w' = []
     | Stopped (Uncaught e) =>
         e = IndexError /\ w_board w' = w_board w /\ (length (w_board w) < 9)%nat
     | Starved => False
     end.
Proof.
  induction fuel as [|fuel IH]; intros w Hlen w' r E; [lia|].
  destruct w as [b keys out rolls]. cbn [w_keys length] in Hlen.
  destruct keys as [|line rest].
  - cbn in E. injection E as <- <-. cbn.
    split; [reflexivity|]. split; [eauto|]. now split.
  - cbn [length] in Hlen. rewrite human_turn_step in E. cbv zeta in E.
    assert (Hrec : forall msg,
               human_turn_fuel py fuel symbol
                 (write msg
                    (World b rest
                       (out ++ [String.concat ""
                                  ["Player "; symbol; ", enter your move (1-9): "]])
                       rolls)) = (w', r) ->
               w_rolls w' = rolls
               /\ (exists written, w_out w' = out ++ written)
               /\ match r with
                  | Done _ =>
                      exists used line0 idx,
                        line :: rest = used ++ line0 :: w_keys w'
                        /\ py_int py (py_strip py line0) = Some (Z.of_nat idx + 1)%Z
                        /\ (idx < 9)%nat
                        /\ b !! idx = Some " "
                        /\ w_board w' = <[idx:=symbol]> b
                  | Stopped (SystemExit code) =>
                      code = 0%Z /\ w_board w' = b
                      /\ exists pre, w_out w' = pre ++ [String.append "Exiting game." nl]
                  | Stopped EOFError => w_board w' = b /\ w_keys w' = []
                  | Stopped (Uncaught e) =>
                      e = IndexError /\ w_board w' = b /\ (length b < 9)%nat
                  | Starved => False
                  end).
    { intros msg E'. apply IH in E'; [|cbn; lia].
      cbn [write w_keys w_board w_out w_rolls] in E'.
      destruct E' as (Hr & (written & Hw) & Hcase).
      split; [exact Hr|]. split.
      { rewrite Hw, <- !app_assoc. eauto. }
      destruct r as [[]|[code| |e]|]; try exact Hcase.
      destruct Hcase as (used & line0 & idx & Hk & Hrest).
      exists (line :: used), line0, idx. split; [|exact Hrest].
      cbn. now rewrite Hk. }
    cbn [w_keys w_board w_out w_rolls].
    destruct (in_words (py_lower py (py_strip py line)) quit_words).
    { injection E as <- <-. cbn. split; [reflexivity|].
      split; [rewrite <- app_assoc; eauto|]. split; [reflexivity|].
      split; [reflexivity|]. eauto. }
    destruct (py_int py (py_strip py line)) as [n|] eqn:En;
      [|now apply Hrec in E].
    destruct ((0 <=? n - 1)%Z && (n - 1 <? 9)%Z) eqn:Erange; cbn [negb] in E;
      [|now apply Hrec in E].
    apply andb_true_iff in Erange. destruct Erange as [H0 H9].
    apply Z.leb_le in H0. apply Z.ltb_lt in H9.
    destruct (b !! Z.to_nat (n - 1)) as [v|] eqn:Ev.
    + destruct (String.eqb_spec v " ") as [-> | Hne]; cbn [negb] in E;
        [|now apply Hrec in E].
      injection E as <- <-. cbn. split; [reflexivity|]. split; [eauto|].
      exists [], line, (Z.to_nat (n - 1)). cbn.
      split; [reflexivity|]. split; [rewrite En; f_equal; lia|].
      split; [lia|]. now split.
    + injection E as <- <-. cbn. split; [reflexivity|]. split; [eauto|].
      split; [reflexivity|]. split; [reflexivity|].
      apply lookup_ge_None_1 in Ev. lia.
Qed.

(** X14. A turn of a human that returns has written the symbol into
    exactly one cell, which was Empty and is one of the first nine:
    the cell whose number is the last line read; every other cell, and
    the generator, are as before, lines were only read from the front
    of the input and text was only added to the output. *)
Theorem human_turn_plays_one_empty_cell (py : pylib) (symbol : string)
    (w w' : world) :
  human_turn py symbol w = (w', Done tt) ->
  exists used line idx written,
    w_keys w = used ++ line :: w_keys w'
    /\ py_int py (py_strip py line) = Some (Z.of_nat idx + 1)%Z
    /\ (idx < 9)%nat
    /\ w_board w !! idx = Some " "
    /\ w_board w' = <[idx:=symbol]> (w_board w)
    /\ (forall i, i <> idx -> w_board w' !! i = w_board w !! i)
    /\ w_out w' = w_out w ++ written
    /\ w_rolls w' = w_rolls w.
Proof.
  intros E. unfold human_turn in E.
  apply human_turn_fuel_run in E; [|lia].
  destruct E as (Hr & (written & Hw) & used & line & idx & Hk & Hint & H9 & He & Hb).
  exists used, line, idx, written. repeat split; try assumption.
  intros i Hi. rewrite Hb. now apply list_lookup_insert_ne.
Qed.

Lemma human_turn_plays_one_empty_cell_witness :
  exists used line idx written,
    ["x"; "2"; " 3 "; "7"] = used ++ line :: ["7"]
    /\ py_int ascii_lib (py_strip ascii_lib line) = Some (Z.of_nat idx + 1)%Z
    /\ (idx < 9)%nat
    /\ ["X"; "O"; " "] !! idx = Some " "
    /\ ["X"; "O"; "O"] = <[idx:="O"]> ["X"; "O"; " "]
    /\ (forall i, i <> idx -> ["X"; "O"; "O"] !! i = ["X"; "O"; " "] !! i)
    /\ w_out (fst (human_turn ascii_lib "O" (World ["X"; "O"; " "] ["x"; "2"; " 3 "; "7"] [] 0)))
       = [] ++ written
    /\ 0%nat = 0%nat.
Proof.
  apply (human_turn_plays_one_empty_cell ascii_lib "O"
           (World ["X"; "O"; " "] ["x"; "2"; " 3 "; "7"] [] 0)
           (World ["X"; "O"; "O"] ["7"]
              (w_out (fst (human_turn ascii_lib "O"
                             (World ["X"; "O"; " "] ["x"; "2"; " 3 "; "7"] [] 0))))
              0)).
  vm_compute. reflexivity.
Defined.

(** X15. On a board of nine cells or more a turn of a human ends in
    one of three ways, whatever is typed: it returns; or it stops with
    [exit(0)] after writing "Exiting game."; or the input ends and
    [EOFError] leaves the function.  In the last two cases the board
    is untouched, and in no case is the generator used. *)
Theorem human_turn_outcomes (py : pylib) (symbol : string) (w : world) :
  (9 <= length (w_board w))%nat ->
  w_rolls (fst (human_turn py symbol w)) = w_rolls w
  /\ (snd (human_turn py symbol w) = Done tt
      \/ (snd (human_turn py symbol w) = Stopped (SystemExit 0)
          /\ w_board (fst (human_turn py symbol w)) = w_board w
          /\ exists pre,
               w_out (fst (human_turn py symbol w))
               = pre ++ [String.append "Exiting game." nl])
      \/ (snd (human_turn py symbol w) = Stopped EOFError
          /\ w_board (fst (human_turn py symbol w)) = w_board w
          /\ w_keys (fst (human_turn py symbol w)) = [])).
Proof.
  intros Hlen. destruct (human_turn py symbol w) as [w' r] eqn:E.
  unfold human_turn in E. apply human_turn_fuel_run in E; [|lia].
  destruct E as (Hr & _ & Hcase). cbn [fst snd]. split; [exact Hr|].
  destruct r as [[]|[code| |e]|].
  - now left.
  - right. left. destruct Hcase as (-> & Hb & Hout). auto.
  - right. right. destruct Hcase as (Hb & Hk). auto.
  - destruct Hcase as (_ & _ & Hshort). lia.
  - contradiction.
Qed.

Lemma human_turn_outcomes_witness :
  snd (human_turn ascii_lib "X" (World fresh_board [" Quit "; "5"] [] 0))
  = Stopped (SystemExit 0).
Proof.
  destruct (human_turn_outcomes ascii_lib "X" (World fresh_board [" Quit "; "5"] [] 0))
    as (_ & [H | [(H & _) | (H & _)]]).
  - vm_compute. lia.
  - vm_compute in H. discriminate H.
  - exact H.
  - vm_compute in H. discriminate H.
Defined.

(** ** The prompts *)

Lemma in_words_In (s : string) (words : list string) :
  in_words s words = true <-> In s words.
Proof.
  unfold in_words. rewrite existsb_exists. split.
  - intros (x & Hx & E). apply String.eqb_eq in E. now subst.
  - intros H. exists s. split; [exact H | apply String.eqb_refl].
Qed.

(** What a run of the loop of [choose_symbol] amounts to. *)
Lemma choose_symbol_fuel_run (py : pylib) (fuel : nat) :
  forall w, (length (w_keys w) < fuel)%nat ->
  forall w' r, choose_symbol_fuel py fuel w = (w', r) ->
  w_board w' = w_board w /\ w_rolls w' = w_rolls w
  /\ (exists written, w_out w' = w_out w ++ written)
  /\ match r with
     | Done (h, a) =>
         symbol h /\ a = other h
         /\ exists used line,
              w_keys w = used ++ line :: w_keys w'
              /\ h = (if String.eqb (py_upper py (py_strip py line)) "" then "X"
                      else py_upper py (py_strip py line))
     | Stopped EOFError => w_keys w' = []
     | _ => False
     end.
Proof.
  induction fuel as [|fuel IH]; intros w Hlen w' r E; [lia|].
  destruct w as [b keys out rolls]. cbn [w_keys length] in Hlen.
  cbn [choose_symbol_fuel] in E. unfold io_bind at 1, input in E.
  cbn [w_keys w_board w_out w_rolls] in E.
  destruct keys as [|line rest].
  - injection E as <- <-. cbn. repeat split; eauto.
  - cbn [length] in Hlen.
    set (s := if String.eqb (py_upper py (py_strip py line)) "" then "X"
              else py_upper py (py_strip py line)) in *.
    destruct (in_words s ["X"; "O"]) eqn:Es.
    + injection E as <- <-. cbn. repeat split; eauto.
      * apply in_words_In in Es. destruct Es as [<- | [<- | []]];
          [now left | now right].
      * exists [], line. now split.
    + unfold io_bind at 1, print in E. apply IH in E; [|cbn; lia].
      cbn [write w_keys w_board w_out w_rolls] in E |- *.
      destruct E as (Hb & Hr & (written & Hw) & Hcase).
      split; [exact Hb|]. split; [exact Hr|]. split.
      { rewrite Hw, <- !app_assoc. eauto. }
      destruct r as [[h a]|[code| |e]|]; try exact Hcase.
      destruct Hcase as (Hh & Ha & used & line0 & Hk & Hs).
      split; [exact Hh|]. split; [exact Ha|].
      exists (line :: used), line0. split; [|exact Hs]. cbn. now rewrite Hk.
Qed.

(** What a run of the loop of [choose_mode] amounts to. *)
Lemma choose_mode_fuel_run (py : pylib) (fuel : nat) :
  forall w, (length (w_keys w) < fuel)%nat ->
  forall w' r, choose_mode_fuel py fuel w = (w', r) ->
  w_board w' = w_board w /\ w_rolls w' = w_rolls w
  /\ (exists written, w_out w' = w_out w ++ written)
  /\ match r with
     | Done mode =>
         exists used line,
           w_keys w = used ++ line :: w_keys w'
           /\ ((mode = "hva"
                /\ (py_strip py line = "" \/ py_strip py line = "1"))
               \/ (mode = "hvh" /\ py_strip py line = "2"))
     | Stopped EOFError => w_keys w' = []
     | _ => False
     end.
Proof.
  induction fuel as [|fuel IH]; intros w Hlen w' r E; [lia|].
  destruct w as [b keys out rolls]. cbn [w_keys length] in Hlen.
  cbn [choose_mode_fuel] in E. unfold io_bind at 1, print at 1 in E.
  unfold io_bind at 1, input in E.
  cbn [write w_keys w_board w_out w_rolls] in E.
  destruct keys as [|line rest].
  - injection E as <- <-. cbn. repeat split; eauto.
    rewrite <- app_assoc. eauto.
  - cbn [length] in Hlen.
    destruct (String.eqb_spec (py_strip py line) "") as [E0 | N0]; cbn [orb] in E.
    { injection E as <- <-. cbn. repeat split; eauto.
      - rewrite <- app_assoc. eauto.
      - exists [], line. split; [reflexivity|]. left. auto. }
    destruct (String.eqb_spec (py_strip py line) "1") as [E1 | N1].
    { injection E as <- <-. cbn. repeat split; eauto.
      - rewrite <- app_assoc. eauto.
      - exists [], line. split; [reflexivity|]. left. auto. }
    destruct (String.eqb_spec (py_strip py line) "2") as [E2 | N2].
    { injection E as <- <-. cbn. repeat split; eauto.
      - rewrite <- app_assoc. eauto.
      - exists [], line. split; [reflexivity|]. right. auto. }
    unfold io_bind at 1, print in E. apply IH in E; [|cbn; lia].
    cbn [write w_keys w_board w_out w_rolls] in E |- *.
    destruct E as (Hb & Hr & (written & Hw) & Hcase).
    split; [exact Hb|]. split; [exact Hr|]. split.
    { rewrite Hw, <- !app_assoc. eauto. }
    destruct r as [mode|[code| |e]|]; try exact Hcase.
    destruct Hcase as (used & line0 & Hk & Hm).
    exists (line :: used), line0. split; [|exact Hm]. cbn. now rewrite Hk.
Qed.

(** What a run of the loop of [choose_first] amounts to. *)
Lemma choose_first_fuel_run (py : pylib) (human_symbol : string) (fuel : nat) :
  forall w, (length (w_keys w) < fuel)%nat ->
  forall w' r, choose_first_fuel py fuel human_symbol w = (w', r) ->
  w_board w' = w_board w /\ w_rolls w' = w_rolls w
  /\ (exists written, w_out w' = w_out w ++ written)
  /\ match r with
     | Done first => first = "human" \/ first = "ai"
     | Stopped EOFError => w_keys w' = []
     | _ => False
     end.
Proof.
  induction fuel as [|fuel IH]; intros w Hlen w' r E; [lia|].
  destruct w as [b keys out rolls]. cbn [w_keys length] in Hlen.
  cbn [choose_first_fuel] in E. unfold io_bind at 1, input in E.
  cbn [w_keys w_board w_out w_rolls] in E.
  destruct keys as [|line rest].
  - injection E as <- <-. cbn. repeat split; eauto.
  - cbn [length] in Hlen.
    destruct (String.eqb (py_lower py (py_strip py line)) "").
    { injection E as <- <-. cbn. repeat split; eauto.
      destruct (String.eqb human_symbol "X"); auto. }
    destruct (in_words (py_lower py (py_strip py line)) ["h"; "human"]).
    { injection E as <- <-. cbn. repeat split; eauto. }
    destruct (in_words (py_lower py (py_strip py line)) ["a"; "ai"]).
    { injection E as <- <-. cbn. repeat split; eauto. }
    unfold io_bind at 1, print in E. apply IH in E; [|cbn; lia].
    cbn [write w_keys w_board w_out w_rolls] in E |- *.
    destruct E as (Hb & Hr & (written & Hw) & Hcase).
    split; [exact Hb|]. split; [exact Hr|]. split.
    { rewrite Hw, <- !app_assoc. eauto. }
    exact Hcase.
Qed.

(** X16. [choose_symbol] returns only with the human's symbol, X or O,
    taken from the last line read (X for a line that strips to
    nothing), and the other symbol for the AI, so that the two players
    never share a symbol; the only other way out is [EOFError] at the
    end of the input.  The board and the generator are not touched. *)
Theorem choose_symbol_gives_both_symbols (py : pylib) (w : world) :
  w_board (fst (choose_symbol py w)) = w_board w
  /\ w_rolls (fst (choose_symbol py w)) = w_rolls w
  /\ ((exists h used line,
         snd (choose_symbol py w) = Done (h, other h)
         /\ symbol h /\ symbol (other h) /\ other h <> h
         /\ w_keys w = used ++ line :: w_keys (fst (choose_symbol py w))
         /\ h = (if String.eqb (py_upper py (py_strip py line)) "" then "X"
                 else py_upper py (py_strip py line)))
      \/ (snd (choose_symbol py w) = Stopped EOFError
          /\ w_keys (fst (choose_symbol py w)) = [])).
Proof.
  destruct (choose_symbol py w) as [w' r] eqn:E. unfold choose_symbol in E.
  apply choose_symbol_fuel_run in E; [|lia].
  destruct E as (Hb & Hr & _ & Hcase). cbn [fst snd].
  split; [exact Hb|]. split; [exact Hr|].
  destruct r as [[h a]|[code| |e]|]; try contradiction.
  - left. destruct Hcase as (Hh & -> & used & line & Hk & Hs).
    exists h, used, line. split; [reflexivity|]. split; [exact Hh|].
    split; [|split; [|now split]].
    + destruct Hh as [-> | ->]; [now right | now left].
    + destruct Hh as [-> | ->]; discriminate.
  - right. now split.
Qed.

(** X17. [choose_mode] returns only "hva" or "hvh": "hvh" when the
    last line read strips to 2, "hva" when it strips to 1 or to
    nothing; the only other way out is [EOFError] at the end of the
    input.  The board and the generator are not touched. *)
Theorem choose_mode_gives_a_mode (py : pylib) (w : world) :
  w_board (fst (choose_mode py w)) = w_board w
  /\ w_rolls (fst (choose_mode py w)) = w_rolls w
  /\ ((exists mode used line,
         snd (choose_mode py w) = Done mode
         /\ w_keys w = used ++ line :: w_keys (fst (choose_mode py w))
         /\ ((mode = "hva" /\ (py_strip py line = "" \/ py_strip py line = "1"))
             \/ (mode = "hvh" /\ py_strip py line = "2")))
      \/ (snd (choose_mode py w) = Stopped EOFError
          /\ w_keys (fst (choose_mode py w)) = [])).
Proof.
  destruct (choose_mode py w) as [w' r] eqn:E. unfold choose_mode in E.
  apply choose_mode_fuel_run in E; [|lia].
  destruct E as (Hb & Hr & _ & Hcase). cbn [fst snd].
  split; [exact Hb|]. split; [exact Hr|].
  destruct r as [mode|[code| |e]|]; try contradiction.
  - left. destruct Hcase as (used & line & Hk & Hm).
    exists mode, used, line. auto.
  - right. now split.
Qed.

(** ** The game loops *)

(** The turn of the AI on a position where the game goes on. *)
Lemma ai_turn_run (py : pylib) (a : string) (w w' : world) (r : outcome unit) :
  valid_board (w_board w) -> check_winner (w_board w) = Ok None -> symbol a ->
  ai_turn py a w = (w', r) ->
  match r with
  | Done _ =>
      w_keys w' = w_keys w
      /\ exists k m,
           best_move_for_ai k (w_board w) a = (w_board w, Ok m)
           /\ w_board w' = <[m:=a]> (w_board w)
  | Stopped s =>
      s = Uncaught IndexError
      /\ exists i n, (0 < n)%nat /\ (n <= py_randbelow py i n)%nat
  | Starved => False
  end.
Proof.
  intros Hv Hc Ha E. destruct w as [b keys out rolls].
  cbn [w_board w_keys] in *.
  unfold ai_turn in E. unfold io_bind at 1, print at 1 in E.
  unfold io_bind at 1, ai_move in E. cbn [write w_board w_keys w_out w_rolls] in E.
  pose proof (best_moves_optimal b a Hv Hc Ha) as Hbm.
  destruct (optimal_move_exists b a Hv Hc Ha) as (m1 & Hin1 & Hval1).
  remember (List.filter
              (fun m => (position_value (<[m:=a]> b) (other a) a
                         =? position_value b a a)%Z) (empty_cells b)) as l eqn:El.
  assert (In m1 l) as Hl.
  { rewrite El. apply List.filter_In. split; [exact Hin1 | now apply Z.eqb_eq]. }
  rewrite Hbm in E. destruct l as [|m0 l0]; [destruct Hl|].
  unfold on_board in E. cbn [w_board w_keys w_out w_rolls] in E.
  rewrite best_move_for_ai_eq, Hbm in E.
  pose proof (random_choice_cases (py_randbelow py rolls (length (m0 :: l0)))
                (m0 :: l0)) as Hrc.
  pose proof (best_move_for_ai_eq (py_randbelow py rolls (length (m0 :: l0))) b a)
    as Hbe.
  rewrite Hbm in Hbe.
  destruct (random_choice (py_randbelow py rolls (length (m0 :: l0))) (m0 :: l0))
    as [m|e|].
  - destruct (ai_move_optimal _ b b a m Hv Hc Ha Hbe) as (_ & Hm & _).
    unfold io_bind at 1, on_board, setitem in E.
    cbn [w_board w_keys w_out w_rolls] in E.
    apply lookup_lt_Some in Hm. apply Nat.ltb_lt in Hm. rewrite Hm in E.
    unfold print in E. injection E as <- <-. cbn.
    split; [reflexivity|]. eauto.
  - injection E as <- <-. destruct Hrc as [-> Hk]. split; [reflexivity|].
    exists rolls, (length (m0 :: l0)). split; [cbn; lia | exact Hk].
  - destruct Hrc.
Qed.

(** The end of an iteration of a game loop, from the verdict on. *)
Lemma announce_run (text : string) (w w' : world) (r : outcome unit) :
  (9 <= length (w_board w))%nat ->
  (io* _ := print_board in print text) w = (w', r) ->
  r = Done tt /\ w_board w' = w_board w
  /\ exists pre, w_out w' = pre ++ [String.append text nl].
Proof.
  intros Hlen E. unfold io_bind in E. rewrite print_board_run in E.
  destruct (board_text_long _ Hlen) as [t Et]. rewrite Et in E.
  unfold print in E. injection E as <- <-. cbn. eauto.
Qed.

(** A run of the loop of the mode Human vs AI is a game of the
    relation [play], and ends within as many turns as there are Empty
    cells. *)
Lemma hva_loop_run (py : pylib) (h : string) :
  symbol h ->
  forall fuel cur w,
    valid_board (w_board w) -> check_winner (w_board w) = Ok None ->
    symbol cur -> (count_empty (w_board w) <= fuel)%nat ->
    forall w' r, hva_loop py fuel h (other h) cur w = (w', r) ->
    match r with
    | Done _ =>
        exists win pre,
          play (against h) (w_board w) cur win
          /\ check_winner (w_board w') = Ok (Some win)
          /\ w_out w' = pre ++ [String.append (result_hva (other h) win) nl]
    | Stopped s =>
        s = SystemExit 0 \/ s = EOFError
        \/ (s = Uncaught IndexError
            /\ exists i n, (0 < n)%nat /\ (n <= py_randbelow py i n)%nat)
    | Starved => False
    end.
Proof.
  intros Hh. induction fuel as [|fuel IH]; intros cur w Hv Hc Hcur Hcount w' r E.
  { destruct (check_winner_none _ Hv Hc) as [_ Hne].
    rewrite count_empty_cells in Hcount.
    destruct (empty_cells (w_board w)); [now destruct Hne | cbn in Hcount; lia]. }
  pose proof Hv as [Hlen _].
  cbn [hva_loop] in E. unfold io_bind at 1 in E. rewrite print_board_run in E.
  destruct (board_text_long (w_board w)) as [text Et]; [lia|]. rewrite Et in E.
  unfold io_bind at 1 in E.
  set (w1 := write (String.append text nl) w) in *.
  assert (exists w2 r2,
             match against h cur with
             | human => human_turn py cur
             | ai => ai_turn py (other h)
             end w1 = (w2, r2)
             /\ match r2 with
                | Done _ => turn (against h) (w_board w) cur (w_board w2)
                | Stopped s =>
                    s = SystemExit 0 \/ s = EOFError
                    \/ (s = Uncaught IndexError
                        /\ exists i n, (0 < n)%nat /\ (n <= py_randbelow py i n)%nat)
                | Starved => False
                end) as (w2 & r2 & E2 & Hturn).
  { destruct (against_types h cur Hh Hcur) as [[-> Hty] | [-> Hty]]; rewrite Hty.
    - destruct (human_turn py h w1) as [w2 r2] eqn:E2. exists w2, r2.
      split; [reflexivity|]. unfold human_turn in E2.
      apply human_turn_fuel_run in E2; [|lia].
      destruct E2 as (_ & _ & Hcase). cbn [w1 write w_board] in Hcase.
      destruct r2 as [[]|[code| |e]|]; try exact Hcase.
      + destruct Hcase as (_ & _ & idx & _ & _ & H9 & He & ->).
        now apply turn_human.
      + left. destruct Hcase as (-> & _). reflexivity.
      + auto.
      + destruct Hcase as (_ & _ & Hshort). lia.
    - destruct (ai_turn py (other h) w1) as [w2 r2] eqn:E2. exists w2, r2.
      split; [reflexivity|].
      apply ai_turn_run in E2; [| exact Hv | exact Hc | now apply symbol_other].
      cbn [w1 write w_board] in E2.
      destruct r2 as [[]|s|]; try exact E2.
      + destruct E2 as (_ & k & m & Hk & ->). now apply (turn_ai _ _ _ k m).
      + auto. }
  rewrite E2 in E. destruct r2 as [[]|s|]; [| injection E as <- <-; exact Hturn
                                            | destruct Hturn].
  destruct (turn_inv _ _ _ _ Hv Hc Hcur Hturn) as (Hv2 & _ & m & Hb2 & Hm & _).
  pose proof Hv2 as [Hlen2 _].
  unfold io_bind at 1 in E. rewrite on_board_reading in E.
  destruct (check_winner (w_board w2)) as [winner| |] eqn:Ec;
    try (rewrite check_winner_verdict in Ec by lia; discriminate Ec).
  assert (Hnext : truthy winner = false ->
                  hva_loop py fuel h (other h) (other cur) w2 = (w', r) ->
                  match r with
                  | Done _ =>
                      exists win pre,
                        play (against h) (w_board w) cur win
                        /\ check_winner (w_board w') = Ok (Some win)
                        /\ w_out w' = pre ++ [String.append (result_hva (other h) win) nl]
                  | Stopped s =>
                      s = SystemExit 0 \/ s = EOFError
                      \/ (s = Uncaught IndexError
                          /\ exists i n, (0 < n)%nat /\ (n <= py_randbelow py i n)%nat)
                  | Starved => False
                  end).
  { intros Hf E'. pose proof (truthy_false_valid _ _ Hv2 Ec Hf) as Hnone.
    apply IH in E'; try assumption.
    - destruct r as [[]|s|]; try exact E'.
      destruct E' as (win & pre & Hplay & Hfin & Hout).
      exists win, pre. split; [|now split].
      now apply (play_on _ _ (w_board w2) _ _ winner).
    - now rewrite <- Hnone.
    - now apply symbol_other.
    - rewrite Hb2.
      pose proof (count_empty_insert (w_board w) m cur
                    (symbol_not_empty _ Hcur) Hm). lia. }
  destruct winner as [x|]; [|now apply Hnext].
  destruct (truthy (Some x)) eqn:Etr; [|now apply Hnext].
  apply announce_run in E; [|lia]. destruct E as (-> & Hb' & pre & Hout).
  exists x, pre. split; [|split; [now rewrite Hb' | exact Hout]].
  now apply (play_over _ _ (w_board w2)).
Qed.

(** A run of the loop of the mode Human vs Human. *)
Lemma hvh_loop_run (py : pylib) :
  forall fuel cur w,
    valid_board (w_board w) -> check_winner (w_board w) = Ok None ->
    symbol cur -> (count_empty (w_board w) <= fuel)%nat ->
    forall w' r, hvh_loop py fuel cur w = (w', r) ->
    match r with
    | Done _ =>
        exists win pre,
          play (fun _ => human) (w_board w) cur win
          /\ check_winner (w_board w') = Ok (Some win)
          /\ w_out w' = pre ++ [String.append (result_hvh win) nl]
    | Stopped s => s = SystemExit 0 \/ s = EOFError
    | Starved => False
    end.
Proof.
  induction fuel as [|fuel IH]; intros cur w Hv Hc Hcur Hcount w' r E.
  { destruct (check_winner_none _ Hv Hc) as [_ Hne].
    rewrite count_empty_cells in Hcount.
    destruct (empty_cells (w_board w)); [now destruct Hne | cbn in Hcount; lia]. }
  pose proof Hv as [Hlen _].
  cbn [hvh_loop] in E. unfold io_bind at 1 in E. rewrite print_board_run in E.
  destruct (board_text_long (w_board w)) as [text Et]; [lia|]. rewrite Et in E.
  unfold io_bind at 1 in E.
  set (w1 := write (String.append text nl) w) in *.
  destruct (human_turn py cur w1) as [w2 r2] eqn:E2.
  unfold human_turn in E2. apply human_turn_fuel_run in E2; [|lia].
  destruct E2 as (_ & _ & Hcase). cbn [w1 write w_board] in Hcase.
  destruct r2 as [[]|[code| |e]|].
  2: { injection E as <- <-. left. destruct Hcase as (-> & _). reflexivity. }
  2: { injection E as <- <-. now right. }
  2: { destruct Hcase as (_ & _ & Hshort). lia. }
  2: { destruct Hcase. }
  destruct Hcase as (_ & _ & idx & _ & _ & H9 & He & Hb2).
  assert (turn (fun _ => human) (w_board w) cur (w_board w2)) as Hturn.
  { rewrite Hb2. now apply turn_human. }
  destruct (turn_inv _ _ _ _ Hv Hc Hcur Hturn) as (Hv2 & _ & _).
  pose proof Hv2 as [Hlen2 _].
  unfold io_bind at 1 in E. rewrite on_board_reading in E.
  destruct (check_winner (w_board w2)) as [winner| |] eqn:Ec;
    try (rewrite check_winner_verdict in Ec by lia; discriminate Ec).
  assert (Hnext : truthy winner = false ->
                  hvh_loop py fuel (other cur) w2 = (w', r) ->
                  match r with
                  | Done _ =>
                      exists win pre,
                        play (fun _ => human) (w_board w) cur win
                        /\ check_winner (w_board w') = Ok (Some win)
                        /\ w_out w' = pre ++ [String.append (result_hvh win) nl]
                  | Stopped s => s = SystemExit 0 \/ s = EOFError
                  | Starved => False
                  end).
  { intros Hf E'. pose proof (truthy_false_valid _ _ Hv2 Ec Hf) as Hnone.
    apply IH in E'; try assumption.
    - destruct r as [[]|s|]; try exact E'.
      destruct E' as (win & pre & Hplay & Hfin & Hout).
      exists win, pre. split; [|now split].
      now apply (play_on _ _ (w_board w2) _ _ winner).
    - now rewrite <- Hnone.
    - now apply symbol_other.
    - rewrite Hb2.
      pose proof (count_empty_insert (w_board w) idx cur
                    (symbol_not_empty _ Hcur) He). lia. }
  destruct winner as [x|]; [|now apply Hnext].
  destruct (truthy (Some x)) eqn:Etr; [|now apply Hnext].
  apply announce_run in E; [|lia]. destruct E as (-> & Hb' & pre & Hout).
  exists x, pre. split; [|split; [now rewrite Hb' | exact Hout]].
  now apply (play_over _ _ (w_board w2)).
Qed.

(** The result of a game is a draw or a symbol. *)
Lemma play_result (types : string -> player_type) (b : board) (cur w : string) :
  play types b cur w ->
  valid_board b -> check_winner b = Ok None -> symbol cur ->
  w = "D" \/ symbol w.
Proof.
  induction 1 as [b b' cur w Ht Hw _ | b b' cur w winner Ht Hw Hf _ IH];
    intros Hv Hc Hcur;
    destruct (turn_inv _ b b' cur Hv Hc Hcur Ht) as (Hv' & _ & _).
  - pose proof (verdict_cases b' Hv') as Hcases.
    rewrite check_winner_verdict in Hw by (destruct Hv'; lia).
    injection Hw as Hw. rewrite Hw in Hcases.
    destruct Hcases as [(-> & _) | (Hs & _)]; auto.
  - pose proof (truthy_false_valid b' winner Hv' Hw Hf) as ->.
    apply IH; try assumption. now apply symbol_other.
Qed.

Lemma count_empty_fresh_board : count_empty fresh_board = 9%nat.
Proof. reflexivity. Qed.

(** A run of [play]: the prompts, then one of the two loops on a
    fresh board with X to move. *)
Lemma play_game_run (py : pylib) (w w' : world) (r : outcome unit) :
  play_game py w = (w', r) ->
  match r with
  | Done _ =>
      exists win pre,
        check_winner (w_board w') = Ok (Some win)
        /\ ((play (fun _ => human) fresh_board "X" win
             /\ w_out w' = pre ++ [String.append (result_hvh win) nl])
            \/ (exists h,
                  symbol h /\ play (against h) fresh_board "X" win
                  /\ w_out w' = pre ++ [String.append (result_hva (other h) win) nl]))
  | Stopped s =>
      s = SystemExit 0 \/ s = EOFError
      \/ (s = Uncaught IndexError
          /\ exists i n, (0 < n)%nat /\ (n <= py_randbelow py i n)%nat)
  | Starved => False
  end.
Proof.
  intros E. unfold play_game in E. unfold io_bind at 1, print at 1 in E.
  unfold io_bind at 1 in E.
  destruct (choose_mode py _) as [w1 r1] eqn:E1. unfold choose_mode in E1.
  apply choose_mode_fuel_run in E1; [|lia].
  destruct E1 as (_ & _ & _ & Hmode).
  destruct r1 as [mode|[code| |e]|]; try contradiction.
  2: { injection E as <- <-. auto. }
  destruct Hmode as (used & line & _ & Hmode).
  unfold io_bind at 1, new_board in E.
  destruct Hmode as [(-> & _) | (-> & _)]; cbn [String.eqb Ascii.eqb Bool.eqb] in E.
  - unfold io_bind at 1 in E.
    destruct (choose_symbol py _) as [w2 r2] eqn:E2. unfold choose_symbol in E2.
    apply choose_symbol_fuel_run in E2; [|lia].
    destruct E2 as (Hb2 & _ & _ & Hsym). cbn [w_board] in Hb2.
    destruct r2 as [[h a]|[code| |e]|]; try contradiction.
    2: { injection E as <- <-. auto. }
    destruct Hsym as (Hh & -> & _). cbn [fst snd] in E.
    unfold io_bind at 1 in E.
    destruct (choose_first py h w2) as [w3 r3] eqn:E3. unfold choose_first in E3.
    apply choose_first_fuel_run in E3; [|lia].
    destruct E3 as (Hb3 & _ & _ & Hfirst). rewrite Hb2 in Hb3.
    destruct r3 as [first|[code| |e]|]; try contradiction.
    2: { injection E as <- <-. auto. }
    apply (hva_loop_run py h Hh) in E.
    + destruct r as [[]|s|]; try exact E.
      destruct E as (win & pre & Hplay & Hfin & Hout). rewrite Hb3 in Hplay.
      exists win, pre. split; [exact Hfin|]. right. exists h. auto.
    + rewrite Hb3. apply valid_fresh_board.
    + rewrite Hb3. apply fresh_board_goes_on.
    + now left.
    + rewrite Hb3, count_empty_fresh_board. lia.
  - apply hvh_loop_run in E.
    + destruct r as [[]|s|]; try exact E.
      * destruct E as (win & pre & Hplay & Hfin & Hout). cbn [w_board] in Hplay.
        exists win, pre. split; [exact Hfin|]. left. auto.
      * destruct E as [-> | ->]; auto.
    + apply valid_fresh_board.
    + apply fresh_board_goes_on.
    + now left.
    + cbn [w_board]. rewrite count_empty_fresh_board. lia.
Qed.

(** X18. [play] always comes to an end, and no exception of the game
    logic leaves it: whatever is typed, and whatever the board object
    held before, with a generator that draws below its bound, the
    program returns after at most nine turns of a loop, or stops with
    [exit(0)], or the input ends and [EOFError] leaves it. *)
Theorem play_game_ends (py : pylib) (w : world) :
  (forall i n, (0 < n)%nat -> (py_randbelow py i n < n)%nat) ->
  snd (play_game py w) = Done tt
  \/ snd (play_game py w) = Stopped (SystemExit 0)
  \/ snd (play_game py w) = Stopped EOFError.
Proof.
  intros Hrand. destruct (play_game py w) as [w' r] eqn:E.
  apply play_game_run in E. cbn [snd].
  destruct r as [[]|s|]; [now left | | destruct E].
  destruct E as [-> | [-> | (_ & i & n & Hn & Hle)]]; auto.
  specialize (Hrand i n Hn). lia.
Qed.

Lemma play_game_ends_witness :
  snd (play_game ascii_lib (start ["2"; "1"; "2"; "3"; "q"]))
  = Stopped (SystemExit 0).
Proof.
  destruct (play_game_ends ascii_lib (start ["2"; "1"; "2"; "3"; "q"]))
    as [H | [H | H]].
  - intros i n Hn. exact Hn.
  - vm_compute in H. discriminate H.
  - exact H.
  - vm_compute in H. discriminate H.
Defined.

(** X19. When [play] returns, the board is one on which
    [check_winner] reports a result, and the last line written
    announces it: a draw, a win of Player X or Player O in the mode
    Human vs Human, or a win of the AI.  In the mode Human vs AI the
    result is never the human's symbol, so that the announcement
    "Player (X) wins!" or "Player (O) wins!" is never written. *)
Theorem play_game_announces (py : pylib) (w w' : world) :
  play_game py w = (w', Done tt) ->
  exists win pre last,
    check_winner (w_board w') = Ok (Some win)
    /\ w_out w' = pre ++ [String.append last nl]
    /\ ((last = result_hvh win /\ (win = "D" \/ symbol win))
        \/ (exists h, symbol h /\ win <> h /\ last = result_hva (other h) win))
    /\ In last ["It's a draw!"; "Player X wins!"; "Player O wins!";
                "AI (X) wins!"; "AI (O) wins!"].
Proof.
  intros E. apply play_game_run in E.
  destruct E as (win & pre & Hfin & [(Hplay & Hout) | (h & Hh & Hplay & Hout)]).
  - pose proof (play_result _ _ _ _ Hplay valid_fresh_board fresh_board_goes_on
                  (or_introl eq_refl)) as Hres.
    exists win, pre, (result_hvh win). split; [exact Hfin|].
    split; [exact Hout|]. split; [left; auto|].
    destruct Hres as [-> | [-> | ->]]; cbn; auto.
  - pose proof (play_result _ _ _ _ Hplay valid_fresh_board fresh_board_goes_on
                  (or_introl eq_refl)) as Hres.
    assert (win <> h) as Hne.
    { apply (against_secures h fresh_board "X" win Hplay Hh valid_fresh_board
               fresh_board_goes_on (or_introl eq_refl)).
      rewrite fresh_board_value_for by now apply symbol_other. lia. }
    exists win, pre, (result_hva (other h) win). split; [exact Hfin|].
    split; [exact Hout|]. split; [right; eauto|].
    destruct Hh as [-> | ->], Hres as [-> | [-> | ->]];
      try (now destruct Hne); cbn; auto 6.
Qed.

Lemma play_game_announces_witness :
  exists win pre last,
    check_winner
      (w_board (fst (play_game ascii_lib
                       (start ["1"; "o"; "a"; "5"; "2"; "7"; "6"]))))
    = Ok (Some win)
    /\ w_out (fst (play_game ascii_lib
                     (start ["1"; "o"; "a"; "5"; "2"; "7"; "6"])))
       = pre ++ [String.append last nl]
    /\ ((last = result_hvh win /\ (win = "D" \/ symbol win))
        \/ (exists h, symbol h /\ win <> h /\ last = result_hva (other h) win))
    /\ In last ["It's a draw!"; "Player X wins!"; "Player O wins!";
                "AI (X) wins!"; "AI (O) wins!"].
Proof.
  apply (play_game_announces ascii_lib
           (start ["1"; "o"; "a"; "5"; "2"; "7"; "6"])).
  vm_compute. reflexivity.
Defined.

(** ** What is shown and what is typed *)

(** X20. The number that [print_board] shows in an Empty cell is the
    number to type for it: with a library for which [int] reads back
    what [str] wrote for 1 to 9, and for which such a text is no word
    to quit, [human_turn] on the label of an Empty cell among the
    first nine reads that one line, writes the symbol into that very
    cell and returns. *)
Theorem shown_number_plays_cell (py : pylib) (symbol : string) (b : board)
    (i : nat) (label : string) (rest out : list string) (rolls : nat) :
  (forall n, (1 <= n <= 9)%nat ->
     py_int py (py_strip py (str n)) = Some (Z.of_nat n)
     /\ in_words (py_lower py (py_strip py (str n))) quit_words = false) ->
  (i < 9)%nat -> b !! i = Some " " -> cell_repr b i = Ok label ->
  human_turn py symbol (World b (label :: rest) out rolls)
  = (World (<[i:=symbol]> b) rest
       (out ++ [String.concat "" ["Player "; symbol; ", enter your move (1-9): "]])
       rolls,
     Done tt).
Proof.
  intros Hlib Hi Hb Hlabel. rewrite cell_repr_spec, Hb in Hlabel.
  cbn [String.eqb Ascii.eqb Bool.eqb] in Hlabel. injection Hlabel as <-.
  destruct (Hlib (i + 1)%nat) as [Hint Hquit]; [lia|].
  unfold human_turn. cbn [w_keys length]. rewrite human_turn_step. cbv zeta.
  rewrite Hquit, Hint.
  replace (Z.of_nat (i + 1) - 1)%Z with (Z.of_nat i) by lia.
  rewrite Nat2Z.id, Hb.
  assert ((0 <=? Z.of_nat i)%Z && (Z.of_nat i <? 9)%Z = true) as ->.
  { apply andb_true_iff. split; [apply Z.leb_le | apply Z.ltb_lt]; lia. }
  reflexivity.
Qed.

Lemma shown_number_plays_cell_witness :
  human_turn ascii_lib "O" (World scenario_2_board ["6"; "1"] [] 0)
  = (World ["X"; "X"; " "; "O"; "O"; "O"; " "; " "; " "] ["1"]
       ["Player O, enter your move (1-9): "] 0,
     Done tt).
Proof.
  apply (shown_number_plays_cell ascii_lib "O" scenario_2_board 5 "6" ["1"] [] 0).
  - intros n Hn.
    do 10 (destruct n as [|n]; [try lia; vm_compute; auto|]). lia.
  - lia.
  - reflexivity.
  - reflexivity.
Defined.

(** ** The prompts of [play] *)

Lemma choose_mode_accepts (py : pylib) (b : board) (line : string)
    (rest out : list string) (rolls : nat) :
  py_strip py line = "" \/ py_strip py line = "1" ->
  choose_mode py (World b (line :: rest) out rolls)
  = (World b rest
       ((out ++ [String.append
                   (String.concat ""
                      ["Select mode:"; nl; "1) Human vs AI"; nl; "2) Human vs Human"])
                   nl])
        ++ ["Choice [1]: "]) rolls,
     Done "hva").
Proof.
  intros H. unfold choose_mode. cbn [w_keys length choose_mode_fuel].
  unfold io_bind at 1, print at 1. unfold io_bind at 1, input.
  cbn [write w_keys w_board w_out w_rolls].
  destruct H as [-> | ->]; reflexivity.
Qed.

Lemma choose_symbol_accepts (py : pylib) (b : board) (line : string)
    (rest out : list string) (rolls : nat) (s : string) :
  s = (if String.eqb (py_upper py (py_strip py line)) "" then "X"
       else py_upper py (py_strip py line)) ->
  symbol s ->
  choose_symbol py (World b (line :: rest) out rolls)
  = (World b rest
       (out ++ ["Choose your symbol (X/O). X goes first. [Default X]: "]) rolls,
     Done (s, other s)).
Proof.
  intros Es Hs. unfold choose_symbol. cbn [w_keys length choose_symbol_fuel].
  unfold io_bind at 1, input. cbn [w_keys w_board w_out w_rolls].
  rewrite <- Es. destruct Hs as [-> | ->]; reflexivity.
Qed.

Lemma choose_first_accepts (py : pylib) (h : string) (b : board) (line : string)
    (rest out : list string) (rolls : nat) :
  In (py_lower py (py_strip py line)) [""; "h"; "human"; "a"; "ai"] ->
  exists first,
    choose_first py h (World b (line :: rest) out rolls)
    = (World b rest
         (out ++ ["Who goes first? (H)uman or (A)I. [Default: whoever is X]: "])
         rolls,
       Done first).
Proof.
  intros H. unfold choose_first. cbn [w_keys length choose_first_fuel].
  unfold io_bind at 1, input. cbn [w_keys w_board w_out w_rolls].
  destruct H as [<- | [<- | [<- | [<- | [<- | []]]]]]; eexists; reflexivity.
Qed.

(** X21. The answer to "Who goes first?" changes nothing: in the mode
    Human vs AI, once the symbol is chosen, the run of [play] is the
    loop of that mode on a fresh board with X to move, from the same
    input, output and generator for every answer that the prompt
    accepts. *)
Theorem first_answer_is_ignored (py : pylib) (b : board) (m s : string)
    (rest out : list string) (rolls : nat) (h : string) :
  py_strip py m = "" \/ py_strip py m = "1" ->
  h = (if String.eqb (py_upper py (py_strip py s)) "" then "X"
       else py_upper py (py_strip py s)) ->
  symbol h ->
  exists out',
    forall f,
      In (py_lower py (py_strip py f)) [""; "h"; "human"; "a"; "ai"] ->
      play_game py (World b (m :: s :: f :: rest) out rolls)
      = hva_loop py 9 h (other h) "X" (World fresh_board rest out' rolls).
Proof.
  intros Hm Hs Hh. eexists. intros f Hf. unfold play_game.
  unfold io_bind at 1, print at 1. unfold io_bind at 1.
  unfold write. cbn [w_keys w_board w_out w_rolls].
  rewrite (choose_mode_accepts py b m _ _ rolls Hm).
  unfold io_bind at 1, new_board. cbn [w_keys w_board w_out w_rolls].
  cbn [String.eqb Ascii.eqb Bool.eqb]. unfold io_bind at 1.
  rewrite (choose_symbol_accepts py fresh_board s _ _ rolls h Hs Hh).
  cbn [fst snd]. unfold io_bind at 1.
  destruct (choose_first_accepts py h fresh_board f rest
              ((((out ++ [String.append "=== Tic-Tac-Toe (CLI) with Unbeatable AI ===" nl])
                 ++ [String.append
                       (String.concat ""
                          ["Select mode:"; nl; "1) Human vs AI"; nl; "2) Human vs Human"])
                       nl])
                ++ ["Choice [1]: "])
               ++ ["Choose your symbol (X/O). X goes first. [Default X]: "])
              rolls Hf) as [first ->].
  reflexivity.
Qed.

Lemma first_answer_is_ignored_witness :
  exists out',
    forall f,
      In (py_lower ascii_lib (py_strip ascii_lib f)) [""; "h"; "human"; "a"; "ai"] ->
      play_game ascii_lib (World [] (" 1" :: "o " :: f :: ["5"; "q"]) [] 0)
      = hva_loop ascii_lib 9 "O" (other "O") "X" (World fresh_board ["5"; "q"] out' 0).
Proof.
  apply (first_answer_is_ignored ascii_lib [] " 1" "o " ["5"; "q"] [] 0 "O").
  - right. reflexivity.
  - reflexivity.
  - now right.
Defined.
